(** * wids: indexed access to sharded tar datasets

    A shallow embedding of [src/wids/wids.py]: the member-name splitter and
    the grouping pass of [IndexedTarSamples], the shard cache [LRUShards],
    the escaped local-name policy [default_localname], the index resolution
    and access path of [ShardListDataset], and [ShardListSampler].

    Python integers are [Z], Python [str] values are [string] (read as the
    UTF-8 bytes of the text), dictionaries with string keys are [gmap]s,
    Python lists are lists, and an exception is a [Raise] result. *)

From Stdlib Require Import ZArith Lia Ascii String List Permutation.
From stdpp Require Import base option list strings gmap.
From Equations Require Import Equations.

Set Default Proof Using "Type".

(** ** Exceptions and results *)

Inductive exn : Type :=
  | IndexError
  | AssertionError
  | AttributeError
  | OverflowError
  | KeyError
  | TypeError
  | FileNotFoundError
  | FetchError.

Inductive result (A : Type) : Type :=
  | Ok (a : A)
  | Raise (e : exn).
Arguments Ok {A} a.
Arguments Raise {A} e.

#[global] Instance result_ret : MRet result := λ A a, Ok a.
#[global] Instance result_bind : MBind result := λ A B k r,
  match r with
  | Ok a => k a
  | Raise e => Raise e
  end.

Definition is_ok {A : Type} (r : result A) : bool :=
  match r with Ok _ => true | Raise _ => false end.

(** Python list indexing [l[i]]: a negative [i] counts from the end, and an
    index outside [-len(l), len(l)) raises [IndexError]. *)
Definition py_index {A : Type} (l : list A) (i : Z) : result A :=
  let n := Z.of_nat (length l) in
  let j := (if decide (i < 0) then i + n else i)%Z in
  if decide (0 ≤ j)%Z then
    match l !! Z.to_nat j with
    | Some x => Ok x
    | None => Raise IndexError
    end
  else Raise IndexError.

(** ** The numpy operations used by the dataset *)

Module Np.

(** Signed 64-bit wrap-around, numpy's default integer type. *)
Definition wrap64 (z : Z) : Z := ((z + 2 ^ 63) `mod` 2 ^ 64 - 2 ^ 63)%Z.

Definition in_int64 (z : Z) : bool :=
  bool_decide (- 2 ^ 63 ≤ z)%Z && bool_decide (z < 2 ^ 63)%Z.

(** Conversion of a list of Python integers to an int64 array. Only
    lists of int64 values are in the model: for a value outside int64
    numpy chooses another element type, which is not modelled, and the
    model stops with [OverflowError]. *)
Definition asarray (l : list Z) : result (list Z) :=
  if forallb in_int64 l then Ok l else Raise OverflowError.

Fixpoint cumsum_from (acc : Z) (l : list Z) : list Z :=
  match l with
  | [] => []
  | x :: r => let acc' := wrap64 (acc + x) in acc' :: cumsum_from acc' r
  end.

(** [np.cumsum(l)]: running sums accumulated in int64. *)
Definition cumsum (l : list Z) : result (list Z) :=
  a ← asarray l; Ok (cumsum_from 0 a).

(** [np.searchsorted(a, v, side="right")] for a scalar [v]: the bisection
    loop
      while lo < hi: mid = lo + (hi - lo) // 2
                     if v < a[mid]: hi = mid  else: lo = mid + 1
    started at [lo = 0], [hi = len(a)]. *)
Equations? bisect_right (a : list Z) (v : Z) (lo hi : nat) : nat
  by wf (hi - lo) lt :=
  bisect_right a v lo hi with decide (lo < hi) => {
    | right _ := lo
    | left _ with a !! (lo + (hi - lo) / 2) => {
        | None := lo
        | Some x with decide (v < x)%Z => {
            | left _ := bisect_right a v lo (lo + (hi - lo) / 2)
            | right _ := bisect_right a v (S (lo + (hi - lo) / 2)) hi } } }.
Proof.
  all: change (Nat.divmod (hi - lo) 1 0 1).1 with ((hi - lo) / 2);
    pose proof (Nat.Div0.div_lt_upper_bound (hi - lo) 2 (hi - lo)); lia.
Qed.

Definition searchsorted_right (a : list Z) (v : Z) : nat :=
  bisect_right a v 0 (length a).

End Np.

(** ** The fragment of Python regular expressions used by [splitname]

    A backtracking matcher in continuation-passing style: the continuation
    receives the rest of the input and the capture groups so far, and a
    failing continuation makes the matcher try its next alternative, in the
    order Python's [re] tries them (greedy: longest first; lazy: shortest
    first; an optional group: first with the group, then without). *)

Module Re.

Definition newline : ascii := "010"%char.

Inductive atom : Type :=
  | Any                 (* [.]  any character except a newline *)
  | Lit (c : ascii).    (* a literal character *)

Inductive regex : Type :=
  | Atom (a : atom)
  | Seq (r1 r2 : regex)
  | StarG (a : atom)            (* [a*]   greedy *)
  | StarL (a : atom)            (* [a*?]  lazy *)
  | OptG (r : regex)            (* [(?:r)?] greedy *)
  | Group (n : nat) (r : regex) (* [(r)], the n-th capture group *)
  | Bol                         (* [^] *)
  | Eol.                        (* [$]: at the end, or before a final newline *)

Definition atom_ok (a : atom) (c : ascii) : bool :=
  match a with
  | Any => negb (Ascii.eqb c newline)
  | Lit d => Ascii.eqb c d
  end.

Abbreviation captures := (gmap nat string).
Definition cont : Type := string → captures → option captures.

Definition orelse {A : Type} (x y : option A) : option A :=
  match x with Some _ => x | None => y end.

Fixpoint star_greedy (a : atom) (s : string) (caps : captures) (k : cont)
  : option captures :=
  match s with
  | String c s' =>
      if atom_ok a c then orelse (star_greedy a s' caps k) (k s caps)
      else k s caps
  | EmptyString => k s caps
  end.

Fixpoint star_lazy (a : atom) (s : string) (caps : captures) (k : cont)
  : option captures :=
  orelse (k s caps)
    match s with
    | String c s' => if atom_ok a c then star_lazy a s' caps k else None
    | EmptyString => None
    end.

(** The text consumed between the input [s] and a later rest [s']. *)
Definition consumed (s s' : string) : string :=
  String.substring 0 (String.length s - String.length s') s.

Definition at_eol (s : string) : bool :=
  match s with
  | EmptyString => true
  | String c EmptyString => Ascii.eqb c newline
  | _ => false
  end.

Fixpoint run (whole : string) (r : regex) (s : string) (caps : captures)
  (k : cont) : option captures :=
  match r with
  | Atom a =>
      match s with
      | String c s' => if atom_ok a c then k s' caps else None
      | EmptyString => None
      end
  | Seq r1 r2 => run whole r1 s caps (λ s1 c1, run whole r2 s1 c1 k)
  | StarG a => star_greedy a s caps k
  | StarL a => star_lazy a s caps k
  | OptG r1 => orelse (run whole r1 s caps k) (k s caps)
  | Group n r1 =>
      run whole r1 s caps (λ s' c', k s' (<[n := consumed s s']> c'))
  | Bol => if String.length s =? String.length whole then k s caps else None
  | Eol => if at_eol s then k s caps else None
  end.

(** [re.match(r, s)]: the capture groups of the first match found at the
    start of [s], or [None]. *)
Definition rmatch (r : regex) (s : string) : option captures :=
  run s r s ∅ (λ _ caps, Some caps).

End Re.

(** ** Splitting member names and grouping them into samples *)

(** The pattern of [splitname], written here with spaces between its parts:
    ^ ( (?: .* / )? .*? ) ( \. .* ) $ *)
Definition splitname_re : Re.regex :=
  Re.Seq Re.Bol
    (Re.Seq
       (Re.Group 1
          (Re.Seq (Re.OptG (Re.Seq (Re.StarG Re.Any) (Re.Atom (Re.Lit "/"))))
                  (Re.StarL Re.Any)))
       (Re.Seq
          (Re.Group 2 (Re.Seq (Re.Atom (Re.Lit ".")) (Re.StarG Re.Any)))
          Re.Eol)).

(** ["." in fname] *)
Fixpoint has_dot (fname : string) : bool :=
  match fname with
  | EmptyString => false
  | String c s => Ascii.eqb c "." || has_dot s
  end.

(** [splitname]: the assertion, then the two groups of the match; calling
    [.groups()] on a failed match ([None]) raises [AttributeError]. *)
Definition splitname (fname : string) : result (string * string) :=
  if has_dot fname then
    match Re.rmatch splitname_re fname with
    | Some caps =>
        match caps !! 1, caps !! 2 with
        | Some basename, Some extension => Ok (basename, extension)
        | _, _ => Raise AttributeError
        end
    | None => Raise AttributeError
    end
  else Raise AssertionError.

(** What the program prints. *)
Inductive event : Type :=
  | IgnoringFile (fname : string)            (* Warning: Ignoring file ... (no '.') *)
  | MissRateWarning (accesses misses : Z).   (* Warning: ... cache miss rate ... *)

(** A computation that prints and then returns or raises. *)
Abbreviation printing A := (list event * result A)%type.

Definition pbind {A B : Type} (p : printing A) (k : A → printing B)
  : printing B :=
  match p with
  | (out, Ok a) => let '(out', r) := k a in (out ++ out', r)
  | (out, Raise e) => (out, Raise e)
  end.

Definition plift {A : Type} (r : result A) : printing A := ([], r).

(** The loop state of [group_by_key]. *)
Record grouping : Type := Grouping {
  groups : list (list nat);
  last_key : option string;
  current : list nat;
}.

Definition flush (g : grouping) : list (list nat) :=
  match current g with
  | [] => groups g
  | _ :: _ => groups g ++ [current g]
  end.

(** One iteration of the loop body, for the member [fname] at position [i]. *)
Definition group_step (i : nat) (fname : string) (g : grouping)
  : printing grouping :=
  if negb (has_dot fname) then ([IgnoringFile fname], Ok g)
  else
    plift ('(key, ext) ← splitname fname;
           let g1 := if decide (Some key ≠ last_key g)
                     then Grouping (flush g) (Some key) []
                     else g in
           Ok (Grouping (groups g1) (last_key g1) (current g1 ++ [i]))).

Fixpoint group_loop (i : nat) (names : list string) (g : grouping)
  : printing grouping :=
  match names with
  | [] => plift (Ok g)
  | fname :: rest => pbind (group_step i fname g) (group_loop (S i) rest)
  end.

Definition group_by_key (names : list string) : printing (list (list nat)) :=
  pbind (group_loop 0 names (Grouping [] None [])) (λ g, plift (Ok (flush g))).

(** ** IndexedTarSamples *)

Definition data : Type := list Byte.byte.

(** Modelled from the spec: the single-shard archive index ([MMIndexedTar],
    [TarFileReader]) is not among the sources. Its consumed contract is the
    ordered member names and the retrieval of (name, bytes) by position; it
    is a list of members, together with the digest that [compute_file_md5sum]
    returns for the archive. *)
Record archive : Type := Archive {
  members : list (string * data);
  md5 : string;
}.

Definition names (tar : archive) : list string := (members tar).*1.

Definition get_file (tar : archive) (i : nat) : result (string * data) :=
  match members tar !! i with
  | Some m => Ok m
  | None => Raise IndexError
  end.

Record IndexedTarSamples : Type := MkIndexedTarSamples {
  reader : archive;
  samples : list (list nat);
}.

Definition py_assert (b : bool) : result unit :=
  if b then Ok () else Raise AssertionError.

(** [path or tar_file] is a string: the archive is handed over as an open
    stream, as [LRUShards.get_shard] does, so [path] has to be a non-empty
    string. *)
Definition path_is_str (path : option string) : bool :=
  match path with
  | Some p => negb (bool_decide (p = EmptyString))
  | None => false
  end.

(** [IndexedTarSamples.__init__] on a stream, with the optional checks. *)
Definition IndexedTarSamples_init (tar : archive) (path : option string)
  (md5sum : option string) (expected_size : option Z)
  : printing IndexedTarSamples :=
  pbind (plift (py_assert (path_is_str path))) (λ _,
  pbind (group_by_key (names tar)) (λ gs,
    plift (
      _ ← match md5sum with
          | Some want => py_assert (bool_decide (md5 tar = want))
          | None => Ok ()
          end;
      _ ← match expected_size with
          | Some n => py_assert (bool_decide (Z.of_nat (length gs) = n))
          | None => Ok ()
          end;
      Ok (MkIndexedTarSamples tar gs)))).

(** [IndexedTarSamples.__len__] *)
Definition its_len (s : IndexedTarSamples) : Z := Z.of_nat (length (samples s)).

(** The values stored in a sample dictionary. *)
Inductive value : Type :=
  | VBytes (b : data)
  | VStr (s : string)
  | VInt (z : Z)
  | VNone.

Abbreviation sample := (gmap string value).

(** [key or k], where [key] is [None] or a string. *)
Definition py_or (key : option string) (k : string) : string :=
  match key with
  | Some s => if decide (s = EmptyString) then k else s
  | None => k
  end.

(** The loop of [IndexedTarSamples.__getitem__] over the member positions. *)
Fixpoint getitem_loop (tar : archive) (indexes : list nat)
  (smp : sample) (key : option string) : result (sample * option string) :=
  match indexes with
  | [] => Ok (smp, key)
  | i :: rest =>
      '(fname, d) ← get_file tar i;
      '(k, ext) ← splitname fname;
      let key' := py_or key k in
      _ ← py_assert (bool_decide (key' = k));
      getitem_loop tar rest (<[ext := VBytes d]> smp) (Some key')
  end.

Definition value_of_key (key : option string) : value :=
  match key with Some s => VStr s | None => VNone end.

(** [IndexedTarSamples.__getitem__] *)
Definition its_getitem (s : IndexedTarSamples) (idx : Z) : result sample :=
  indexes ← py_index (samples s) idx;
  '(smp, key) ← getitem_loop (reader s) indexes ∅ None;
  Ok (<["__key__"%string := value_of_key key]> smp).

(** ** Local names *)

Module Urllib.

Definition hex_digit (n : N) : ascii :=
  (if n <? 10 then ascii_of_N (48 + n) else ascii_of_N (55 + n))%N.

(** The bytes [quote] never escapes: letters, digits and [_.-~]. *)
Definition always_safe (c : ascii) : bool :=
  let n := N_of_ascii c in
  ((65 <=? n) && (n <=? 90) || (97 <=? n) && (n <=? 122)
   || (48 <=? n) && (n <=? 57)
   || (n =? 95) || (n =? 46) || (n =? 45) || (n =? 126))%N.

Fixpoint mem (c : ascii) (s : string) : bool :=
  match s with
  | EmptyString => false
  | String d r => Ascii.eqb c d || mem c r
  end.

(** One byte: itself when safe, else a percent sign and two upper-case
    hexadecimal digits. *)
Definition quote_byte (safe : string) (c : ascii) : string :=
  if always_safe c || mem c safe then String c EmptyString
  else
    let n := N_of_ascii c in
    String "%" (String (hex_digit (n / 16)) (String (hex_digit (n mod 16))
      EmptyString)).

(** [urllib.parse.quote(s, safe=safe)] on the UTF-8 bytes of [s]. *)
Fixpoint quote (safe : string) (s : string) : string :=
  match s with
  | EmptyString => EmptyString
  | String c r => quote_byte safe c +:+ quote safe r
  end.

End Urllib.

Fixpoint ends_with_slash (s : string) : bool :=
  match s with
  | EmptyString => false
  | String c EmptyString => Ascii.eqb c "/"
  | String _ r => ends_with_slash r
  end.

(** [b.startswith("/")] *)
Definition starts_with_slash (b : string) : bool :=
  match b with
  | String c _ => Ascii.eqb c "/"
  | EmptyString => false
  end.

(** [os.path.join(a, b)] on a POSIX system: an absolute [b] replaces [a];
    else [b] is appended, after a separator unless [a] is empty or already
    ends with one. *)
Definition path_join (a b : string) : string :=
  if starts_with_slash b then b
  else if bool_decide (a = EmptyString) || ends_with_slash a then a +:+ b
  else a +:+ "/" +:+ b.

(** [os.makedirs(d, exist_ok=True)], as the local-name factories call it:
    the empty path is refused; for any other path the outcome depends on
    the file system, which is taken to let the directory be made. *)
Definition makedirs (d : string) : result unit :=
  match d with
  | EmptyString => Raise FileNotFoundError
  | String _ _ => Ok ()
  end.

(** The function returned by [default_localname(dldir)]. *)
Definition default_localname (dldir : string) (shard : string) : string :=
  let cachename := Urllib.quote "+-" shard in
  path_join dldir cachename.

(** ** The shard cache *)

(** Modelled from the spec: [wids_lru.LRUCache] is not among the sources. It
    is the bounded pool of section 4.2: entries ordered by recency (most
    recently used first); a hit marks the entry most recently used; an
    insertion evicts the least recently used entry if the pool is at
    capacity, handing it to the release callback. The section describes
    pools of capacity at least 1; at a smaller capacity the model keeps
    the entry just inserted, and the statements that read an entry back
    from the pool assume a capacity of at least 1. *)
Module LRUCache.

Record t (V : Type) : Type := Make {
  capacity : Z;
  entries : list (string * V);
}.
Arguments Make {V} capacity entries.
Arguments capacity {V} _.
Arguments entries {V} _.

Section ops.
Context {V : Type}.

Definition contains (c : t V) (k : string) : bool :=
  bool_decide (k ∈ (entries c).*1).

Fixpoint assoc (k : string) (l : list (string * V)) : option V :=
  match l with
  | [] => None
  | (k', v) :: r => if decide (k' = k) then Some v else assoc k r
  end.

Definition find (c : t V) (k : string) : option V := assoc k (entries c).

Definition without (k : string) (l : list (string * V))
  : list (string * V) :=
  filter (λ e, e.1 ≠ k) l.

(** [c[k]] on a present key: the value, and the pool with the entry
    moved to the front. *)
Definition getitem (c : t V) (k : string) : option (V * t V) :=
  v ← find c k;
  Some (v, Make (capacity c) ((k, v) :: without k (entries c))).

(** [c[k] = v]: the pool after the insertion, and the evicted entries
    (those given to the release callback). *)
Definition setitem (c : t V) (k : string) (v : V)
  : t V * list (string * V) :=
  let rest := without k (entries c) in
  if decide (capacity c ≤ Z.of_nat (length rest))%Z then
    match rest with
    | [] => (Make (capacity c) [(k, v)], [])
    | _ :: _ =>
        (Make (capacity c) ((k, v) :: removelast rest),
         match last rest with Some e => [e] | None => [] end)
    end
  else (Make (capacity c) ((k, v) :: rest), []).

Definition clear (c : t V) : t V * list (string * V) :=
  (Make (capacity c) [], entries c).

End ops.

End LRUCache.

Record LRUShards : Type := MkLRUShards {
  localname : string → string;
  lru : LRUCache.t IndexedTarSamples;
  accesses : Z;
  misses : Z;
  last_missed : option bool;    (* unset until the first [get_shard] *)
}.

(** [LRUShards.__init__] followed by [reset_stats]. *)
Definition LRUShards_init (num_shards : Z) (localname : string → string)
  : LRUShards :=
  MkLRUShards localname (LRUCache.Make num_shards []) 0 0 None.

Definition reset_stats (c : LRUShards) : LRUShards :=
  MkLRUShards (localname c) (lru c) 0 0 (last_missed c).

Definition LRUShards_clear (c : LRUShards) : LRUShards :=
  MkLRUShards (localname c) (LRUCache.clear (lru c)).1 (accesses c) (misses c)
    (last_missed c).

Section fetch.

(** The external fetch/open collaborator [download_and_open(url, local)]
    followed by the archive reader over the stream it returns. *)
Variable download_and_open : string → string → result archive.

(** [LRUShards.get_shard]. The counters are updated in the order of the
    source, so a fetch that raises leaves the access counted. *)
Definition LRUShards_get_shard (c : LRUShards) (url : string)
  : printing IndexedTarSamples * LRUShards :=
  let c1 := MkLRUShards (localname c) (lru c) (accesses c + 1) (misses c)
              (last_missed c) in
  let miss :=
    if LRUCache.contains (lru c1) url then
      (([], Ok ()),
       MkLRUShards (localname c1) (lru c1) (accesses c1) (misses c1)
         (Some false))
    else
      let local := localname c1 url in
      match pbind (plift (download_and_open url local))
              (λ stream, IndexedTarSamples_init stream (Some local) None None)
    with
      | (out, Ok itf) =>
          ((out, Ok ()),
           MkLRUShards (localname c1) (LRUCache.setitem (lru c1) url itf).1
             (accesses c1) (misses c1 + 1) (Some true))
      | (out, Raise e) => ((out, Raise e), c1)
      end in
  match miss with
  | ((out, Ok ()), c2) =>
      match LRUCache.getitem (lru c2) url with
      | Some (v, l) =>
          ((out, Ok v),
           MkLRUShards (localname c2) l (accesses c2) (misses c2)
             (last_missed c2))
      | None => ((out, Raise KeyError), c2)
      end
  | ((out, Raise e), c2) => ((out, Raise e), c2)
  end.

End fetch.

(** ** ShardListDataset *)

(** A shard descriptor: the dictionary with the keys [url], [nsamples] and,
    optionally, [dataset] and [filesize]. *)
Record ShardDesc : Type := MkShardDesc {
  url : string;
  nsamples : Z;
  dataset : option string;
  filesize : option Z;
}.

Record ShardListDataset : Type := MkDataset {
  shards : list ShardDesc;
  lengths : list Z;
  cum_lengths : list Z;
  total_length : Z;
  cache_dir : option string;
  cache : LRUShards;
  (* the cleanup collaborator, when there is one, with the number of times
     [run_cleanup] has been called *)
  cleanup : option nat;
  transformations : list (sample → result sample);
  (* [false] once [check_cache_misses] has been replaced by the no-op *)
  check_enabled : bool;
}.

(** [os.path.basename] *)
Fixpoint basename (s : string) : string :=
  match s with
  | EmptyString => EmptyString
  | String c r => if Urllib.mem "/" r then basename r
                  else if Ascii.eqb c "/" then r else s
  end.

(** The float comparison [misses / accesses > 0.3] on two positive Python
    integers. The quotient is the double nearest to the exact ratio (ties to
    even), and the literal is the double 5404319552844595 / 2^54, whose
    successor 5404319552844596 / 2^54 has an even significand: the rounded
    quotient exceeds the literal exactly when the exact ratio reaches the
    midpoint 10808639105689191 / 2^55 of the two. *)
Definition ratio_gt_03 (misses accesses : Z) : bool :=
  bool_decide (10808639105689191 * accesses ≤ misses * 2 ^ 55)%Z.

(** The test of [check_cache_misses]. *)
Definition miss_rate_high (accesses misses : Z) : bool :=
  bool_decide (100 < accesses)%Z && ratio_gt_03 misses accesses.

(** [get_stats] *)
Definition get_stats (ds : ShardListDataset) : Z * Z :=
  (accesses (cache ds), misses (cache ds)).

Definition disable_check (ds : ShardListDataset) : ShardListDataset :=
  MkDataset (shards ds) (lengths ds) (cum_lengths ds) (total_length ds)
    (cache_dir ds) (cache ds) (cleanup ds) (transformations ds) false.

(** [check_cache_misses]: the method, or the no-op that replaced it. *)
Definition check_cache_misses (ds : ShardListDataset)
  : list event * ShardListDataset :=
  if check_enabled ds then
    let '(a, m) := get_stats ds in
    if miss_rate_high a m then ([MissRateWarning a m], disable_check ds)
    else ([], ds)
  else ([], ds).

(** The index resolution at the head of [ShardListDataset.get_shard]; the
    subtraction is an int64 one, and [shard_idx - 1] is a position of the
    table whenever [shard_idx] is not 0. The index is an int64 value: on a
    Python integer outside int64 the subtraction is numpy's conversion of
    that integer, which is not modelled, and the statements about indices
    carry the int64 bounds. *)
Definition locate (cum : list Z) (index : Z) : nat * Z :=
  let shard_idx := Np.searchsorted_right cum index in
  let inner_idx :=
    if decide (shard_idx = 0) then index
    else Np.wrap64 (index - default 0%Z (cum !! (shard_idx - 1))) in
  (shard_idx, inner_idx).

Definition with_cache (ds : ShardListDataset) (c : LRUShards) (cl : option nat)
  : ShardListDataset :=
  MkDataset (shards ds) (lengths ds) (cum_lengths ds) (total_length ds)
    (cache_dir ds) c cl (transformations ds) (check_enabled ds).

(** The transformation pipeline at the end of [__getitem__]. *)
Fixpoint apply_transformations (ts : list (sample → result sample))
  (smp : sample) : result sample :=
  match ts with
  | [] => Ok smp
  | t :: rest => smp' ← t smp; apply_transformations rest smp'
  end.

Definition decorate (smp : sample) (desc : ShardDesc) (index inner_idx : Z)
  : sample :=
  <["__shardindex__"%string := VInt inner_idx]>
    (<["__shard__"%string := VStr (url desc)]>
      (<["__index__"%string := VInt index]>
        (<["__dataset__"%string := value_of_key (dataset desc)]> smp))).

Section dataset.

Variable download_and_open : string → string → result archive.

(** The local name used when a cache directory is given explicitly
    ([cache_localname]); it goes through [urlparse], which is not modelled. *)
Variable urlparse_path : string → string.

Definition cache_localname (cachedir : string) (shard : string) : string :=
  path_join cachedir (basename (urlparse_path shard)).

(** [ShardListDataset.__init__] for a list of shard descriptors;
    [transformations] is the list already interpreted, and [wids_cache]
    the value of the environment variable WIDS_CACHE. The factories
    [cache_localname] and [default_localname] make the directory first
    ([makedirs]); a local-name function given by the caller is taken as
    it is. *)
Definition ShardListDataset_init (shards : list ShardDesc) (cache_size : Z)
  (cache_dir : option string) (cache_cleanup : option Z)
  (localname : option (string → string))
  (transformations : list (sample → result sample))
  (wids_cache : option string) : result ShardListDataset :=
  let lengths := nsamples <$> shards in
  cum ← Np.cumsum lengths;
  total ← py_index cum (-1);
  '(cdir, lname) ←
    match cache_dir, localname with
    | Some d, _ => _ ← makedirs d; Ok (Some d, cache_localname d)
    | None, Some f => Ok (None, f)
    | None, None =>
        let d := default "/tmp/_wids_cache"%string wids_cache in
        _ ← makedirs d; Ok (Some d, default_localname d)
    end;
  Ok (MkDataset shards lengths cum total cdir
        (LRUShards_init cache_size lname)
        (match cache_cleanup, cdir with
         | Some _, Some _ => Some 0
         | _, _ => None
         end)
        transformations true).

(** [ShardListDataset.__len__] *)
Definition ShardListDataset_len (ds : ShardListDataset) : Z :=
  total_length ds.

(** [ShardListDataset.get_shard] *)
Definition get_shard (ds : ShardListDataset) (index : Z)
  : printing (IndexedTarSamples * Z * ShardDesc) * ShardListDataset :=
  let '(shard_idx, inner_idx) := locate (cum_lengths ds) index in
  match shards ds !! shard_idx with
  | None => (([], Raise IndexError), ds)
  | Some desc =>
      match LRUShards_get_shard download_and_open (cache ds) (url desc) with
      | ((out, Raise e), c) => ((out, Raise e), with_cache ds c (cleanup ds))
      | ((out, Ok shard), c) =>
          let cl :=
            match last_missed c, cleanup ds with
            | Some true, Some n => Some (S n)
            | _, cl => cl
            end in
          ((out, Ok (shard, inner_idx, desc)), with_cache ds c cl)
      end
  end.

(** The head of [ShardListDataset.__getitem__]: the shard is resolved and
    the sample read from it,
      shard, inner_idx, desc = self.get_shard(index)
      sample = shard[inner_idx] *)
Definition fetch_sample (ds : ShardListDataset) (index : Z)
  : printing (sample * Z * ShardDesc) * ShardListDataset :=
  match get_shard ds index with
  | ((out, Raise e), ds1) => ((out, Raise e), ds1)
  | ((out, Ok (shard, inner_idx, desc)), ds1) =>
      match its_getitem shard inner_idx with
      | Raise e => ((out, Raise e), ds1)
      | Ok smp => ((out, Ok (smp, inner_idx, desc)), ds1)
      end
  end.

(** [ShardListDataset.__getitem__]: the sample is read, the cache-health
    check runs, the sample is decorated and goes through the
    transformations. *)
Definition ShardListDataset_getitem (ds : ShardListDataset) (index : Z)
  : printing sample * ShardListDataset :=
  match fetch_sample ds index with
  | ((out, Raise e), ds1) => ((out, Raise e), ds1)
  | ((out, Ok (smp, inner_idx, desc)), ds1) =>
      let '(out2, ds2) := check_cache_misses ds1 in
      ((out ++ out2,
        apply_transformations (transformations ds2)
          (decorate smp desc index inner_idx)),
       ds2)
  end.

(** A sequence of accesses, one after the other on the same instance:
    for each access what it printed, its outcome, and the state after
    it. *)
Fixpoint access_trace (ds : ShardListDataset) (indexes : list Z)
  : list (printing sample * ShardListDataset) :=
  match indexes with
  | [] => []
  | i :: rest =>
      let e := ShardListDataset_getitem ds i in
      e :: access_trace e.2 rest
  end.

(** The access got as far as the cache-health check. *)
Definition reaches_check (ds : ShardListDataset) (index : Z) : bool :=
  is_ok (fetch_sample ds index).1.2.

(** The cache counters after the access. *)
Definition stats_after (ds : ShardListDataset) (index : Z) : Z * Z :=
  get_stats (fetch_sample ds index).2.

(** The access emits the advisory warning. *)
Definition fires (ds : ShardListDataset) (index : Z) : bool :=
  check_enabled ds && reaches_check ds index
  && miss_rate_high (stats_after ds index).1 (stats_after ds index).2.

End dataset.

(** ** ShardListSampler *)

(** Python list assignment [l[i] = v], with the same index rule as
    [py_index]. *)
Definition py_setitem {A : Type} (l : list A) (i : Z) (v : A)
  : result (list A) :=
  let n := Z.of_nat (length l) in
  let j := (if decide (i < 0) then i + n else i)%Z in
  if decide (0 ≤ j < n)%Z then Ok (<[Z.to_nat j := v]> l)
  else Raise IndexError.

(** [x[i], x[j] = x[j], x[i]] *)
Definition py_swap {A : Type} (x : list A) (i j : Z) : result (list A) :=
  a ← py_index x j;
  b ← py_index x i;
  x1 ← py_setitem x i a;
  py_setitem x1 j b.

(** [range(start, end)] *)
Definition py_range (start stop : Z) : list Z := seqZ start (stop - start).

(** The ranges built by [ShardListSampler.__init__]. *)
Fixpoint make_ranges (start : Z) (lengths : list Z) : list (Z * Z) :=
  match lengths with
  | [] => []
  | l :: rest => (start, start + l)%Z :: make_ranges (start + l) rest
  end.

Section sampler.

(** The generator of Python's [random] module: the state of a
    [random.Random], its construction from a seed, and the bounded draw
    [_randbelow] that [shuffle] is written with. *)
Variable rng : Type.
Variable Random : Z → rng.
Variable randbelow : rng → Z → Z * rng.

(** [random.Random.shuffle]:
      for i in reversed(range(1, len(x))):
          j = randbelow(i + 1); x[i], x[j] = x[j], x[i]
    [shuffle_from i] runs the iterations [i, i-1, ..., 1]. *)
Fixpoint shuffle_from {A : Type} (i : nat) (g : rng) (x : list A)
  : result (list A) * rng :=
  match i with
  | O => (Ok x, g)
  | S i' =>
      let '(j, g') := randbelow g (Z.of_nat i + 1) in
      match py_swap x (Z.of_nat i) j with
      | Ok x' => shuffle_from i' g' x'
      | Raise e => (Raise e, g')
      end
  end.

Definition shuffle {A : Type} (g : rng) (x : list A) : result (list A) * rng :=
  shuffle_from (length x - 1) g x.

Record ShardListSampler : Type := MkSampler {
  ranges : list (Z * Z);
  seed : Z;
  shufflefirst : bool;
  epoch : Z;
  sampler_rng : option rng;     (* [self.rng], unset until the first traversal *)
}.

(** [ShardListSampler.__init__] with the lengths given. *)
Definition ShardListSampler_init (lengths : list Z) (seed : Z)
  (shufflefirst : bool) : ShardListSampler :=
  MkSampler (make_ranges 0 lengths) seed shufflefirst 0 None.

(** [ShardListSampler.__init__] with [lengths=None]. *)
Definition ShardListSampler_of_dataset (ds : ShardListDataset) (seed : Z)
  (shufflefirst : bool) : ShardListSampler :=
  ShardListSampler_init (lengths ds) seed shufflefirst.

(** The loop over the shards of [__iter__]: the indices yielded. *)
Fixpoint yield_shards (rs : list (Z * Z)) (shardperm : list Z) (g : rng)
  : result (list Z) * rng :=
  match shardperm with
  | [] => (Ok [], g)
  | shard :: rest =>
      match py_index rs shard with
      | Raise e => (Raise e, g)
      | Ok (start, stop) =>
          match shuffle g (py_range start stop) with
          | (Raise e, g') => (Raise e, g')
          | (Ok indexes, g') =>
              match yield_shards rs rest g' with
              | (Ok more, g'') => (Ok (indexes ++ more), g'')
              | (Raise e, g'') => (Raise e, g'')
              end
          end
      end
  end.

Definition with_rng (s : ShardListSampler) (g : rng) (e : Z)
  : ShardListSampler :=
  MkSampler (ranges s) (seed s) (shufflefirst s) e (Some g).

(** One full traversal of [ShardListSampler.__iter__]: the sequence of
    indices it yields and the sampler afterwards; the epoch counter is
    incremented when the traversal completes. *)
Definition sampler_iter (s : ShardListSampler)
  : result (list Z) * ShardListSampler :=
  let g0 := Random (seed s + 1289738273 * epoch s) in
  let shardperm0 := py_range 0 (Z.of_nat (length (ranges s))) in
  let '(r, g1) :=
    if bool_decide (0 < epoch s)%Z || shufflefirst s
    then shuffle g0 shardperm0
    else (Ok shardperm0, g0) in
  match r with
  | Raise e => (Raise e, with_rng s g1 (epoch s))
  | Ok shardperm =>
      match yield_shards (ranges s) shardperm g1 with
      | (Ok out, g2) => (Ok out, with_rng s g2 (epoch s + 1))
      | (Raise e, g2) => (Raise e, with_rng s g2 (epoch s))
      end
  end.

End sampler.

Arguments shuffle_from {rng} randbelow {A} i g x.
Arguments shuffle {rng} randbelow {A} g x.
Arguments yield_shards {rng} randbelow rs shardperm g.
Arguments sampler_iter {rng} Random randbelow s.
Arguments with_rng {rng} s g e.
Arguments ranges {rng} s.
Arguments seed {rng} s.
Arguments shufflefirst {rng} s.
Arguments epoch {rng} s.
Arguments sampler_rng {rng} s.
Arguments MkSampler {rng} ranges seed shufflefirst epoch sampler_rng.

(** ** The statements of the specification, as definitions *)

(** The name cut at its first ['.']. *)
Fixpoint split_first_dot (s : string) : option (string * string) :=
  match s with
  | EmptyString => None
  | String c r =>
      if Ascii.eqb c "." then Some (EmptyString, s)
      else '(k, e) ← split_first_dot r; Some (String c k, e)
  end.

(** The split point in the words of the specification: the first ['.'] that
    follows the last path separator. *)
Fixpoint spec_split (s : string) : option (string * string) :=
  match s with
  | EmptyString => None
  | String c r =>
      if Urllib.mem "/" s then '(k, e) ← spec_split r; Some (String c k, e)
      else split_first_dot s
  end.

(** The first position of a table entry that exceeds [i]: the upper-bound
    search of the specification, as a linear scan. *)
Fixpoint first_exceeding (cum : list Z) (i : Z) : nat :=
  match cum with
  | [] => 0
  | c :: rest => if decide (i < c)%Z then 0 else S (first_exceeding rest i)
  end.

(** The prefix sums of the shard lengths, without any machine arithmetic. *)
Fixpoint prefix_sums (acc : Z) (l : list Z) : list Z :=
  match l with
  | [] => []
  | x :: r => (acc + x)%Z :: prefix_sums (acc + x) r
  end.

(** The keys of the kept names, in order, and the number of maximal runs of
    equal consecutive keys. *)
Fixpoint count_runs (last : option string) (keys : list string) : nat :=
  match keys with
  | [] => 0
  | k :: rest =>
      (if decide (Some k = last) then 0 else 1) + count_runs (Some k) rest
  end.

Definition sumZ (l : list Z) : Z := foldr Z.add 0%Z l.

(** The global index at which shard [k] starts: the cumulative sum of the
    shards before it (0 for the first one). *)
Definition shard_start (lens : list Z) (k : nat) : Z := sumZ (take k lens).

(** [i] lies in the half-open cumulative range of shard [k]. *)
Definition in_shard_range (lens : list Z) (k : nat) (i : Z) : Prop :=
  ∃ n, lens !! k = Some n ∧ (shard_start lens k ≤ i < shard_start lens k + n)%Z.

Definition nondecreasing (a : list Z) : Prop :=
  ∀ j1 j2 x1 x2,
    j1 ≤ j2 → a !! j1 = Some x1 → a !! j2 = Some x2 → (x1 ≤ x2)%Z.

(** ** Concrete inputs *)

Definition example_shards : list ShardDesc :=
  [ MkShardDesc "shard0.tar" 5 None None;
    MkShardDesc "shard1.tar" 0 None None;
    MkShardDesc "shard2.tar" 3 None None ].

Definition example_dataset : ShardListDataset :=
  MkDataset example_shards [5; 0; 3]%Z [5; 5; 8]%Z 8 (Some "/tmp/_wids_cache"%string)
    (LRUShards_init 2 (default_localname "/tmp/_wids_cache")) None [] true.

(** No character of the name is a newline. *)
Fixpoint no_newline (s : string) : bool :=
  match s with
  | EmptyString => true
  | String c r => negb (Ascii.eqb c Re.newline) && no_newline r
  end.

(** The split the pattern of [splitname] makes on a name without newlines:
    at the first ['.'] after the last ['/'] that still has a ['.'] after it
    ([usable_split]), and at the first ['.'] of the name when no ['/'] has
    one after it. *)
Fixpoint usable_split (s : string) : option (string * string) :=
  match s with
  | EmptyString => None
  | String c r =>
      match usable_split r with
      | Some (k, e) => Some (String c k, e)
      | None =>
          if Ascii.eqb c "/"
          then '(k, e) ← split_first_dot r; Some (String c k, e)
          else None
      end
  end.

Definition code_split (s : string) : option (string * string) :=
  Re.orelse (usable_split s) (split_first_dot s).

(** The kept members (those with a ['.'] that [splitname] splits), each with
    its position and its key. *)
Fixpoint kept (i : nat) (names : list string) : list (nat * string) :=
  match names with
  | [] => []
  | fname :: rest =>
      match (if has_dot fname then splitname fname else Raise AssertionError) with
      | Ok (key, _) => (i, key) :: kept (S i) rest
      | Raise _ => kept (S i) rest
      end
  end.

(** The maximal runs of consecutive equal keys: each run with its key and
    the positions of its members. *)
Fixpoint runs (l : list (nat * string)) : list (string * list nat) :=
  match l with
  | [] => []
  | (i, k) :: rest =>
      match runs rest with
      | (k', g) :: gs =>
          if decide (k = k') then (k, i :: g) :: gs
          else (k, [i]) :: (k', g) :: gs
      | [] => [(k, [i])]
      end
  end.

(** Trying a test on every suffix of a string, from the whole string down
    ([first_suffix]) or from the empty suffix up ([last_suffix]). *)
Fixpoint first_suffix {A : Type} (f : string → option A) (s : string)
  : option A :=
  Re.orelse (f s)
    match s with
    | String _ r => first_suffix f r
    | EmptyString => None
    end.

Fixpoint last_suffix {A : Type} (f : string → option A) (s : string)
  : option A :=
  match s with
  | String _ r => Re.orelse (last_suffix f r) (f s)
  | EmptyString => f s
  end.

(** The captures of [splitname]'s pattern on the name [whole] when the
    second group is the suffix [t]: [t] has to start with a ['.']. *)
Definition dot_suffix (whole t : string) : option Re.captures :=
  match t with
  | String c _ =>
      if Ascii.eqb c "."
      then Some (<[2 := t]> (<[1 := Re.consumed whole t]> ∅))
      else None
  | EmptyString => None
  end.

(** The same for a suffix [t] that starts with a ['/']: the first suffix
    with a ['.'] at its head among those after the ['/']. *)
Definition after_slash (whole t : string) : option Re.captures :=
  match t with
  | String c r =>
      if Ascii.eqb c "/" then first_suffix (dot_suffix whole) r else None
  | EmptyString => None
  end.

Definition caps_of (p : string) (ke : string * string) : Re.captures :=
  <[2%nat := ke.2]> (<[1%nat := p +:+ ke.1]> ∅).

(** The state the loop is in, seen as keyed runs: the groups appended so
    far, then the pending group under the last key. *)
Definition pending (lk : option string) (cur : list nat)
  : list (string * list nat) :=
  match cur with
  | [] => []
  | _ :: _ => [(default EmptyString lk, cur)]
  end.

Definition join (lk : option string) (cur : list nat)
  (rs : list (string * list nat)) : list (string * list nat) :=
  match rs with
  | (k1, g1) :: rs' =>
      if decide (lk = Some k1) then (k1, cur ++ g1) :: rs'
      else pending lk cur ++ rs
  | [] => pending lk cur
  end.

Definition warnings_of (names : list string) : list event :=
  IgnoringFile <$> filter (λ n, has_dot n = false) names.

Definition splits (fname : string) : Prop :=
  has_dot fname = true → is_ok (splitname fname) = true.

(** Adjacent entries of a list of keys differ. *)
Fixpoint adjacent_distinct (ks : list string) : Prop :=
  match ks with
  | k1 :: (k2 :: _) as rest => k1 ≠ k2 ∧ adjacent_distinct rest
  | _ => True
  end.

Definition example_names : list string :=
  ["a.jpg"; "a.txt"; "b.jpg"; "c.jpg"; "c.txt"]%string.

Definition example_archive : archive :=
  Archive [("a.jpg", [Byte.x01]); ("a.txt", [Byte.x02]);
           ("b.jpg", [Byte.x03]); ("c.jpg", [Byte.x04]);
           ("c.txt", [Byte.x05])]%string EmptyString.

Definition example_its : IndexedTarSamples :=
  MkIndexedTarSamples example_archive [[0; 1]; [2]; [3; 4]].

(** ** Unquoting *)

Module Unquote.

(** The value of a hexadecimal digit. *)
Definition unhex (c : ascii) : N :=
  let n := N_of_ascii c in
  (if (48 <=? n) && (n <=? 57) then n - 48
   else if (65 <=? n) && (n <=? 70) then n - 55
   else if (97 <=? n) && (n <=? 102) then n - 87
   else 0)%N.

(** [urllib.parse.unquote] on bytes: each percent sign followed by two
    digits is replaced by the byte they write. *)
Fixpoint unquote (s : string) : string :=
  match s with
  | EmptyString => EmptyString
  | String c r =>
      match r with
      | String h1 (String h2 r') =>
          if Ascii.eqb c "%"
          then String (ascii_of_N (16 * unhex h1 + unhex h2)) (unquote r')
          else String c (unquote r)
      | _ => String c (unquote r)
      end
  end.

End Unquote.

(** What [quote] does with one byte, as a test: the byte is kept, and then
    it is neither ['%'] nor ['/'], or it is written as ['%'] and the two
    digits of its value, none of them a ['/']. *)
Definition quote_byte_ok (c : ascii) : bool :=
  match Urllib.quote_byte "+-" c with
  | String p EmptyString =>
      Ascii.eqb p c && negb (Ascii.eqb c "%") && negb (Ascii.eqb c "/")
  | String p (String h1 (String h2 EmptyString)) =>
      Ascii.eqb p "%"
      && Ascii.eqb (ascii_of_N (16 * Unquote.unhex h1 + Unquote.unhex h2)) c
      && negb (Ascii.eqb h1 "/") && negb (Ascii.eqb h2 "/")
  | _ => false
  end.

(** The directory part that [default_localname] puts before the escaped
    name. *)
Definition localname_base (dldir : string) : string :=
  if bool_decide (dldir = EmptyString) || ends_with_slash dldir then dldir
  else dldir +:+ "/".

(** A sequence of [get_shard] calls on the same cache: the final state. *)
Fixpoint LRUShards_get_all (download_and_open : string → string → result archive)
  (c : LRUShards) (urls : list string) : LRUShards :=
  match urls with
  | [] => c
  | u :: rest =>
      LRUShards_get_all download_and_open
        (LRUShards_get_shard download_and_open c u).2 rest
  end.

Definition is_miss_warning (e : event) : bool :=
  match e with MissRateWarning _ _ => true | IgnoringFile _ => false end.

(** The number of cache-health warnings in an output. *)
Definition count_miss_warnings (out : list event) : nat :=
  length (filter (λ e, is_miss_warning e = true) out).

(** The state after a sequence of accesses. *)
Fixpoint final_state (download_and_open : string → string → result archive)
  (ds : ShardListDataset) (indexes : list Z) : ShardListDataset :=
  match indexes with
  | [] => ds
  | i :: rest =>
      final_state download_and_open
        (ShardListDataset_getitem download_and_open ds i).2 rest
  end.

(** The number of cache-health warnings printed along a trace. *)
Definition total_miss_warnings
  (tr : list (printing sample * ShardListDataset)) : nat :=
  sum_list ((λ e, count_miss_warnings e.1.1) <$> tr).

(** The counters are past the thresholds after the access, which got as far
    as the check. *)
Definition past_thresholds
  (download_and_open : string → string → result archive)
  (ds : ShardListDataset) (index : Z) : bool :=
  reaches_check download_and_open ds index
  && miss_rate_high (stats_after download_and_open ds index).1
       (stats_after download_and_open ds index).2.

(** The position of the first access of a sequence that gets as far as the
    check with the counters past the thresholds. *)
Fixpoint first_past (download_and_open : string → string → result archive)
  (ds : ShardListDataset) (indexes : list Z) : option nat :=
  match indexes with
  | [] => None
  | i :: rest =>
      if past_thresholds download_and_open ds i then Some 0
      else S <$> first_past download_and_open
                   (ShardListDataset_getitem download_and_open ds i).2 rest
  end.

(** The number of cache-health warnings printed by each access of a trace. *)
Definition warning_counts
  (tr : list (printing sample * ShardListDataset)) : list nat :=
  (λ e, count_miss_warnings e.1.1) <$> tr.

(** One warning at position [k], none elsewhere, over [n] accesses. *)
Definition only_at (k : option nat) (n : nat) : list nat :=
  (λ j, if bool_decide (k = Some j) then 1 else 0) <$> seq 0 n.

(** Three one-sample shards behind a cache of capacity 1, read in
    round-robin order. *)
Definition rr_shards : list ShardDesc :=
  [ MkShardDesc "a.tar" 1 None None;
    MkShardDesc "b.tar" 1 None None;
    MkShardDesc "c.tar" 1 None None ].

Definition rr_fetch (url local : string) : result archive :=
  Ok (Archive [("x.jpg"%string, [])] EmptyString).

Definition rr_dataset : ShardListDataset :=
  MkDataset rr_shards [1; 1; 1]%Z [1; 2; 3]%Z 3 None
    (LRUShards_init 1 (default_localname "/tmp/_wids_cache")) None [] true.

Definition rr_indexes : list Z := concat (replicate 34 [0; 1; 2]%Z).

(** A dataset of one shard with the three samples of [example_archive]. *)
Definition one_shard : list ShardDesc :=
  [ MkShardDesc "shard0.tar" 3 None None ].

Definition one_fetch (url local : string) : result archive :=
  Ok example_archive.

Definition one_dataset : ShardListDataset :=
  MkDataset one_shard [3]%Z [3]%Z 3 (Some "/tmp/_wids_cache"%string)
    (LRUShards_init 2 (default_localname "/tmp/_wids_cache")) None [] true.

(** A small generator to run the sampler with: the state is an integer, the
    seed is the state, and a draw below [n] is the state modulo [n]. *)
Definition lcg_randbelow (g n : Z) : Z * Z :=
  (g `mod` n, (g * 1103515245 + 12345) `mod` 2147483648)%Z.

Definition lcg_seed (a : Z) : Z := a.

(** A member name without newlines whose last path component has a ['.']
    whenever the name has one. *)
Definition well_named (fname : string) : Prop :=
  no_newline fname = true
  ∧ (has_dot fname = true → is_Some (spec_split fname)).

(** The kept members with the keys of the specification: the names that
    have a ['.'] after their last path separator, each with its position and
    the part of the name before the first such ['.']. *)
Fixpoint spec_kept (i : nat) (names : list string) : list (nat * string) :=
  match names with
  | [] => []
  | fname :: rest =>
      match spec_split fname with
      | Some (key, _) => (i, key) :: spec_kept (S i) rest
      | None => spec_kept (S i) rest
      end
  end.

(** ** More on the grouping pass and on samples *)

(** The position of the first member name that has a ['.'] and that
    [splitname] does not split. *)
Fixpoint first_unsplittable (names : list string) : option nat :=
  match names with
  | [] => None
  | fname :: rest =>
      if has_dot fname && negb (is_ok (splitname fname)) then Some 0%nat
      else S <$> first_unsplittable rest
  end.

(** The extension and the bytes of the member at position [i]. *)
Definition member_entry (tar : archive) (i : nat) : option (string * data) :=
  match members tar !! i with
  | Some (fname, d) =>
      match splitname fname with
      | Ok (_, ext) => Some (ext, d)
      | Raise _ => None
      end
  | None => None
  end.

(** The bytes of the last member of the group [g] with the extension
    [ext]. *)
Fixpoint last_with (tar : archive) (g : list nat) (ext : string)
  : option data :=
  match g with
  | [] => None
  | i :: rest =>
      match last_with tar rest ext with
      | Some d => Some d
      | None =>
          match member_entry tar i with
          | Some (e, d) => if decide (e = ext) then Some d else None
          | None => None
          end
      end
  end.

(** The positions of the member names that have a ['.'], counted from
    [i]. *)
Fixpoint dotted_positions (i : nat) (names : list string) : list nat :=
  match names with
  | [] => []
  | fname :: rest =>
      if has_dot fname then i :: dotted_positions (S i) rest
      else dotted_positions (S i) rest
  end.

(** ** More on the cache and on the dataset *)

(** What [LRUShards.get_shard] does on a miss before it stores the shard:
    the archive is fetched to its local name and indexed. *)
Definition fetch_shard (download_and_open : string → string → result archive)
  (localname : string → string) (url : string) : printing IndexedTarSamples :=
  let local := localname url in
  pbind (plift (download_and_open url local))
    (λ stream, IndexedTarSamples_init stream (Some local) None None).

(** [LRUShards.__len__] *)
Definition LRUShards_len (c : LRUShards) : Z :=
  Z.of_nat (length (LRUCache.entries (lru c))).

(** [ShardListDataset.add_transform]: the transformation is appended to the
    list of the instance. *)
Definition add_transform (ds : ShardListDataset)
  (transform : sample → result sample) : ShardListDataset :=
  MkDataset (shards ds) (lengths ds) (cum_lengths ds) (total_length ds)
    (cache_dir ds) (cache ds) (cleanup ds) (transformations ds ++ [transform])
    (check_enabled ds).

(** [ShardListDataset.close]: the cache is cleared; the second component
    is the shards handed to the release handler, which closes them. *)
Definition ShardListDataset_close (ds : ShardListDataset)
  : ShardListDataset * list (string * IndexedTarSamples) :=
  (with_cache ds (LRUShards_clear (cache ds)) (cleanup ds),
   (LRUCache.clear (lru (cache ds))).2).

(** The sample that [__getitem__] computes for [index] when the shard is
    fetched anew: the index is resolved against the table, the shard is
    fetched and indexed, the sample is read at the local index, decorated,
    and sent through the transformations. *)
Definition read_sample (download_and_open : string → string → result archive)
  (ds : ShardListDataset) (index : Z) : result sample :=
  let '(shard_idx, inner_idx) := locate (cum_lengths ds) index in
  match shards ds !! shard_idx with
  | None => Raise IndexError
  | Some desc =>
      itf ← (fetch_shard download_and_open (localname (cache ds)) (url desc)).2;
      smp ← its_getitem itf inner_idx;
      apply_transformations (transformations ds)
        (decorate smp desc index inner_idx)
  end.

(** Every shard in the pool is the one a fetch of its URL builds. *)
Definition cache_valid (download_and_open : string → string → result archive)
  (c : LRUShards) : Prop :=
  ∀ u itf, (u, itf) ∈ LRUCache.entries (lru c) →
    ∃ out, fetch_shard download_and_open (localname c) u = (out, Ok itf).

(** A fetch that always fails. *)
Definition no_fetch (url local : string) : result archive := Raise FetchError.

(** The tables and settings of a dataset that an access does not touch. *)
Definition same_tables (ds ds' : ShardListDataset) : Prop :=
  shards ds' = shards ds
  ∧ lengths ds' = lengths ds
  ∧ cum_lengths ds' = cum_lengths ds
  ∧ total_length ds' = total_length ds
  ∧ cache_dir ds' = cache_dir ds
  ∧ transformations ds' = transformations ds
  ∧ localname (cache ds') = localname (cache ds)
  ∧ LRUCache.capacity (lru (cache ds')) = LRUCache.capacity (lru (cache ds)).

(** The one-shard dataset with a cleanup collaborator, as the constructor
    builds it when no cache directory and no local-name function are
    given. *)
Definition one_dataset_cleanup : ShardListDataset :=
  MkDataset one_shard [3]%Z [3]%Z 3 (Some "/tmp/_wids_cache"%string)
    (LRUShards_init 2 (default_localname "/tmp/_wids_cache")) (Some 0%nat) []
    true.

(** ** The generator of [ShardListSampler.__iter__], step by step *)

(** Where the generator is suspended: before its first statement, inside
    [yield from indexes] (with the indices of the current shard that are
    still to be yielded and the shards still to be visited), or after its
    end. *)
Inductive iter_state : Type :=
  | NotStarted
  | Yielding (pending : list Z) (shardperm : list Z)
  | Finished.

Section sampler_generator.

Variable rng : Type.
Variable Random : Z → rng.
Variable randbelow : rng → Z → Z * rng.

(** The loop over the shards, run up to its next [yield]: the index
    yielded with what is left of the shard and of the shard list, or
    [None] when the loop ends. A shard with an empty range yields
    nothing. *)
Fixpoint next_yield (rs : list (Z * Z)) (shardperm : list Z) (g : rng)
  : result (option (Z * list Z * list Z)) * rng :=
  match shardperm with
  | [] => (Ok None, g)
  | shard :: rest =>
      match py_index rs shard with
      | Raise e => (Raise e, g)
      | Ok (start, stop) =>
          match shuffle randbelow g (py_range start stop) with
          | (Raise e, g') => (Raise e, g')
          | (Ok [], g') => next_yield rs rest g'
          | (Ok (x :: pending), g') => (Ok (Some (x, pending, rest)), g')
          end
      end
  end.

(** The generator is resumed in the loop over the shards; the generator
    object shuffles with [self.rng], the attribute of the sampler. When
    the loop ends, the epoch counter is incremented and the generator
    stops. *)
Definition resume_loop (s : ShardListSampler rng) (shardperm : list Z)
  : result (option Z) * ShardListSampler rng * iter_state :=
  match sampler_rng s with
  | None => (Raise AttributeError, s, Finished)
  | Some g =>
      match next_yield (ranges s) shardperm g with
      | (Raise e, g') => (Raise e, with_rng s g' (epoch s), Finished)
      | (Ok None, g') => (Ok None, with_rng s g' (epoch s + 1), Finished)
      | (Ok (Some (x, pending, rest)), g') =>
          (Ok (Some x), with_rng s g' (epoch s), Yielding pending rest)
      end
  end.

(** [next(it)] on the generator of [__iter__]: the index yielded, or
    [None] for [StopIteration]. *)
Definition iter_next (s : ShardListSampler rng) (st : iter_state)
  : result (option Z) * ShardListSampler rng * iter_state :=
  match st with
  | NotStarted =>
      let g0 := Random (seed s + 1289738273 * epoch s) in
      let shardperm0 := py_range 0 (Z.of_nat (length (ranges s))) in
      let '(r, g1) :=
        if bool_decide (0 < epoch s)%Z || shufflefirst s
        then shuffle randbelow g0 shardperm0
        else (Ok shardperm0, g0) in
      match r with
      | Raise e => (Raise e, with_rng s g1 (epoch s), Finished)
      | Ok shardperm => resume_loop (with_rng s g1 (epoch s)) shardperm
      end
  | Yielding (x :: pending) shardperm =>
      (Ok (Some x), s, Yielding pending shardperm)
  | Yielding [] shardperm => resume_loop s shardperm
  | Finished => (Ok None, s, Finished)
  end.

(** At most [k] calls of [next], stopping at [StopIteration]: the indices
    obtained, as [itertools.islice(it, k)] collects them. *)
Fixpoint iter_take (k : nat) (s : ShardListSampler rng) (st : iter_state)
  : result (list Z) * ShardListSampler rng * iter_state :=
  match k with
  | O => (Ok [], s, st)
  | S k' =>
      match iter_next s st with
      | (Raise e, s', st') => (Raise e, s', st')
      | (Ok None, s', st') => (Ok [], s', st')
      | (Ok (Some x), s', st') =>
          let '(r, s'', st'') := iter_take k' s' st' in
          (match r with Ok l => Ok (x :: l) | Raise e => Raise e end,
           s'', st'')
      end
  end.

End sampler_generator.

Arguments next_yield {rng} randbelow rs shardperm g.
Arguments resume_loop {rng} randbelow s shardperm.
Arguments iter_next {rng} Random randbelow s st.
Arguments iter_take {rng} Random randbelow k s st.

(** Samplers that agree on everything but the generator an earlier
    traversal left in [self.rng]. *)
Definition same_settings {rng : Type} (s1 s2 : ShardListSampler rng) : Prop :=
  ranges s1 = ranges s2 ∧ seed s1 = seed s2 ∧ epoch s1 = epoch s2
  ∧ shufflefirst s1 = shufflefirst s2.

(** The indices collected by a call of [iter_take]. *)
Definition yielded (r : result (list Z)) : list Z :=
  match r with
  | Ok l => l
  | Raise _ => []
  end.

(** Successive traversals of one sampler object, each by a generator of
    its own that is asked for at most [k] indices and then left alone:
    what each of them yields. No generator is resumed after the next one
    has been started. *)
Fixpoint traversals {rng : Type} (Random : Z → rng)
  (randbelow : rng → Z → Z * rng) (ks : list nat) (s : ShardListSampler rng)
  : list (result (list Z)) :=
  match ks with
  | [] => []
  | k :: rest =>
      let '(r, s', _) := iter_take Random randbelow k s NotStarted in
      r :: traversals Random randbelow rest s'
  end.

(** Two traversals of one sampler object that overlap: a first generator
    yields [n1] indices; a second generator is then started on the same
    sampler and yields [n2] indices; the first and then the second are
    resumed until they end (for at most [fuel] indices each). Both
    generators work on [self.rng], the attribute of the sampler. *)
Record overlap : Type := MkOverlap {
  first_start_epoch : Z;        (* [self.epoch] when the first one starts *)
  second_start_epoch : Z;       (* [self.epoch] when the second one starts *)
  first_output : list Z;
  second_output : list Z;
  first_end : iter_state;
  second_end : iter_state;
}.

Definition overlapping {rng : Type} (Random : Z → rng)
  (randbelow : rng → Z → Z * rng) (n1 n2 fuel : nat)
  (s : ShardListSampler rng) : overlap :=
  let '(a1, s1, st_a) := iter_take Random randbelow n1 s NotStarted in
  let '(b1, s2, st_b) := iter_take Random randbelow n2 s1 NotStarted in
  let '(a2, s3, st_a') := iter_take Random randbelow fuel s2 st_a in
  let '(b2, s4, st_b') := iter_take Random randbelow fuel s3 st_b in
  MkOverlap (epoch s) (epoch s1) (yielded a1 ++ yielded a2)
    (yielded b1 ++ yielded b2) st_a' st_b'.

(** ** compute_file_md5sum *)

(** A binary file object: its content and the position of the next read. *)
Record stream : Type := Stream {
  content : data;
  pos : nat;
}.

(** [f.read(n)]: at most [n] bytes from the position on, all that is left
    when [n] is negative; the position moves past what was read. *)
Definition stream_read (f : stream) (n : Z) : data * stream :=
  let rest := drop (pos f) (content f) in
  let chunk := if decide (n < 0)%Z then rest else take (Z.to_nat n) rest in
  (chunk, Stream (content f) (pos f + length chunk)).

(** [f.seek(p)] *)
Definition stream_seek (f : stream) (p : nat) : stream :=
  Stream (content f) p.

Definition inspect {A : Type} (a : A) : {b : A | a = b} := exist _ a eq_refl.

Section md5sum.

(** [hashlib.md5]: the state of a hash object, a new object, [update]
    and [hexdigest]. *)
Variable md5_state : Type.
Variable md5_new : md5_state.
Variable md5_update : md5_state → data → md5_state.
Variable md5_hexdigest : md5_state → string.

(** [open(fname, "rb")]: the content of the file, or an error. *)
Variable open_rb : string → result data.

(** The loop over [iter(lambda: f.read(chunksize), sentinel)], whose
    sentinel is the empty bytes object: the chunks read are given to
    [md5.update] one after the other, up to the first empty read. *)
Equations? md5_loop (chunksize : Z) (h : md5_state) (f : stream)
  : md5_state * stream by wf (length (content f) - pos f)%nat lt :=
  md5_loop chunksize h f with inspect (stream_read f chunksize) => {
    | exist _ ([], f') _ := (h, f')
    | exist _ (b :: chunk, f') Heq :=
        md5_loop chunksize (md5_update h (b :: chunk)) f' }.
Proof.
  match goal with
  | H : _ = b :: chunk |- _ =>
      rewrite H; apply (f_equal length) in H; revert H
  end.
  pose proof (length_drop (content f) (pos f)) as Hd.
  destruct (decide (chunksize < 0)%Z); [|rewrite length_take];
    cbn [length]; lia.
Qed.

(** [compute_file_md5sum(fname, chunksize)] on a file name or on a file
    object: the digest and, for a file object, the object afterwards (a
    file opened by name is closed). *)
Definition compute_file_md5sum (fname : string + stream) (chunksize : Z)
  : result (string * option stream) :=
  match fname with
  | inl name =>
      c ← open_rb name;
      let '(h, _) := md5_loop chunksize md5_new (Stream c 0) in
      Ok (md5_hexdigest h, None)
  | inr f =>
      let '(h, f') := md5_loop chunksize md5_new (stream_seek f 0) in
      Ok (md5_hexdigest h, Some f')
  end.

End md5sum.

(** A hash object to run the function with: the state is the input so
    far, and the digest writes its length. *)
Definition toy_update (h : data) (d : data) : data := h ++ d.

Definition toy_hexdigest (h : data) : string :=
  String (ascii_of_nat (48 + length h)) EmptyString.

(** ** default_decoder *)

(** [key.split(".")] *)
Fixpoint split_dots (s : string) : list string :=
  match s with
  | EmptyString => [EmptyString]
  | String c r =>
      if Ascii.eqb c "." then EmptyString :: split_dots r
      else match split_dots r with
           | x :: l => String c x :: l
           | [] => [String c EmptyString]
           end
  end.

Module Decoder.

(** The exceptions of [default_decoder]; [LibraryError] stands for what
    a decoding library raises on an input it refuses, or the
    [ImportError] of a library that is not installed. *)
Inductive exn : Type :=
  | UnboundLocalError
  | ValueError
  | AttributeError
  | LibraryError.

Inductive outcome (A : Type) : Type :=
  | Done (a : A)
  | Fail (e : exn).
Arguments Done {A} a.
Arguments Fail {A} e.

#[global] Instance outcome_ret : MRet outcome := λ A a, Done a.
#[global] Instance outcome_bind : MBind outcome := λ A B k r,
  match r with
  | Done a => k a
  | Fail e => Fail e
  end.

(** A library call that returns or raises. *)
Definition lib {A : Type} (r : option A) : outcome A :=
  match r with
  | Some a => Done a
  | None => Fail LibraryError
  end.

Definition image_extensions : list string :=
  ["jpg"; "png"; "ppm"; "pgm"; "pbm"; "pnm"]%string.

Section decoder.

(** The objects that the decoding libraries return. *)
Variable obj : Type.

(** The values of a sample: the file objects of the members, the
    strings, integers and [None] of the metadata, and decoded
    objects. *)
Inductive dvalue : Type :=
  | DStream (f : stream)
  | DStr (s : string)
  | DInt (z : Z)
  | DNone
  | DObject (o : obj).

(** The libraries: each call returns a value or raises. *)
Variable gzip_decompress : data → option data.
Variable utf8_decode : data → option string.
Variable parse_int : string → option Z.
Variable pil_open : dvalue → option obj.
Variable json_loads : data → option obj.
Variable np_load : dvalue → option obj.
Variable import_msgpack : bool.
Variable msgpack_unpackb : data → option obj.
Variable torch_load : dvalue → option obj.
Variable pickle_load : dvalue → option obj.

(** [stream.read()]: what is left of a file object, which is left at
    its end; the other values have no [read]. *)
Definition read_all (v : dvalue) : outcome (data * dvalue) :=
  match v with
  | DStream f => let '(d, f') := stream_read f (-1) in Done (d, DStream f')
  | _ => Fail AttributeError
  end.

Definition is_in (s : string) (l : list string) : bool :=
  bool_decide (s ∈ l).

(** The head of the loop body: the extension looked at, the object that
    the local variable [stream] is bound to, and the object that the
    sample holds under the key; for a key that is just [gz], the
    decompressed stream is stored and the iteration ends ([inl]). *)
Definition unzip_entry (key : string) (v : dvalue)
  : outcome (dvalue + dvalue * dvalue * string) :=
  let extensions := split_dots key in
  let extension := List.last extensions EmptyString in
  if is_in extension ["gz"%string] then
    '(d, held) ← read_all v;
    decompressed ← lib (gzip_decompress d);
    let stream := DStream (Stream decompressed 0) in
    if (length extensions <? 2)%nat then Done (inl stream)
    else Done (inr (held, stream,
                    nth (length extensions - 2) extensions EmptyString))
  else Done (inr (v, v, extension)).

(** One iteration of the loop of [default_decoder]: the value that the
    sample holds under [key] afterwards. When the format is ["numpy"],
    the image branch uses [PIL], which is a local name of the function
    (it is imported in the ["PIL"] branch) and has no value. *)
Definition decode_entry (format : option string) (key : string)
  (v : dvalue) : outcome dvalue :=
  pre ← unzip_entry key v;
  match pre with
  | inl stored => Done stored
  | inr (held, stream, extension) =>
      if String.prefix "__" key then Done held
      else if is_in extension ["txt"; "text"]%string then
        '(value, _) ← read_all stream;
        s ← lib (utf8_decode value);
        Done (DStr s)
      else if is_in extension ["cls"; "cls2"]%string then
        '(value, _) ← read_all stream;
        s ← lib (utf8_decode value);
        z ← lib (parse_int s);
        Done (DInt z)
      else if is_in extension image_extensions then
        if bool_decide (format = Some "PIL"%string) then
          o ← lib (pil_open stream); Done (DObject o)
        else if bool_decide (format = Some "numpy"%string) then
          Fail UnboundLocalError
        else Fail ValueError
      else if bool_decide (extension = "json"%string) then
        '(value, _) ← read_all stream;
        o ← lib (json_loads value);
        Done (DObject o)
      else if bool_decide (extension = "npy"%string) then
        o ← lib (np_load stream); Done (DObject o)
      else if bool_decide (extension = "mp"%string) then
        if import_msgpack then
          '(value, _) ← read_all stream;
          o ← lib (msgpack_unpackb value);
          Done (DObject o)
        else Fail LibraryError
      else if is_in extension ["pt"; "pth"]%string then
        o ← lib (torch_load stream); Done (DObject o)
      else if is_in extension ["pickle"; "pkl"]%string then
        o ← lib (pickle_load stream); Done (DObject o)
      else Done held
  end.

(** The loop over the items of the copy of the sample, in the order of
    the dictionary; an assignment to a key that is present keeps the
    order. *)
Fixpoint decode_entries (format : option string)
  (items : list (string * dvalue)) : outcome (list (string * dvalue)) :=
  match items with
  | [] => Done []
  | (key, v) :: rest =>
      v' ← decode_entry format key v;
      rest' ← decode_entries format rest;
      Done ((key, v') :: rest')
  end.

(** [default_decoder(sample, format)]; the format is a string, or
    [None] for the default [True]. *)
Definition default_decoder (sample : list (string * dvalue))
  (format : option string) : outcome (list (string * dvalue)) :=
  decode_entries format sample.

(** The key of an entry that the image branch handles: it does not
    start with two underscores, and its last extension, or the one
    before a final [gz], is an image extension. *)
Definition is_image_key (key : string) : bool :=
  let extensions := split_dots key in
  let extension := List.last extensions EmptyString in
  negb (String.prefix "__" key)
  && (if is_in extension ["gz"%string]
      then negb (length extensions <? 2)%nat
           && is_in (nth (length extensions - 2) extensions EmptyString)
                image_extensions
      else is_in extension image_extensions).

(** The last extension of the key is not [gz]. *)
Definition not_zipped (key : string) : bool :=
  negb (is_in (List.last (split_dots key) EmptyString) ["gz"%string]).

End decoder.

End Decoder.

(** ** Hashed names *)

Module Base64.

(** The alphabet of [base64.urlsafe_b64encode]. *)
Definition alphabet : string :=
  "ABCDEFGHIJKLMNOPQRSTUVWXYZabcdefghijklmnopqrstuvwxyz0123456789-_".

Definition digit (n : N) : ascii :=
  default "="%char (String.get (N.to_nat n) alphabet).

(** [base64.urlsafe_b64encode]: three bytes give four digits of six bits;
    one or two bytes left over give two or three digits and padding. *)
Fixpoint encode (bs : list N) : string :=
  match bs with
  | [] => EmptyString
  | [a] =>
      String (digit (a / 4)) (String (digit ((a mod 4) * 16)) "==")
  | [a; b] =>
      String (digit (a / 4))
        (String (digit ((a mod 4) * 16 + b / 16))
           (String (digit ((b mod 16) * 4)) "="))
  | a :: b :: c :: rest =>
      String (digit (a / 4))
        (String (digit ((a mod 4) * 16 + b / 16))
           (String (digit ((b mod 16) * 4 + c / 64))
              (String (digit (c mod 64)) (encode rest))))
  end%N.

End Base64.

(** [s[:n]] on a string. *)
Fixpoint str_take (n : nat) (s : string) : string :=
  match n, s with
  | S n', String c r => String c (str_take n' r)
  | _, _ => EmptyString
  end.

(** A character that [urlsafe_b64encode] writes for six bits: a letter, a
    digit, ['-'] or ['_']. *)
Definition urlsafe_char (c : ascii) : bool :=
  let n := N_of_ascii c in
  ((65 <=? n) && (n <=? 90) || (97 <=? n) && (n <=? 122)
   || (48 <=? n) && (n <=? 57) || (n =? 45) || (n =? 95))%N.

Fixpoint str_forall (P : ascii → bool) (s : string) : bool :=
  match s with
  | EmptyString => true
  | String c r => P c && str_forall P r
  end.

Section hashed_names.

(** [hashlib.sha256(s.encode()).digest()], as byte values. *)
Variable sha256 : string → list N.

(** [urldir] and the path of [urlparse], which are not modelled. *)
Variable urldir : string → string.
Variable urlparse_path : string → string.

(** [hash_dataset_name] *)
Definition hash_dataset_name (input_string : string) : string :=
  str_take 16 (Base64.encode (sha256 input_string)).

(** The table [cache] of the database of [hash_localname]: for each URL
    (the primary key) the path and the checksum. *)
Definition cache_db : Type := gmap string (string * option string).

(** The function returned by [hash_localname(dldir)]: the local name,
    and the table after the call. *)
Definition hash_localname (dldir : string) (shard : string) (db : cache_db)
  : string * cache_db :=
  if String.prefix "pipe:" shard then
    let hex32 := str_take 32 (Base64.encode (sha256 shard)) in
    (path_join dldir ("pipe__" +:+ hex32), db)
  else
    let dirname := urldir shard in
    let hex16 := str_take 16 (Base64.encode (sha256 dirname)) in
    let cachename :=
      "data__" +:+ hex16 +:+ "__" +:+ basename (urlparse_path shard) in
    (path_join dldir cachename, <[shard := (cachename, None)]> db).

End hashed_names.

(** A digest function to run the names with: 32 bytes made from the length
    of the input. *)
Definition toy_sha256 (s : string) : list N :=
  replicate 32 (N.of_nat (String.length s) mod 256)%N.

(** ** The characters of an escaped name *)

(** The characters that [quote(shard, safe="+-")] keeps. *)
Definition plain_char (c : ascii) : bool :=
  Urllib.always_safe c || Urllib.mem c "+-".

(** The characters that [quote(shard, safe="+-")] writes: those it keeps,
    and the percent sign with upper-case hexadecimal digits. *)
Definition escaped_char (c : ascii) : bool :=
  plain_char c || Ascii.eqb c "%".

(** What [quote] writes for one byte, as a test: one kept character, or
    three characters, and only characters of an escaped name. *)
Definition quote_byte_chars (c : ascii) : bool :=
  str_forall escaped_char (Urllib.quote_byte "+-" c)
  && (if plain_char c
      then bool_decide (Urllib.quote_byte "+-" c = String c EmptyString)
      else bool_decide (String.length (Urllib.quote_byte "+-" c) = 3%nat)).

(** [len(s.encode())]: the number of bytes of the UTF-8 encoding of a
    [str], which is what a [string] of the model holds. It is [len(s)] for
    an ASCII [str] only: a character outside ASCII takes two to four
    bytes. *)
Definition utf8_length (s : string) : nat := String.length s.

(** ** More example data *)

(** The shards of [rr_shards] behind a cache of capacity 1, the last one
    declared with two samples although its archive holds one: the access
    at index 3 finds the shard and fails on the sample. *)
Definition short_shards : list ShardDesc :=
  [ MkShardDesc "a.tar" 1 None None;
    MkShardDesc "b.tar" 1 None None;
    MkShardDesc "c.tar" 2 None None ].

Definition short_dataset : ShardListDataset :=
  MkDataset short_shards [1; 1; 2]%Z [1; 2; 4]%Z 4 None
    (LRUShards_init 1 (default_localname "/tmp/_wids_cache")) None [] true.

(** A hundred accesses in round-robin order, one that fails on the sample,
    and one more. *)
Definition short_indexes : list Z :=
  concat (replicate 33 [0; 1; 2]%Z) ++ [0; 3; 0]%Z.

(** A sampler over shards of 5, 0 and 3 samples in its fourth epoch. *)
Definition example_sampler : ShardListSampler Z :=
  MkSampler (make_ranges 0 [5; 0; 3]%Z) 7 true 3 None.

(** * The library models on concrete inputs

    The values below are those the Python standard library and numpy give
    for the same inputs. *)

Example splitname_on_examples :
  splitname "a.jpg" = Ok ("a", ".jpg")%string
  ∧ splitname "d/a.tar.gz" = Ok ("d/a", ".tar.gz")%string
  ∧ splitname "a/b.c/d.e.f" = Ok ("a/b.c/d", ".e.f")%string
  ∧ splitname ".jpg" = Ok (EmptyString, ".jpg"%string)
  ∧ splitname "a/b/.x" = Ok ("a/b/", ".x")%string
  ∧ splitname "a..b" = Ok ("a", "..b")%string
  ∧ splitname "a.b/c" = Ok ("a", ".b/c")%string
  ∧ splitname "x.y/z.w/c" = Ok ("x.y/z", ".w/c")%string
  ∧ splitname "a/.b/c" = Ok ("a/", ".b/c")%string
  ∧ splitname "abc" = Raise AssertionError
  ∧ splitname (String "a" (String Re.newline ".b")) = Raise AttributeError
  ∧ splitname ("a.b" +:+ String Re.newline EmptyString)
    = Ok ("a", ".b")%string.
Proof. vm_compute. repeat split; reflexivity. Qed.

Example quote_on_example :
  Urllib.quote "+-" "a/b c%~+-_." = "a%2Fb%20c%25~+-_."%string
  ∧ Urllib.quote "+-" (String "195" (String "169" EmptyString))
    = "%C3%A9"%string.
Proof. vm_compute. split; reflexivity. Qed.

Example path_join_on_examples :
  path_join "/tmp/x" "a" = "/tmp/x/a"%string
  ∧ path_join "/tmp/" "a" = "/tmp/a"%string
  ∧ path_join EmptyString "a" = "a"%string
  ∧ path_join "/tmp/x" "/a" = "/a"%string
  ∧ path_join "/tmp/x" EmptyString = "/tmp/x/"%string.
Proof. vm_compute. repeat split; reflexivity. Qed.

Example searchsorted_right_on_examples :
  Np.searchsorted_right [5; 5; 8]%Z 4 = 0%nat
  ∧ Np.searchsorted_right [5; 5; 8]%Z 5 = 2%nat
  ∧ Np.searchsorted_right [5; 5; 8]%Z 7 = 2%nat
  ∧ Np.searchsorted_right [5; 5; 8]%Z 8 = 3%nat
  ∧ Np.searchsorted_right [5; 5; 8]%Z (-1) = 0%nat.
Proof. vm_compute. repeat split; reflexivity. Qed.

Example ratio_gt_03_on_examples :
  ratio_gt_03 30 100 = false
  ∧ ratio_gt_03 33 110 = false
  ∧ ratio_gt_03 31 100 = true
  ∧ ratio_gt_03 34 110 = true.
Proof. vm_compute. repeat split; reflexivity. Qed.

(** * The shape of a constructed dataset *)

Lemma ShardListDataset_init_inv urlparse_path descs cache_size cdir
    cache_cleanup lname ts wids_cache ds :
  ShardListDataset_init urlparse_path descs cache_size cdir cache_cleanup
    lname ts wids_cache = Ok ds →
  ∃ cum total cd ln,
    Np.cumsum (nsamples <$> descs) = Ok cum
    ∧ py_index cum (-1) = Ok total
    ∧ ds = MkDataset descs (nsamples <$> descs) cum total cd
             (LRUShards_init cache_size ln)
             (match cache_cleanup, cd with
              | Some _, Some _ => Some 0%nat
              | _, _ => None
              end)
             ts true.
Proof.
  unfold ShardListDataset_init. intros Hinit.
  destruct (Np.cumsum _) as [cum|]; [|done]. cbn [mbind result_bind] in Hinit.
  destruct (py_index cum (-1)) as [total|] eqn:Hpy; [|done].
  cbn [mbind result_bind] in Hinit.
  exists cum, total.
  destruct cdir as [d|]; [|destruct lname as [f|]].
  - destruct d; [done|]. cbn [makedirs mbind result_bind] in Hinit.
    injection Hinit as <-.
    eexists (Some _), _; split; [done|split; [done|reflexivity]].
  - cbn [mbind result_bind] in Hinit. injection Hinit as <-.
    eexists None, _; split; [done|split; [done|reflexivity]].
  - cbn zeta in Hinit. destruct (default _ wids_cache); [done|].
    cbn [makedirs mbind result_bind] in Hinit.
    injection Hinit as <-.
    eexists (Some _), _; split; [done|split; [done|reflexivity]].
Qed.

(** * Index resolution *)

Section index_resolution.

Local Open Scope Z_scope.

Lemma wrap64_id z : - 2 ^ 63 ≤ z < 2 ^ 63 → Np.wrap64 z = z.
Proof.
  intros Hz. unfold Np.wrap64.
  rewrite Z.mod_small by lia. lia.
Qed.

Lemma sumZ_nonneg l : Forall (λ x, 0 ≤ x) l → 0 ≤ sumZ l.
Proof. induction 1; simpl; lia. Qed.

Lemma sumZ_app l1 l2 : sumZ (l1 ++ l2) = sumZ l1 + sumZ l2.
Proof. induction l1; simpl; lia. Qed.

Lemma cumsum_from_exact acc l :
  Forall (λ x, 0 ≤ x) l → 0 ≤ acc → acc + sumZ l < 2 ^ 63 →
  Np.cumsum_from acc l = prefix_sums acc l.
Proof.
  intros Hl. revert acc.
  induction Hl as [|x l Hx Hl IH]; intros acc Hacc Hsum; simpl in *; [done|].
  pose proof (sumZ_nonneg l Hl).
  rewrite wrap64_id by lia. f_equal. apply IH; lia.
Qed.

Lemma asarray_ok l :
  Forall (λ x, 0 ≤ x) l → sumZ l < 2 ^ 63 → Np.asarray l = Ok l.
Proof.
  intros Hl Hsum. unfold Np.asarray.
  assert (forallb Np.in_int64 l = true) as ->; [|done].
  induction Hl as [|x l Hx Hl IH]; simpl in *; [done|].
  pose proof (sumZ_nonneg l Hl).
  rewrite IH by lia. rewrite andb_true_r.
  unfold Np.in_int64. rewrite !bool_decide_eq_true_2 by lia. done.
Qed.

Lemma prefix_sums_length acc l : length (prefix_sums acc l) = length l.
Proof. revert acc; induction l; intros; simpl; auto. Qed.

Lemma prefix_sums_lookup acc l k :
  (k < length l)%nat →
  prefix_sums acc l !! k = Some (acc + sumZ (take (S k) l)).
Proof.
  revert acc k. induction l as [|x l IH]; intros acc k Hk; simpl in Hk; [lia|].
  destruct k as [|k].
  - simpl. destruct l; simpl; f_equal; lia.
  - change (prefix_sums (acc + x) l !! k = Some (acc + (x + sumZ (take (S k) l)))).
    rewrite IH by lia. f_equal. lia.
Qed.

Lemma shard_start_S lens k n :
  lens !! k = Some n → shard_start lens (S k) = shard_start lens k + n.
Proof.
  intros Hk. unfold shard_start.
  rewrite (take_S_r _ _ _ Hk), sumZ_app. simpl. lia.
Qed.

Lemma shard_start_mono lens k1 k2 :
  Forall (λ x, 0 ≤ x) lens → (k1 ≤ k2)%nat →
  shard_start lens k1 ≤ shard_start lens k2.
Proof.
  intros Hl Hk. induction Hk as [|k2 Hk IH]; [lia|].
  destruct (lens !! k2) as [n|] eqn:Hn.
  - rewrite (shard_start_S _ _ _ Hn).
    pose proof (proj1 (Forall_lookup _ _) Hl _ _ Hn). simpl in *. lia.
  - unfold shard_start in *. apply lookup_ge_None in Hn.
    rewrite (take_ge lens (S k2)) by lia.
    rewrite (take_ge lens k2) in IH by lia. lia.
Qed.


Lemma midpoint_bounds lo hi :
  (lo < hi)%nat → (lo ≤ lo + (hi - lo) / 2 < hi)%nat.
Proof.
  intros. pose proof (Nat.Div0.div_lt_upper_bound (hi - lo) 2 (hi - lo)). lia.
Qed.

(** On a non-decreasing table the bisection stops at a position [r] with
    every entry of [lo, r) at most [v] and every entry of [r, hi) above. *)
Lemma bisect_right_spec a v lo hi :
  nondecreasing a → (lo ≤ hi ≤ length a)%nat →
  let r := Np.bisect_right a v lo hi in
  (lo ≤ r ≤ hi)%nat
  ∧ (∀ j x, (lo ≤ j < r)%nat → a !! j = Some x → x ≤ v)
  ∧ (∀ j x, (r ≤ j < hi)%nat → a !! j = Some x → v < x).
Proof.
  intros Hs. funelim (Np.bisect_right a v lo hi); intros Hb; cbn zeta;
    try match goal with
      | Hlt : (lo < hi)%nat |- _ => pose proof (midpoint_bounds lo hi Hlt) as Hm
      end.
  - split; [lia|split; intros; lia].
  - (* the table is never read outside [0, len) *)
    match goal with Hn : _ !! _ = None |- _ => apply lookup_ge_None in Hn end.
    lia.
  - (* v < a[mid] *)
    match goal with IH : nondecreasing _ → _ |- _ =>
      destruct IH as (Hr & Hlow & Hhigh); [done|lia|] end.
    match goal with Hx : _ !! _ = Some x |- _ => rename Hx into Hmid end.
    split; [lia|split; [done|]].
    intros j y Hj Hy.
    destruct (decide (j < lo + (hi - lo) / 2)%nat) as [Hlt|Hge];
      [apply (Hhigh j y); [lia|done]|].
    assert (lo + (hi - lo) / 2 ≤ j)%nat as Hle by lia.
    pose proof (Hs _ _ _ _ Hle Hmid Hy). lia.
  - (* a[mid] <= v *)
    match goal with IH : nondecreasing _ → _ |- _ =>
      destruct IH as (Hr & Hlow & Hhigh); [done|lia|] end.
    match goal with Hx : _ !! _ = Some x |- _ => rename Hx into Hmid end.
    split; [lia|split; [|done]].
    intros j y Hj Hy.
    destruct (decide (lo + (hi - lo) / 2 < j)%nat) as [Hlt|Hge];
      [apply (Hlow j y); [lia|done]|].
    assert (j ≤ lo + (hi - lo) / 2)%nat as Hle by lia.
    pose proof (Hs _ _ _ _ Hle Hy Hmid). lia.
Qed.

Lemma first_exceeding_spec cum i :
  let r := first_exceeding cum i in
  (r ≤ length cum)%nat
  ∧ (∀ j x, (j < r)%nat → cum !! j = Some x → x ≤ i)
  ∧ (∀ x, cum !! r = Some x → i < x).
Proof.
  induction cum as [|c cum IH]; simpl.
  - split; [lia|split; [intros; lia|done]].
  - destruct IH as (Hr & Hlow & Hhigh). case_decide.
    + split; [lia|split; [intros; lia|]]. intros x [= <-]. done.
    + split; [lia|split; [|done]].
      intros [|j] x Hj; simpl; [intros [= <-]; lia|]. apply Hlow. lia.
Qed.

(** Refinement: the bisection of the code computes the upper-bound search
    of the specification. *)
Lemma searchsorted_right_first_exceeding cum i :
  nondecreasing cum → Np.searchsorted_right cum i = first_exceeding cum i.
Proof.
  intros Hs. unfold Np.searchsorted_right.
  destruct (bisect_right_spec cum i 0 (length cum) Hs ltac:(lia)) as (Hr & Hlow & Hhigh).
  destruct (first_exceeding_spec cum i) as (Hr' & Hlow' & Hhigh').
  set (r := Np.bisect_right cum i 0 (length cum)) in *.
  set (r' := first_exceeding cum i) in *.
  destruct (Nat.lt_trichotomy r r') as [Hlt|[?|Hgt]]; [|done|].
  - destruct (lookup_lt_is_Some_2 cum r ltac:(lia)) as [x Hx].
    pose proof (Hhigh r x ltac:(lia) Hx). pose proof (Hlow' r x Hlt Hx). lia.
  - destruct (lookup_lt_is_Some_2 cum r' ltac:(lia)) as [x Hx].
    pose proof (Hhigh' x Hx). pose proof (Hlow r' x ltac:(lia) Hx). lia.
Qed.

Lemma prefix_sums_nondecreasing acc l :
  Forall (λ x, 0 ≤ x) l → nondecreasing (prefix_sums acc l).
Proof.
  intros Hl j1 j2 x1 x2 Hj H1 H2.
  pose proof (lookup_lt_Some _ _ _ H1) as L1.
  pose proof (lookup_lt_Some _ _ _ H2) as L2.
  rewrite prefix_sums_length in L1, L2.
  rewrite prefix_sums_lookup in H1, H2 by done.
  injection H1 as <-. injection H2 as <-.
  pose proof (shard_start_mono l (S j1) (S j2) Hl ltac:(lia)).
  unfold shard_start in *. lia.
Qed.

Lemma py_index_last {A} (l : list A) x :
  last l = Some x → py_index l (-1) = Ok x.
Proof.
  intros Hl. unfold py_index.
  assert (length l ≠ 0%nat) by (destruct l; simpl in *; done).
  rewrite last_lookup in Hl.
  cbn zeta. destruct (decide (-1 < 0)); [|lia].
  destruct (decide (0 ≤ -1 + Z.of_nat (length l))); [|lia].
  replace (Z.to_nat (-1 + Z.of_nat (length l))) with (pred (length l)) by lia.
  by rewrite Hl.
Qed.

Lemma py_index_empty {A} (i : Z) : py_index (@nil A) i = Raise IndexError.
Proof. unfold py_index. simpl. repeat case_decide; done. Qed.

(** What the constructor stores, when the prefix sums fit in int64. *)
Lemma init_tables urlparse_path descs cache_size cdir cache_cleanup
    lname ts wids_cache ds :
  ShardListDataset_init urlparse_path descs cache_size cdir
    cache_cleanup lname ts wids_cache = Ok ds →
  Forall (λ d, 0 ≤ nsamples d) descs →
  sumZ (nsamples <$> descs) < 2 ^ 63 →
  shards ds = descs
  ∧ lengths ds = nsamples <$> descs
  ∧ cum_lengths ds = prefix_sums 0 (nsamples <$> descs)
  ∧ total_length ds = sumZ (nsamples <$> descs)
  ∧ descs ≠ [].
Proof.
  intros Hinit Hnn Hsum.
  apply ShardListDataset_init_inv in Hinit
    as (cum & total & cd & ln & Hcum & Hpy & ->).
  cbn [shards lengths cum_lengths total_length].
  set (lens := nsamples <$> descs) in *.
  assert (Forall (λ x, 0 ≤ x) lens) as Hl by (by apply Forall_fmap).
  unfold Np.cumsum in Hcum. rewrite asarray_ok in Hcum by done.
  cbn [mbind result_bind] in Hcum.
  rewrite cumsum_from_exact in Hcum by (done || lia).
  injection Hcum as <-.
  assert (descs ≠ []) as Hne.
  { intros ->. subst lens. cbn in Hpy. done. }
  assert (last (prefix_sums 0 lens) = Some (sumZ lens)) as Hlast.
  { rewrite last_lookup, prefix_sums_length.
    assert (length lens ≠ 0%nat)
      by (subst lens; rewrite length_fmap; destruct descs; simpl; [done|lia]).
    rewrite prefix_sums_lookup by lia.
    f_equal. rewrite take_ge by lia. lia. }
  rewrite (py_index_last _ _ Hlast) in Hpy. injection Hpy as <-.
  done.
Qed.

Lemma shard_start_0 lens : shard_start lens 0 = 0.
Proof. unfold shard_start. by rewrite take_0. Qed.

Lemma in_shard_range_unique lens k1 k2 i :
  Forall (λ x, 0 ≤ x) lens →
  in_shard_range lens k1 i → in_shard_range lens k2 i → k1 = k2.
Proof.
  intros Hl (n1 & Hn1 & Hr1) (n2 & Hn2 & Hr2).
  rewrite <- (shard_start_S _ _ _ Hn1) in Hr1.
  rewrite <- (shard_start_S _ _ _ Hn2) in Hr2.
  destruct (Nat.lt_trichotomy k1 k2) as [Hlt|[?|Hgt]]; [|done|].
  - pose proof (shard_start_mono lens (S k1) k2 Hl ltac:(lia)). lia.
  - pose proof (shard_start_mono lens (S k2) k1 Hl ltac:(lia)). lia.
Qed.

(** The upper-bound position of a valid index is a shard whose range
    contains it. *)
Lemma first_exceeding_in_range lens i :
  Forall (λ x, 0 ≤ x) lens → 0 ≤ i < sumZ lens →
  in_shard_range lens (first_exceeding (prefix_sums 0 lens) i) i.
Proof.
  intros Hl Hi.
  destruct (first_exceeding_spec (prefix_sums 0 lens) i) as (Hr & Hlow & Hhigh).
  set (k := first_exceeding (prefix_sums 0 lens) i) in *.
  rewrite prefix_sums_length in Hr.
  assert (k < length lens)%nat as Hk.
  { destruct (decide (k < length lens)%nat) as [|Hge]; [done|].
    assert (length lens ≠ 0%nat) by (intros E; destruct lens; simpl in *; [lia|done]).
    pose proof (Hlow (pred (length lens)) _ ltac:(lia)
      (prefix_sums_lookup 0 lens (pred (length lens)) ltac:(lia))) as Hle.
    rewrite take_ge in Hle by lia. lia. }
  destruct (lookup_lt_is_Some_2 lens k Hk) as [n Hn].
  exists n. split; [done|].
  pose proof (Hhigh _ (prefix_sums_lookup 0 lens k Hk)) as Hgt.
  fold (shard_start lens (S k)) in Hgt.
  rewrite (shard_start_S _ _ _ Hn) in Hgt.
  split; [|lia].
  destruct k as [|k']; [rewrite shard_start_0; lia|].
  pose proof (Hlow k' _ ltac:(lia) (prefix_sums_lookup 0 lens k' ltac:(lia))).
  unfold shard_start. lia.
Qed.

Lemma locate_exact lens i :
  Forall (λ x, 0 ≤ x) lens → sumZ lens < 2 ^ 63 → 0 ≤ i < sumZ lens →
  let k := first_exceeding (prefix_sums 0 lens) i in
  locate (prefix_sums 0 lens) i = (k, i - shard_start lens k).
Proof.
  intros Hl Hsum Hi k. unfold locate.
  rewrite searchsorted_right_first_exceeding
    by (by apply prefix_sums_nondecreasing).
  fold k. f_equal.
  destruct (first_exceeding_in_range lens i Hl Hi) as (n & Hn & Hr). fold k in Hn, Hr.
  destruct k as [|k']; [rewrite shard_start_0, decide_True by done; lia|].
  rewrite decide_False by done.
  pose proof (lookup_lt_Some _ _ _ Hn).
  replace (S k' - 1)%nat with k' by lia.
  rewrite prefix_sums_lookup by lia. cbn [default from_option id].
  fold (shard_start lens (S k')).
  pose proof (shard_start_mono lens 0 (S k') Hl ltac:(lia)) as H0.
  rewrite shard_start_0 in H0.
  rewrite wrap64_id by lia. lia.
Qed.

End index_resolution.

(** C1. For a dataset built from shard descriptors with non-negative sample
    counts (whose total fits the int64 table), every global index [i] with
    [0 <= i < total] is resolved by [get_shard] to the first shard whose
    cumulative sum exceeds [i]; this is the unique shard whose half-open
    cumulative range contains [i]; the local index is [i] minus the
    cumulative sum of the previous shards ([i] itself for the first shard)
    and lies in [[0, nsamples)]. With lengths [5, 0, 3] the total is 8,
    indices 0-4 go to shard 0 with locals 0-4, indices 5-7 to shard 2 with
    locals 0-2, and no index goes to the empty shard. *)
Theorem get_shard_resolves_index
    (download_and_open : string → string → result archive)
    (urlparse_path : string → string)
    (descs : list ShardDesc) (cache_size : Z) (cdir : option string)
    (cache_cleanup : option Z) (lname : option (string → string))
    (ts : list (sample → result sample)) (wids_cache : option string)
    (ds : ShardListDataset) (i : Z) :
  ShardListDataset_init urlparse_path descs cache_size cdir cache_cleanup
    lname ts wids_cache = Ok ds →
  Forall (λ d, 0 ≤ nsamples d)%Z descs →
  (sumZ (nsamples <$> descs) < 2 ^ 63)%Z →
  (0 ≤ i < ShardListDataset_len ds)%Z →
  let lens := nsamples <$> descs in
  (∃ k desc,
      descs !! k = Some desc
      ∧ k = first_exceeding (prefix_sums 0 lens) i
      ∧ in_shard_range lens k i
      ∧ (∀ k', in_shard_range lens k' i → k' = k)
      ∧ locate (cum_lengths ds) i = (k, i - shard_start lens k)%Z
      ∧ (k = 0%nat → i - shard_start lens k = i)%Z
      ∧ (0 ≤ i - shard_start lens k < nsamples desc)%Z
      ∧ (∀ out shard l d ds',
           get_shard download_and_open ds i = ((out, Ok (shard, l, d)), ds') →
           l = (i - shard_start lens k)%Z ∧ d = desc))
  ∧ (Np.cumsum [5; 0; 3] = Ok [5; 5; 8]
     ∧ locate [5; 5; 8] <$> [0; 1; 2; 3; 4; 5; 6; 7]
       = [(0%nat, 0); (0%nat, 1); (0%nat, 2); (0%nat, 3); (0%nat, 4);
          (2%nat, 0); (2%nat, 1); (2%nat, 2)])%Z.
Proof.
  intros Hinit Hnn Hsum Hi lens.
  destruct (init_tables _ _ _ _ _ _ _ _ _ Hinit Hnn Hsum)
    as (Hsh & Hlen & Hcum & Htot & Hne).
  unfold ShardListDataset_len in Hi. rewrite Htot in Hi. fold lens in Hi, Hcum, Hsum.
  assert (Forall (λ x, 0 ≤ x)%Z lens) as Hl by (by apply Forall_fmap).
  split; [|split; vm_compute; reflexivity].
  set (k := first_exceeding (prefix_sums 0 lens) i).
  pose proof (first_exceeding_in_range lens i Hl Hi) as Hin. fold k in Hin.
  pose proof Hin as (n & Hn & Hr).
  subst lens. rewrite list_lookup_fmap in Hn.
  destruct (descs !! k) as [desc|] eqn:Hdesc; [|done].
  injection Hn as <-.
  pose proof (locate_exact (nsamples <$> descs) i Hl Hsum Hi) as Hloc.
  cbn zeta in Hloc. fold k in Hloc.
  exists k, desc.
  split; [done|]. split; [done|]. split; [done|].
  split; [intros k' Hk'; by eapply in_shard_range_unique|].
  split; [by rewrite Hcum|].
  split; [intros ->; rewrite shard_start_0; lia|].
  split; [lia|].
  intros out shard l d ds' Hget. unfold get_shard in Hget.
  rewrite Hcum, Hloc, Hsh, Hdesc in Hget.
  destruct (LRUShards_get_shard _ _ _) as [[o [v|e]] c]; [|done].
  by injection Hget as _ _ <- <- _.
Qed.

Lemma get_shard_resolves_index_witness :
  ∃ desc,
    example_shards !! 2%nat = Some desc
    ∧ in_shard_range [5; 0; 3]%Z 2 6
    ∧ locate [5; 5; 8]%Z 6 = (2%nat, 1%Z)
    ∧ (0 ≤ 6 - shard_start [5; 0; 3] 2 < nsamples desc)%Z.
Proof.
  destruct (get_shard_resolves_index (λ _ _, Raise FetchError) (λ s, s)
              example_shards 2 None None None [] None example_dataset 6)
    as [(k & desc & Hd & Hk & Hin & _ & Hloc & _ & Hb & _) _].
  - reflexivity.
  - repeat constructor; simpl; lia.
  - vm_compute. reflexivity.
  - vm_compute. split; congruence.
  - vm_compute in Hk. subst k. exists desc. repeat split; try assumption;
      try apply Hin; try apply Hb.
Defined.

(** * The pattern of [splitname] *)

Section splitname_pattern.

Local Open Scope string_scope.

Lemma no_newline_tail c s : no_newline (String c s) = true → no_newline s = true.
Proof. simpl. intros [_ ?]%andb_true_iff. done. Qed.

Lemma no_newline_head c s :
  no_newline (String c s) = true → Re.atom_ok Re.Any c = true.
Proof. simpl. intros [? _]%andb_true_iff. done. Qed.

Lemma star_lazy_any s caps k :
  no_newline s = true →
  Re.star_lazy Re.Any s caps k = first_suffix (λ t, k t caps) s.
Proof.
  induction s as [|c s IH]; intros Hs; [done|].
  cbn [Re.star_lazy first_suffix].
  rewrite (no_newline_head _ _ Hs), IH by (by eapply no_newline_tail). done.
Qed.

Lemma star_greedy_any s caps k :
  no_newline s = true →
  Re.star_greedy Re.Any s caps k = last_suffix (λ t, k t caps) s.
Proof.
  induction s as [|c s IH]; intros Hs; [done|].
  cbn [Re.star_greedy last_suffix].
  rewrite (no_newline_head _ _ Hs), IH by (by eapply no_newline_tail). done.
Qed.

Lemma first_suffix_ext {A} (f g : string → option A) s :
  no_newline s = true →
  (∀ t, no_newline t = true → f t = g t) →
  first_suffix f s = first_suffix g s.
Proof.
  intros Hs Hfg. induction s as [|c s IH]; cbn [first_suffix].
  - by rewrite Hfg.
  - rewrite Hfg, IH by (done || by eapply no_newline_tail). done.
Qed.

Lemma last_suffix_ext {A} (f g : string → option A) s :
  no_newline s = true →
  (∀ t, no_newline t = true → f t = g t) →
  last_suffix f s = last_suffix g s.
Proof.
  intros Hs Hfg. induction s as [|c s IH]; cbn [last_suffix].
  - by rewrite Hfg.
  - rewrite Hfg, IH by (done || by eapply no_newline_tail). done.
Qed.

Lemma last_suffix_end {A} (f : string → option A) s x :
  f EmptyString = Some x → last_suffix f s = Some x.
Proof. intros Hf. induction s as [|c s IH]; simpl; [done|]. by rewrite IH. Qed.

Lemma substring_all s : String.substring 0 (String.length s) s = s.
Proof. induction s as [|c s IH]; simpl; [done|]. by rewrite IH. Qed.

Lemma consumed_all s : Re.consumed s EmptyString = s.
Proof. unfold Re.consumed. simpl. rewrite Nat.sub_0_r. apply substring_all. Qed.

Lemma dot_suffix_run whole t :
  no_newline t = true →
  match t with
  | EmptyString => None
  | String c r =>
      if Re.atom_ok (Re.Lit ".") c
      then Re.star_greedy Re.Any r (<[1%nat := Re.consumed whole t]> ∅)
             (λ s2 c2, if Re.at_eol s2
                       then Some (<[2%nat := Re.consumed t s2]> c2) else None)
      else None
  end = dot_suffix whole t.
Proof.
  intros Ht. destruct t as [|c r]; [done|]. unfold dot_suffix. cbn [Re.atom_ok].
  destruct (Ascii.eqb c "."); [|done].
  rewrite star_greedy_any by (by eapply no_newline_tail).
  apply last_suffix_end. cbn [Re.at_eol]. by rewrite consumed_all.
Qed.

(** On a name without newlines the pattern selects the extension as a
    suffix of the name: the last suffix that follows a ['/'] and has a
    ['.'] in it, cut at its first ['.']; failing that, the name cut at its
    first ['.']. *)
Lemma rmatch_splitname s :
  no_newline s = true →
  Re.rmatch splitname_re s =
    Re.orelse (last_suffix (after_slash s) s) (first_suffix (dot_suffix s) s).
Proof.
  intros Hs. unfold Re.rmatch, splitname_re. cbn [Re.run].
  rewrite Nat.eqb_refl.
  rewrite star_greedy_any, star_lazy_any by done.
  f_equal.
  - apply last_suffix_ext; [done|]. intros t Ht.
    destruct t as [|c r]; [done|]. unfold after_slash. cbn [Re.atom_ok].
    destruct (Ascii.eqb c "/"); [|done].
    rewrite star_lazy_any by (by eapply no_newline_tail).
    apply first_suffix_ext; [by eapply no_newline_tail|].
    intros t' Ht'. by apply dot_suffix_run.
  - apply first_suffix_ext; [done|]. intros t Ht. by apply dot_suffix_run.
Qed.

Lemma append_cons d p t : String d p +:+ t = String d (p +:+ t).
Proof. reflexivity. Qed.

Lemma append_nil_l t : EmptyString +:+ t = t.
Proof. reflexivity. Qed.

Lemma append_assoc_cons p c k : p +:+ String c k = (p +:+ String c EmptyString) +:+ k.
Proof.
  induction p as [|d p IH]; [done|]. rewrite !append_cons. by f_equal.
Qed.

Lemma append_nil_r p : p +:+ EmptyString = p.
Proof. induction p as [|d p IH]; [done|]. rewrite append_cons. by f_equal. Qed.

Lemma length_append p t :
  String.length (p +:+ t) = (String.length p + String.length t)%nat.
Proof.
  induction p as [|d p IH]; [done|]. rewrite append_cons. simpl. by rewrite IH.
Qed.

Lemma substring_prefix p t : String.substring 0 (String.length p) (p +:+ t) = p.
Proof.
  induction p as [|d p IH]; [by destruct t|].
  rewrite append_cons. simpl. by rewrite IH.
Qed.

Lemma consumed_append p t : Re.consumed (p +:+ t) t = p.
Proof.
  unfold Re.consumed. rewrite length_append.
  replace (String.length p + String.length t - String.length t)%nat
    with (String.length p) by lia.
  apply substring_prefix.
Qed.

Lemma first_suffix_dot p t :
  first_suffix (dot_suffix (p +:+ t)) t = caps_of p <$> split_first_dot t.
Proof.
  revert p. induction t as [|c r IH]; intros p; [done|].
  cbn [first_suffix split_first_dot dot_suffix].
  destruct (Ascii.eqb c ".").
  - simpl. unfold caps_of. simpl. by rewrite consumed_append, append_nil_r.
  - cbn [Re.orelse]. rewrite (append_assoc_cons p c r), IH.
    destruct (split_first_dot r) as [[k e]|]; [|done].
    simpl. unfold caps_of. simpl. by rewrite <- append_assoc_cons.
Qed.

Lemma last_suffix_slash p t :
  last_suffix (after_slash (p +:+ t)) t = caps_of p <$> usable_split t.
Proof.
  revert p. induction t as [|c r IH]; intros p; [done|].
  cbn [last_suffix usable_split after_slash].
  rewrite (append_assoc_cons p c r), IH.
  destruct (usable_split r) as [[k e]|].
  - simpl. unfold caps_of. simpl. by rewrite <- append_assoc_cons.
  - cbn [fmap option_fmap option_map Re.orelse].
    destruct (Ascii.eqb c "/"); [|done].
    rewrite first_suffix_dot.
    destruct (split_first_dot r) as [[k e]|]; [|done].
    simpl. unfold caps_of. simpl. by rewrite <- append_assoc_cons.
Qed.

Lemma has_dot_split_first_dot s :
  has_dot s = true → is_Some (split_first_dot s).
Proof.
  induction s as [|c r IH]; simpl; [done|].
  destruct (Ascii.eqb c "."); [by eexists|].
  simpl. intros [[k e] ->]%IH. by eexists.
Qed.

Lemma split_first_dot_append s k e :
  split_first_dot s = Some (k, e) →
  s = k +:+ e ∧ (∃ r, e = String "." r) ∧ has_dot k = false.
Proof.
  revert k. induction s as [|c r IH]; intros k; simpl; [done|].
  destruct (Ascii.eqb_spec c ".") as [->|Hne].
  - intros [= <- <-]. split; [done|]. split; [by eexists|done].
  - destruct (split_first_dot r) as [[k' e']|]; simpl; [|done].
    intros [= <- <-]. destruct (IH _ eq_refl) as (-> & He & Hk).
    split; [done|]. split; [done|]. simpl.
    rewrite Hk. by apply Ascii.eqb_neq in Hne as ->.
Qed.

Lemma usable_split_append s k e :
  usable_split s = Some (k, e) → s = k +:+ e ∧ ∃ r, e = String "." r.
Proof.
  revert k. induction s as [|c r IH]; intros k; simpl; [done|].
  destruct (usable_split r) as [[k' e']|].
  - intros [= <- <-]. destruct (IH _ eq_refl) as (-> & He). done.
  - destruct (Ascii.eqb c "/"); [|done].
    destruct (split_first_dot r) as [[k' e']|] eqn:Hsp; simpl; [|done].
    intros [= <- <-].
    destruct (split_first_dot_append _ _ _ Hsp) as (-> & He & _). done.
Qed.

Lemma code_split_append s k e :
  code_split s = Some (k, e) → s = k +:+ e ∧ ∃ r, e = String "." r.
Proof.
  unfold code_split. destruct (usable_split s) as [[k' e']|] eqn:Hu; simpl.
  - intros [= <- <-]. by apply usable_split_append.
  - intros Hsp. destruct (split_first_dot_append _ _ _ Hsp) as (? & ? & _). done.
Qed.

(** [splitname] on a name without newlines: the split of [code_split]. *)
Lemma splitname_code_split s :
  no_newline s = true → has_dot s = true →
  ∃ k e, code_split s = Some (k, e) ∧ splitname s = Ok (k, e).
Proof.
  intros Hs Hd. unfold splitname. rewrite Hd, rmatch_splitname by done.
  pose proof (last_suffix_slash EmptyString s) as Hl.
  pose proof (first_suffix_dot EmptyString s) as Hf.
  change (EmptyString +:+ s) with s in Hl, Hf. rewrite Hl, Hf. unfold code_split.
  destruct (usable_split s) as [[k e]|]; simpl.
  - exists k, e. split; [done|]. unfold caps_of. simpl.
    rewrite lookup_insert_ne, lookup_insert_eq by done.
    by rewrite lookup_insert_eq.
  - destruct (has_dot_split_first_dot s Hd) as [[k e] ->]. simpl.
    exists k, e. split; [done|]. unfold caps_of. simpl.
    rewrite lookup_insert_ne, lookup_insert_eq by done.
    by rewrite lookup_insert_eq.
Qed.

Lemma usable_split_no_slash s :
  Urllib.mem "/" s = false → usable_split s = None.
Proof.
  induction s as [|c r IH]; [done|]. cbn [Urllib.mem usable_split].
  intros [Hc Hr]%orb_false_iff. rewrite IH by done.
  rewrite Ascii.eqb_sym in Hc. by rewrite Hc.
Qed.

(** Where the last path component has a ['.'], the pattern splits at the
    first ['.'] after the last separator. *)
Lemma spec_split_code_split s p :
  spec_split s = Some p → code_split s = Some p.
Proof.
  assert (∀ s k e, spec_split s = Some (k, e) →
            usable_split s = Some (k, e)
            ∨ (Urllib.mem "/" s = false ∧ split_first_dot s = Some (k, e)))
    as Hgen.
  { clear. induction s as [|c r IH]; intros k e; [done|].
    cbn [spec_split].
    destruct (Urllib.mem "/" (String c r)) eqn:Hm; [|by right].
    destruct (spec_split r) as [[k' e']|] eqn:Hsp; simpl; [|done].
    intros [= <- <-]. left. cbn [usable_split].
    destruct (IH _ _ eq_refl) as [->|[Hr Hd]]; [done|].
    rewrite usable_split_no_slash by done.
    cbn [Urllib.mem] in Hm. rewrite Hr, orb_false_r, Ascii.eqb_sym in Hm.
    by rewrite Hm, Hd. }
  destruct p as [k e]. intros [Hu|[Hm Hd]]%Hgen; unfold code_split.
  - by rewrite Hu.
  - by rewrite usable_split_no_slash.
Qed.

End splitname_pattern.

(** * The grouping pass *)

Section grouping_pass.

Lemma flush_pending g :
  flush g = groups g ++ (pending (last_key g) (current g)).*2.
Proof.
  unfold flush, pending. destruct (current g); simpl; [|done].
  by rewrite app_nil_r.
Qed.

Lemma runs_cons i k l :
  runs ((i, k) :: l) = join (Some k) [i] (runs l).
Proof.
  cbn [runs]. unfold join. destruct (runs l) as [|[k' g] gs]; [done|].
  destruct (decide (k = k')) as [->|Hne].
  - by rewrite decide_True.
  - rewrite decide_False by congruence. done.
Qed.

Lemma join_join lk cur i k rs :
  join lk cur (join (Some k) [i] rs) =
    if decide (lk = Some k) then join (Some k) (cur ++ [i]) rs
    else pending lk cur ++ join (Some k) [i] rs.
Proof.
  assert (∀ c, pending (Some k) (c ++ [i]) = [(k, c ++ [i])]) as Hp.
  { intros c. unfold pending. by destruct c. }
  destruct rs as [|[k1 g1] rs']; cbn [join].
  - change (pending (Some k) [i]) with [(k, [i])]. rewrite (Hp cur).
    cbn [join]. destruct (decide (lk = Some k)); [done|]. done.
  - destruct (decide (Some k = Some k1)) as [[= <-]|Hne].
    + cbn [app join]. destruct (decide (lk = Some k)); [|done].
      by rewrite <- app_assoc.
    + change (pending (Some k) [i]) with [(k, [i])]. rewrite (Hp cur).
      cbn [app join]. destruct (decide (lk = Some k)); done.
Qed.

(** The loop, from any state, appends the runs of the remaining members,
    the first run joining the pending group when the keys agree. *)
Lemma group_loop_runs names i g :
  Forall splits names →
  ∃ g', group_loop i names g = (warnings_of names, Ok g')
        ∧ flush g' = groups g
            ++ (join (last_key g) (current g) (runs (kept i names))).*2.
Proof.
  intros Hok. revert i g.
  induction Hok as [|fname rest Hf Hrest IH]; intros i g.
  - exists g. split; [done|]. apply flush_pending.
  - cbn [group_loop kept]. unfold group_step, warnings_of.
    rewrite filter_cons.
    destruct (has_dot fname) eqn:Hd; cbn [negb].
    + rewrite decide_False by done.
      specialize (Hf Hd).
      destruct (splitname fname) as [[key ext]|] eqn:Hsp; [|done].
      cbn [plift mbind result_bind pbind].
      rewrite runs_cons, join_join.
      fold (warnings_of rest).
      destruct (decide (Some key ≠ last_key g)) as [Hne|Heq];
        cbn [groups last_key current app].
      * destruct (IH (S i) (Grouping (flush g) (Some key) [i]))
          as (g' & Hg' & Hfl).
        exists g'. rewrite Hg'. split; [done|].
        rewrite Hfl. cbn [groups last_key current].
        rewrite decide_False by congruence.
        rewrite flush_pending, fmap_app, app_assoc. done.
      * apply dec_stable in Heq.
        destruct (IH (S i) (Grouping (groups g) (last_key g) (current g ++ [i])))
          as (g' & Hg' & Hfl).
        exists g'. rewrite Hg'. split; [done|].
        rewrite Hfl. cbn [groups last_key current].
        rewrite decide_True by done. by rewrite <- Heq.
    + rewrite decide_True by done.
      destruct (IH (S i) g) as (g' & Hg' & Hfl).
      exists g'. cbn [pbind]. rewrite Hg'. split; [done|]. done.
Qed.

Lemma runs_concat l : concat (runs l).*2 = l.*1.
Proof.
  induction l as [|[i k] l IH]; [done|]. cbn [runs].
  destruct (runs l) as [|[k' g] gs]; [by destruct l|].
  cbn in IH. destruct (decide (k = k')); cbn; by rewrite IH.
Qed.

Lemma runs_members l :
  Forall (λ kg, kg.2 ≠ [] ∧ Forall (λ i, (i, kg.1) ∈ l) kg.2) (runs l).
Proof.
  induction l as [|[i k] l IH]; [constructor|]. cbn [runs].
  assert (Forall (λ kg, kg.2 ≠ [] ∧ Forall (λ j, (j, kg.1) ∈ (i, k) :: l) kg.2)
            (runs l)) as IH'.
  { eapply Forall_impl; [exact IH|]. intros [k0 g0] [? Hg]. split; [done|].
    eapply Forall_impl; [exact Hg|]. intros j Hj. by right. }
  destruct (runs l) as [|[k' g] gs].
  - repeat constructor. done.
  - inversion IH' as [|? ? [Hne Hg] Hgs]; subst.
    destruct (decide (k = k')) as [->|].
    + constructor; [|done]. split; [done|]. constructor; [by left|done].
    + constructor; [|by constructor]. split; [done|]. repeat constructor.
Qed.

Lemma runs_adjacent l : adjacent_distinct (runs l).*1.
Proof.
  induction l as [|[i k] l IH]; [done|]. cbn [runs].
  destruct (runs l) as [|[k' g] gs]; [done|].
  destruct (decide (k = k')) as [->|]; [done|]. by split.
Qed.

Lemma count_runs_runs last l :
  (count_runs last l.*2 +
     match runs l with
     | (k, _) :: _ => if decide (Some k = last) then 1 else 0
     | [] => 0
     end = length (runs l))%nat.
Proof.
  revert last. induction l as [|[i k] l IH]; intros last; [done|].
  cbn [fmap list_fmap snd count_runs runs]. specialize (IH (Some k)).
  destruct (runs l) as [|[k' g] gs].
  - cbn in *. destruct (decide (Some k = last)); lia.
  - destruct (decide (k = k')) as [->|Hne].
    + rewrite decide_True in IH by done. cbn [length] in *.
      destruct (decide (Some k' = last)); lia.
    + rewrite decide_False in IH by congruence. cbn [length] in *.
      destruct (decide (Some k = last)); lia.
Qed.

Lemma kept_lookup i0 names i k :
  (i, k) ∈ kept i0 names ↔
  ∃ j fname e, i = (i0 + j)%nat ∧ names !! j = Some fname
               ∧ has_dot fname = true ∧ splitname fname = Ok (k, e).
Proof.
  revert i0. induction names as [|fname rest IH]; intros i0; cbn [kept].
  - split; [by intros ?%elem_of_nil|]. by intros (j & ? & ? & _ & ? & _).
  - assert ((i, k) ∈ kept (S i0) rest ↔
            ∃ j f e, i = (i0 + S j)%nat ∧ rest !! j = Some f
                     ∧ has_dot f = true ∧ splitname f = Ok (k, e)) as IH'.
    { rewrite IH. by setoid_rewrite Nat.add_succ_r. }
    destruct (has_dot fname) eqn:Hd;
      [destruct (splitname fname) as [[key ext]|err] eqn:Hsp|].
    + rewrite elem_of_cons, IH'. split.
      * intros [[= -> ->]|(j & f & e & -> & ? & ? & ?)].
        -- exists 0%nat, fname, ext. by rewrite Nat.add_0_r.
        -- by exists (S j), f, e.
      * intros ([|j] & f & e & -> & Hj & Hf & Hs); simplify_eq/=.
        -- left. f_equal; [lia|congruence].
        -- right. by exists j, f, e.
    + rewrite IH'. split.
      * intros (j & f & e & -> & ? & ? & ?). by exists (S j), f, e.
      * intros ([|j] & f & e & -> & Hj & Hf & Hs); simplify_eq/=;
          try congruence.
        by exists j, f, e.
    + rewrite IH'. split.
      * intros (j & f & e & -> & ? & ? & ?). by exists (S j), f, e.
      * intros ([|j] & f & e & -> & Hj & Hf & Hs); simplify_eq/=;
          try congruence.
        by exists j, f, e.
Qed.

End grouping_pass.

(** The grouping pass on names without newlines, in terms of the split the
    pattern makes ([code_split]): it never raises, warns about the names
    without a ['.'] and groups the others into the maximal runs of equal
    consecutive keys. *)
Lemma group_by_key_code_runs (names : list string) :
  Forall (λ n, no_newline n = true) names →
  let members := kept 0 names in
  group_by_key names = (warnings_of names, Ok (runs members).*2)
  ∧ (∀ fname, fname ∈ names → has_dot fname = true →
       ∃ k e, splitname fname = Ok (k, e)
              ∧ code_split fname = Some (k, e)
              ∧ fname = k +:+ e
              ∧ (∀ p, spec_split fname = Some p → p = (k, e))).
Proof.
  intros Hnl members.
  assert (∀ fname, fname ∈ names → has_dot fname = true →
       ∃ k e, splitname fname = Ok (k, e)
              ∧ code_split fname = Some (k, e)
              ∧ fname = k +:+ e
              ∧ (∀ p, spec_split fname = Some p → p = (k, e))) as Hsplit.
  { intros fname Hin Hd.
    pose proof (proj1 (Forall_forall _ _) Hnl _ Hin) as Hn. cbn beta in Hn.
    destruct (splitname_code_split fname Hn Hd) as (k & e & Hc & Hs).
    exists k, e. destruct (code_split_append _ _ _ Hc) as [Happ He].
    repeat split; try done.
    intros p Hp%spec_split_code_split. congruence. }
  split; [|done].
  unfold group_by_key.
  destruct (group_loop_runs names 0 (Grouping [] None [])) as (g' & -> & Hfl).
  - apply Forall_forall. intros fname Hin Hd.
    destruct (Hsplit fname Hin Hd) as (k & e & -> & _). done.
  - cbn [pbind plift]. rewrite app_nil_r, Hfl. cbn [groups last_key current app].
    subst members. by destruct (runs (kept 0 names)) as [|[k g] gs].
Qed.

Lemma spec_split_has_dot s p : spec_split s = Some p → has_dot s = true.
Proof.
  intros Hp%spec_split_code_split. destruct p as [k e].
  destruct (code_split_append _ _ _ Hp) as (-> & r & ->).
  clear. induction k as [|c k IH]; [done|].
  rewrite append_cons. cbn [has_dot]. rewrite IH. apply orb_true_r.
Qed.

(** On well-named members the keys of the code are the keys of the
    specification. *)
Lemma kept_spec_kept i names :
  Forall well_named names → kept i names = spec_kept i names.
Proof.
  intros Hw. revert i. induction Hw as [|fname rest [Hn Hd] _ IH]; intros i; [done|].
  cbn [kept spec_kept]. rewrite IH.
  destruct (has_dot fname) eqn:Hdot.
  - destruct (Hd eq_refl) as [[k e] Hs]. rewrite Hs.
    destruct (splitname_code_split fname Hn Hdot) as (k' & e' & Hc & ->).
    apply spec_split_code_split in Hs. rewrite Hs in Hc.
    by injection Hc as <- <-.
  - destruct (spec_split fname) as [[k e]|] eqn:Hs; [|done].
    apply spec_split_has_dot in Hs. congruence.
Qed.

Lemma spec_kept_lookup i0 names i k :
  (i, k) ∈ spec_kept i0 names ↔
  ∃ j fname e, i = (i0 + j)%nat ∧ names !! j = Some fname
               ∧ spec_split fname = Some (k, e).
Proof.
  revert i0. induction names as [|fname rest IH]; intros i0; cbn [spec_kept].
  - split; [by intros ?%elem_of_nil|]. by intros (j & ? & ? & _ & ? & _).
  - assert ((i, k) ∈ spec_kept (S i0) rest ↔
            ∃ j f e, i = (i0 + S j)%nat ∧ rest !! j = Some f
                     ∧ spec_split f = Some (k, e)) as IH'.
    { rewrite IH. by setoid_rewrite Nat.add_succ_r. }
    destruct (spec_split fname) as [[key ext]|] eqn:Hsp.
    + rewrite elem_of_cons, IH'. split.
      * intros [[= -> ->]|(j & f & e & -> & ? & ?)].
        -- exists 0%nat, fname, ext. by rewrite Nat.add_0_r.
        -- by exists (S j), f, e.
      * intros ([|j] & f & e & -> & Hj & Hs); simplify_eq/=.
        -- left. f_equal; (lia || congruence).
        -- right. by exists j, f, e.
    + rewrite IH'. split.
      * intros (j & f & e & -> & ? & ?). by exists (S j), f, e.
      * intros ([|j] & f & e & -> & Hj & Hs); simplify_eq/=; try congruence.
        by exists j, f, e.
Qed.

(** C2 (claim as stated). Not every name with a ['.'] is split at the first
    ['.'] following its last path separator: in ["v1.0/README"] no ['.']
    follows the separator, and [splitname] cuts the name inside its
    directory part, so that two such files of different directories share a
    key; and on a name with a newline before its ['.'] the pattern does not
    match and the pass raises. *)
Lemma group_by_key_split_counterexample :
  has_dot "v1.0/README" = true
  ∧ spec_split "v1.0/README" = None
  ∧ splitname "v1.0/README" = Ok ("v1", ".0/README")%string
  ∧ group_by_key ["v1.0/README"; "v1.5/README"]%string = ([], Ok [[0; 1]])
  ∧ group_by_key [String "a" (String Re.newline ".jpg")]
    = ([], Raise AttributeError)
  ∧ ¬ (∀ fname, has_dot fname = true →
         ∃ p, spec_split fname = Some p ∧ splitname fname = Ok p).
Proof.
  split; [reflexivity|]. split; [reflexivity|].
  split; [vm_compute; reflexivity|]. split; [vm_compute; reflexivity|].
  split; [vm_compute; reflexivity|].
  intros H. destruct (H "v1.0/README"%string eq_refl) as (p & Hp & _).
  discriminate Hp.
Qed.

(** C2 (amended). For every list of member names in which no name contains
    a newline and every name with a ['.'] has one in its last path
    component, [group_by_key] excludes each name without a ['.'] with a
    warning and no error, splits every other name into (key, extension) at
    the first ['.'] following the last path separator, and forms one group
    per maximal run of consecutive kept names with the same key, so that
    the number of groups is the number of such runs. For the names a.jpg,
    a.txt, b.jpg, c.jpg, c.txt there are 3 groups. *)
Theorem group_by_key_maximal_runs (names : list string) :
  Forall well_named names →
  let members := spec_kept 0 names in
  group_by_key names = (warnings_of names, Ok (runs members).*2)
  ∧ (∀ fname, fname ∈ names → has_dot fname = true →
       ∃ k e, spec_split fname = Some (k, e)
              ∧ splitname fname = Ok (k, e)
              ∧ fname = k +:+ e)
  ∧ (∀ i k, (i, k) ∈ members ↔
       ∃ fname e, names !! i = Some fname ∧ spec_split fname = Some (k, e))
  ∧ concat (runs members).*2 = members.*1
  ∧ Forall (λ kg, kg.2 ≠ [] ∧ Forall (λ i, (i, kg.1) ∈ members) kg.2)
      (runs members)
  ∧ adjacent_distinct (runs members).*1
  ∧ length (runs members).*2 = count_runs None members.*2
  ∧ (∃ gs, group_by_key ["a.jpg"; "a.txt"; "b.jpg"; "c.jpg"; "c.txt"]%string
             = ([], Ok gs)
           ∧ length gs = 3%nat).
Proof.
  intros Hw members.
  assert (Forall (λ n, no_newline n = true) names) as Hnl.
  { eapply Forall_impl; [exact Hw|]. by intros n [? _]. }
  destruct (group_by_key_code_runs names Hnl) as [Hg Hsplit].
  rewrite (kept_spec_kept 0 names Hw) in Hg. fold members in Hg.
  split; [done|].
  split.
  { intros fname Hin Hd.
    destruct (proj1 (Forall_forall _ _) Hw _ Hin) as [_ Hs].
    destruct (Hs Hd) as [[k e] Hke].
    destruct (Hsplit fname Hin Hd) as (k' & e' & Hsp & _ & Happ & Huniq).
    specialize (Huniq _ Hke). injection Huniq as -> ->. by exists k', e'. }
  split.
  { intros i k. unfold members. rewrite spec_kept_lookup. split.
    - intros (j & f & e & -> & ?). by exists f, e.
    - intros (f & e & ?). by exists i, f, e. }
  split; [apply runs_concat|].
  split; [apply runs_members|].
  split; [apply runs_adjacent|].
  split.
  { rewrite length_fmap. pose proof (count_runs_runs None members) as Hc.
    destruct (runs members) as [|[k g] gs]; [simpl in *; lia|].
    rewrite decide_False in Hc by done. lia. }
  exists [[0; 1]; [2]; [3; 4]]%nat. split; [vm_compute; reflexivity|done].
Qed.

Lemma group_by_key_maximal_runs_witness :
  group_by_key example_names
  = (warnings_of example_names, Ok (runs (spec_kept 0 example_names)).*2).
Proof.
  apply (group_by_key_maximal_runs example_names).
  repeat constructor; vm_compute; intros _; by eexists.
Defined.

(** * Sample access *)

(** C3. Evaluation of the code on the member names a.jpg, a.txt, b.jpg,
    c.jpg, c.txt, whatever the members hold: there are three samples, and
    sample 1 has the sample key ["b"] and holds the bytes of b.jpg, but
    under the key [".jpg"], with the leading dot that the second group of
    [splitname]'s pattern captures; it has these two entries and no entry
    under ["jpg"]. *)
Theorem its_getitem_example_keys (d0 d1 d2 d3 d4 : data) :
  let tar := Archive [("a.jpg", d0); ("a.txt", d1); ("b.jpg", d2);
                      ("c.jpg", d3); ("c.txt", d4)]%string EmptyString in
  let its := MkIndexedTarSamples tar [[0; 1]; [2]; [3; 4]] in
  IndexedTarSamples_init tar (Some "a.tar"%string) None None = ([], Ok its)
  ∧ its_len its = 3%Z
  ∧ match its_getitem its 1 with
    | Ok smp =>
        smp !! "__key__"%string = Some (VStr "b")
        ∧ smp !! ".jpg"%string = Some (VBytes d2)
        ∧ smp !! "jpg"%string = None
        ∧ size smp = 2%nat
    | Raise _ => False
    end.
Proof.
  intros tar its.
  split; [vm_compute; reflexivity|].
  split; [reflexivity|].
  vm_compute. repeat split; reflexivity.
Qed.

Section sample_access.

Lemma group_loop_ok_splits names i g out g' :
  group_loop i names g = (out, Ok g') → Forall splits names.
Proof.
  revert i g out g'.
  induction names as [|fname rest IH]; intros i g out g'; [done|].
  cbn [group_loop]. unfold group_step.
  destruct (has_dot fname) eqn:Hd; cbn [negb].
  - destruct (splitname fname) as [[key ext]|err] eqn:Hsp;
      cbn [plift mbind result_bind pbind]; [|done].
    destruct (group_loop _ _ _) as [out' [g''|err]] eqn:Hl; [|done].
    intros _. constructor; [|by eapply IH].
    intros _. by rewrite Hsp.
  - cbn [pbind].
    destruct (group_loop _ _ _) as [out' [g''|err]] eqn:Hl; [|done].
    intros _. constructor; [|by eapply IH].
    intros Hd'. congruence.
Qed.

(** The groups of a constructed [IndexedTarSamples] are the runs of its
    kept members. *)
Lemma init_samples tar path md5sum expected_size out its :
  IndexedTarSamples_init tar path md5sum expected_size = (out, Ok its) →
  reader its = tar ∧ samples its = (runs (kept 0 (names tar))).*2.
Proof.
  unfold IndexedTarSamples_init, group_by_key.
  destruct (path_is_str path); cbn [py_assert plift pbind]; [|done].
  destruct (group_loop 0 (names tar) (Grouping [] None []))
    as [out1 [g'|err]] eqn:Hl; cbn [pbind plift]; [|done].
  pose proof (group_loop_ok_splits _ _ _ _ _ Hl) as Hok.
  destruct (group_loop_runs (names tar) 0 (Grouping [] None []) Hok)
    as (g'' & Hl' & Hfl).
  rewrite Hl in Hl'. injection Hl' as _ <-.
  cbn [groups last_key current app] in Hfl.
  assert (flush g' = (runs (kept 0 (names tar))).*2) as ->.
  { rewrite Hfl. by destruct (runs (kept 0 (names tar))) as [|[k g] gs]. }
  destruct md5sum as [want|]; [destruct (bool_decide _)|];
    cbn [py_assert mbind result_bind]; try done;
    (destruct expected_size as [n|]; [destruct (bool_decide _)|]);
    cbn [py_assert mbind result_bind]; try done;
    by intros [= _ <-].
Qed.

Lemma py_or_same key k : key = None ∨ key = Some k → py_or key k = k.
Proof. intros [->| ->]; [done|]. unfold py_or. by case_decide. Qed.

(** The loop of [__getitem__] over a group whose members all have the
    key [k] completes, with the sample key [k]. *)
Lemma getitem_loop_same_key tar k indexes smp key :
  Forall (λ i, (i, k) ∈ kept 0 (names tar)) indexes →
  key = None ∨ key = Some k →
  ∃ smp', getitem_loop tar indexes smp key
          = Ok (smp', match indexes with [] => key | _ => Some k end).
Proof.
  intros Hall. revert smp key.
  induction Hall as [|i rest Hi Hrest IH]; intros smp key Hkey.
  - by eexists.
  - apply kept_lookup in Hi as (j & fname & e & -> & Hj & Hd & Hsp).
    unfold names in Hj. rewrite list_lookup_fmap in Hj.
    destruct (members tar !! j) as [[fname' d]|] eqn:Hm; [|done].
    injection Hj as ->.
    cbn [getitem_loop]. unfold get_file. rewrite Nat.add_0_l, Hm.
    cbn [mbind result_bind]. rewrite Hsp. cbn [mbind result_bind].
    rewrite py_or_same by done. rewrite bool_decide_eq_true_2 by done.
    cbn [py_assert mbind result_bind].
    destruct (IH (<[e := VBytes d]> smp) (Some k)) as [smp' Hs]; [by right|].
    exists smp'. rewrite Hs. by destruct rest.
Qed.

Lemma py_index_in_range {A} (l : list A) (i : Z) :
  (- Z.of_nat (length l) ≤ i < Z.of_nat (length l))%Z →
  ∃ x, py_index l i = Ok x ∧ x ∈ l.
Proof.
  intros Hi. unfold py_index. cbn zeta.
  destruct (decide (i < 0)%Z).
  - rewrite decide_True by lia.
    destruct (lookup_lt_is_Some_2 l (Z.to_nat (i + Z.of_nat (length l))))
      as [x Hx]; [lia|].
    rewrite Hx. exists x. split; [done|]. by eapply list_elem_of_lookup_2.
  - rewrite decide_True by lia.
    destruct (lookup_lt_is_Some_2 l (Z.to_nat i)) as [x Hx]; [lia|].
    rewrite Hx. exists x. split; [done|]. by eapply list_elem_of_lookup_2.
Qed.

Lemma py_index_out_of_range {A} (l : list A) (i : Z) :
  ¬ (- Z.of_nat (length l) ≤ i < Z.of_nat (length l))%Z →
  py_index l i = Raise IndexError.
Proof.
  intros Hi. unfold py_index. cbn zeta.
  destruct (decide (i < 0)%Z).
  - destruct (decide (0 ≤ i + Z.of_nat (length l))%Z); [lia|done].
  - rewrite decide_True by lia.
    rewrite (proj2 (lookup_ge_None l (Z.to_nat i))) by lia. done.
Qed.

End sample_access.

(** C10. In an [IndexedTarSamples] whose construction succeeded, the
    same-key assertion of [__getitem__] never fails: an index in range
    (negative positions included) yields a sample, which carries its key,
    and an index out of range raises [IndexError]. *)
Theorem its_getitem_assertion_holds (tar : archive) (path md5sum : option string)
    (expected_size : option Z) (out : list event) (its : IndexedTarSamples)
    (idx : Z) :
  IndexedTarSamples_init tar path md5sum expected_size = (out, Ok its) →
  its_getitem its idx ≠ Raise AssertionError
  ∧ ((- its_len its ≤ idx < its_len its)%Z →
       ∃ smp k, its_getitem its idx = Ok smp
                ∧ smp !! "__key__"%string = Some (VStr k))
  ∧ (¬ (- its_len its ≤ idx < its_len its)%Z →
       its_getitem its idx = Raise IndexError).
Proof.
  intros Hinit. destruct (init_samples _ _ _ _ _ _ Hinit) as [Hr Hs].
  assert ((- its_len its ≤ idx < its_len its)%Z →
       ∃ smp k, its_getitem its idx = Ok smp
                ∧ smp !! "__key__"%string = Some (VStr k)) as Hin.
  { intros Hi. unfold its_getitem, its_len in *.
    destruct (py_index_in_range (samples its) idx Hi) as (g & -> & Hg).
    cbn [mbind result_bind].
    rewrite Hs in Hg. apply list_elem_of_fmap in Hg as ([k g'] & -> & Hkg).
    pose proof (proj1 (Forall_forall _ _) (runs_members (kept 0 (names tar)))
                  _ Hkg) as [Hne Hall].
    cbn [fst snd] in *.
    destruct (getitem_loop_same_key tar k g' ∅ None Hall) as [smp' Hl];
      [by left|].
    rewrite Hr, Hl. cbn [mbind result_bind].
    eexists _, k. split; [done|].
    destruct g'; [done|]. by rewrite lookup_insert_eq. }
  assert (¬ (- its_len its ≤ idx < its_len its)%Z →
       its_getitem its idx = Raise IndexError) as Hout.
  { intros Hi. unfold its_getitem, its_len in *.
    by rewrite py_index_out_of_range. }
  split; [|done].
  destruct (decide (- its_len its ≤ idx < its_len its)%Z) as [Hi|Hi].
  - destruct (Hin Hi) as (smp & k & -> & _). done.
  - by rewrite (Hout Hi).
Qed.

Lemma its_getitem_assertion_holds_witness :
  its_getitem example_its 1 ≠ Raise AssertionError.
Proof.
  apply (its_getitem_assertion_holds example_archive (Some "a.tar"%string) None
           None [] example_its 1).
  vm_compute. reflexivity.
Defined.

(** * Local names *)

Section local_names.

Local Open Scope string_scope.

Lemma unquote_plain c t :
  Ascii.eqb c "%" = false →
  Unquote.unquote (String c t) = String c (Unquote.unquote t).
Proof.
  intros Hc. destruct t as [|h1 [|h2 r]]; cbn [Unquote.unquote]; try done.
  by rewrite Hc.
Qed.

Lemma all_bytes P :
  forallb P (ascii_of_nat <$> seq 0 256) = true → ∀ c, P c = true.
Proof.
  intros H c. rewrite forallb_forall in H. apply H.
  rewrite <- (ascii_nat_embedding c). apply in_map, in_seq.
  pose proof (nat_ascii_bounded c). lia.
Qed.

(** A byte is kept, and then it is neither ['%'] nor ['/'], or it is
    written as ['%'] and the two digits of its value. *)
Lemma quote_byte_cases c :
  (Urllib.quote_byte "+-" c = String c EmptyString
   ∧ Ascii.eqb c "%" = false ∧ Ascii.eqb c "/" = false)
  ∨ (∃ h1 h2,
       Urllib.quote_byte "+-" c = String "%" (String h1 (String h2 EmptyString))
       ∧ ascii_of_N (16 * Unquote.unhex h1 + Unquote.unhex h2) = c
       ∧ Ascii.eqb h1 "/" = false ∧ Ascii.eqb h2 "/" = false).
Proof.
  assert (quote_byte_ok c = true) as Hok
    by (apply all_bytes; vm_compute; reflexivity).
  unfold quote_byte_ok in Hok.
  destruct (Urllib.quote_byte "+-" c) as [|p [|h1 [|h2 [|? ?]]]]; try done.
  - left. apply andb_true_iff in Hok as [[->%Ascii.eqb_eq Hp%negb_true_iff]%andb_true_iff Hs%negb_true_iff].
    done.
  - right. exists h1, h2.
    apply andb_true_iff in Hok as [[[->%Ascii.eqb_eq Hc%Ascii.eqb_eq]%andb_true_iff H1%negb_true_iff]%andb_true_iff H2%negb_true_iff].
    done.
Qed.

Lemma unquote_quote s : Unquote.unquote (Urllib.quote "+-" s) = s.
Proof.
  induction s as [|c r IH]; [done|]. cbn [Urllib.quote].
  destruct (quote_byte_cases c) as [(-> & Hc & _)|(h1 & h2 & -> & Hc & _)].
  - change (String c EmptyString +:+ ?t) with (String c t).
    by rewrite unquote_plain, IH.
  - change (String "%" (String h1 (String h2 EmptyString)) +:+ ?t)
      with (String "%" (String h1 (String h2 t))).
    cbn [Unquote.unquote]. change (Ascii.eqb "%" "%") with true. cbn iota.
    by rewrite Hc, IH.
Qed.

Lemma quote_inj s1 s2 :
  Urllib.quote "+-" s1 = Urllib.quote "+-" s2 → s1 = s2.
Proof.
  intros H. rewrite <- (unquote_quote s1), <- (unquote_quote s2). by rewrite H.
Qed.

Lemma quote_no_slash s : Urllib.mem "/" (Urllib.quote "+-" s) = false.
Proof.
  induction s as [|c r IH]; [done|]. cbn [Urllib.quote].
  destruct (quote_byte_cases c)
    as [(-> & _ & Hc)|(h1 & h2 & -> & _ & H1 & H2)].
  - change (String c EmptyString +:+ ?t) with (String c t).
    cbn [Urllib.mem]. by rewrite Ascii.eqb_sym, Hc, IH.
  - change (String "%" (String h1 (String h2 EmptyString)) +:+ ?t)
      with (String "%" (String h1 (String h2 t))).
    cbn [Urllib.mem].
    rewrite (Ascii.eqb_sym _ h1), (Ascii.eqb_sym _ h2), H1, H2, IH. done.
Qed.

Lemma path_join_relative a b :
  Urllib.mem "/" b = false → path_join a b = localname_base a +:+ b.
Proof.
  intros Hb. unfold path_join, localname_base.
  assert (starts_with_slash b = false) as ->.
  { destruct b as [|c r]; [done|]. cbn [Urllib.mem starts_with_slash] in *.
    apply orb_false_iff in Hb as [Hc _]. by rewrite Ascii.eqb_sym. }
  destruct (bool_decide (a = EmptyString) || ends_with_slash a); [done|].
  clear. induction a as [|d a IH]; [done|].
  rewrite !append_cons. by f_equal.
Qed.

End local_names.

(** C9. [default_localname] is injective: two shard identifiers with the
    same local path are the same identifier (so distinct identifiers get
    distinct paths); the local path is the base directory followed by the
    escaped identifier, which contains no path separator and from which the
    identifier is recovered by unquoting. *)
Theorem default_localname_injective (dldir shard1 shard2 : string) :
  (default_localname dldir shard1 = default_localname dldir shard2 ↔
   shard1 = shard2)
  ∧ default_localname dldir shard1
    = localname_base dldir +:+ Urllib.quote "+-" shard1
  ∧ Urllib.mem "/" (Urllib.quote "+-" shard1) = false
  ∧ Unquote.unquote (Urllib.quote "+-" shard1) = shard1.
Proof.
  assert (∀ s, default_localname dldir s
               = localname_base dldir +:+ Urllib.quote "+-" s) as Hpath.
  { intros s. unfold default_localname. apply path_join_relative, quote_no_slash. }
  split; [|split; [apply Hpath|split; [apply quote_no_slash|apply unquote_quote]]].
  split; [|by intros ->].
  rewrite !Hpath. intros H%(inj (String.append _)). by apply quote_inj.
Qed.

(** * The shard cache *)

Section shard_cache.

Context {V : Type}.
Implicit Types (c : LRUCache.t V) (k : string) (v : V).

Lemma assoc_is_Some k (l : list (string * V)) :
  is_Some (LRUCache.assoc k l) ↔ k ∈ l.*1.
Proof.
  induction l as [|[k' v'] l IH]; cbn [LRUCache.assoc fmap list_fmap fst].
  - split; [by intros [? ?]|by intros ?%elem_of_nil].
  - rewrite elem_of_cons. case_decide as Hk.
    + subst. split; [by left|by eexists].
    + rewrite IH. split; [by right|]. by intros [?|?]; [congruence|].
Qed.

Lemma contains_find c k :
  LRUCache.contains c k = true ↔ is_Some (LRUCache.find c k).
Proof.
  unfold LRUCache.contains, LRUCache.find.
  rewrite bool_decide_eq_true. symmetry. apply assoc_is_Some.
Qed.

Lemma find_setitem c k v :
  LRUCache.find (LRUCache.setitem c k v).1 k = Some v.
Proof.
  unfold LRUCache.setitem, LRUCache.find.
  destruct (decide _); [destruct (LRUCache.without k _)|];
    cbn [fst LRUCache.entries LRUCache.assoc]; by rewrite decide_True.
Qed.

End shard_cache.

(** * Steps of the shard cache *)

Section shard_cache_steps.

Variable download_and_open : string → string → result archive.

Implicit Types (c : LRUShards) (u : string) (itf : IndexedTarSamples).

Lemma assoc_elem {V} k (l : list (string * V)) v :
  LRUCache.assoc k l = Some v → (k, v) ∈ l.
Proof.
  induction l as [|[k' v'] l IH]; cbn [LRUCache.assoc]; [done|].
  case_decide as Hk.
  - intros [= ->]. subst. by left.
  - intros H. right. by apply IH.
Qed.

Lemma without_subseteq {V} k (l : list (string * V)) :
  LRUCache.without k l ⊆ l.
Proof. intros e He. unfold LRUCache.without in He. by apply list_elem_of_filter in He as [_ ?]. Qed.

Lemma without_not_in {V} k (l : list (string * V)) :
  k ∉ (LRUCache.without k l).*1.
Proof.
  intros ([k' v] & Hk & Hin)%list_elem_of_fmap. cbn in Hk. subst k'.
  unfold LRUCache.without in Hin. apply list_elem_of_filter in Hin as [Hne _].
  by apply Hne.
Qed.

Lemma removelast_subseteq {V} (l : list V) : removelast l ⊆ l.
Proof.
  induction l as [|x l IH]; [done|]. cbn [removelast].
  destruct l as [|y l]; [by apply list_subseteq_nil|].
  intros e [->|He]%elem_of_cons; [by left|]. right. by apply IH.
Qed.

Lemma setitem_entries {V} (c : LRUCache.t V) k v :
  ∃ rest, LRUCache.entries (LRUCache.setitem c k v).1 = (k, v) :: rest
          ∧ rest ⊆ LRUCache.without k (LRUCache.entries c)
          ∧ LRUCache.capacity (LRUCache.setitem c k v).1
            = LRUCache.capacity c.
Proof.
  unfold LRUCache.setitem.
  destruct (decide _); [destruct (LRUCache.without k _) as [|e r] eqn:Hw|];
    cbn [fst LRUCache.entries LRUCache.capacity].
  - exists []. by split.
  - exists (removelast (e :: r)). split; [done|]. split; [|done].
    apply removelast_subseteq.
  - eexists. by split.
Qed.

Lemma without_idem {V} k (l : list (string * V)) :
  LRUCache.without k (LRUCache.without k l) = LRUCache.without k l.
Proof.
  unfold LRUCache.without. induction l as [|e l IH]; [done|].
  rewrite filter_cons. case_decide.
  - rewrite filter_cons, decide_True by done. by rewrite IH.
  - done.
Qed.

Lemma without_id {V} k (l : list (string * V)) :
  k ∉ l.*1 → LRUCache.without k l = l.
Proof.
  unfold LRUCache.without. induction l as [|e l IH]; [done|].
  cbn [fmap list_fmap]. rewrite not_elem_of_cons. intros [Hne Hl].
  rewrite filter_cons, decide_True by done. by rewrite IH.
Qed.

(** A call on a shard that is in the pool. *)
Lemma LRUShards_get_shard_hit c u itf :
  LRUCache.find (lru c) u = Some itf →
  LRUShards_get_shard download_and_open c u
  = (([], Ok itf),
     MkLRUShards (localname c)
       (LRUCache.Make (LRUCache.capacity (lru c))
          ((u, itf) :: LRUCache.without u (LRUCache.entries (lru c))))
       (accesses c + 1) (misses c) (Some false)).
Proof.
  intros Hf. unfold LRUShards_get_shard. cbn zeta.
  cbn [lru localname accesses misses last_missed].
  rewrite (proj2 (contains_find (lru c) u)) by (by rewrite Hf).
  unfold LRUCache.getitem. cbn [lru]. rewrite Hf. done.
Qed.

Lemma find_None_contains c u :
  LRUCache.find (lru c) u = None → LRUCache.contains (lru c) u = false.
Proof.
  intros Hf. destruct (LRUCache.contains (lru c) u) eqn:Hc; [|done].
  apply contains_find in Hc as [? Hc]. congruence.
Qed.

(** A call on an absent shard whose fetch succeeds. *)
Lemma LRUShards_get_shard_miss c u out itf :
  LRUCache.find (lru c) u = None →
  fetch_shard download_and_open (localname c) u = (out, Ok itf) →
  ∃ rest,
    LRUShards_get_shard download_and_open c u
    = ((out, Ok itf),
       MkLRUShards (localname c)
         (LRUCache.Make (LRUCache.capacity (lru c)) ((u, itf) :: rest))
         (accesses c + 1) (misses c + 1) (Some true))
    ∧ rest ⊆ LRUCache.entries (lru c)
    ∧ u ∉ rest.*1.
Proof.
  intros Hf Hfetch. unfold LRUShards_get_shard. cbn zeta.
  cbn [lru localname accesses misses last_missed].
  rewrite (find_None_contains _ _ Hf).
  unfold fetch_shard in Hfetch. cbn zeta in Hfetch. rewrite Hfetch.
  unfold LRUCache.getitem. cbn [lru]. rewrite find_setitem.
  cbn [mbind option_bind].
  destruct (setitem_entries (lru c) u itf) as (rest & -> & Hsub & ->).
  exists rest.
  assert (u ∉ rest.*1) as Hnot.
  { intros ([k v] & Hk & Hin)%list_elem_of_fmap. cbn in Hk. subst k.
    apply Hsub in Hin. eapply without_not_in, list_elem_of_fmap.
    by exists (u, v). }
  split; [|split; [|done]].
  - unfold LRUCache.without at 1. rewrite filter_cons, decide_False
      by (cbn; intros H; by apply H).
    fold (LRUCache.without u rest). by rewrite without_id.
  - etransitivity; [exact Hsub|]. apply without_subseteq.
Qed.

(** A call on an absent shard whose fetch or indexing fails. *)
Lemma LRUShards_get_shard_fail c u out e :
  LRUCache.find (lru c) u = None →
  fetch_shard download_and_open (localname c) u = (out, Raise e) →
  LRUShards_get_shard download_and_open c u
  = ((out, Raise e),
     MkLRUShards (localname c) (lru c) (accesses c + 1) (misses c)
       (last_missed c)).
Proof.
  intros Hf Hfetch. unfold LRUShards_get_shard. cbn zeta.
  cbn [lru localname accesses misses last_missed].
  rewrite (find_None_contains _ _ Hf).
  unfold fetch_shard in Hfetch. cbn zeta in Hfetch. by rewrite Hfetch.
Qed.

Lemma find_head {V} k (v : V) cap rest :
  LRUCache.find (LRUCache.Make cap ((k, v) :: rest)) k = Some v.
Proof.
  unfold LRUCache.find. cbn [LRUCache.entries LRUCache.assoc].
  by rewrite decide_True.
Qed.

End shard_cache_steps.

(** C8 (claim as stated). A call of [LRUShards.get_shard] on a shard that
    is absent from the pool, whose fetch raises: the access is counted,
    the exception leaves the method before the miss is counted and before
    the flag is set. So an absent shard does not always give a counted
    miss. *)
Lemma get_shard_failed_fetch_counterexample :
  let c := LRUShards_init 1 (default_localname "/tmp/_wids_cache") in
  let res := LRUShards_get_shard no_fetch c "a.tar" in
  LRUCache.contains (lru c) "a.tar" = false
  ∧ res.1.2 = Raise FetchError
  ∧ accesses res.2 = (accesses c + 1)%Z
  ∧ misses res.2 = misses c
  ∧ misses res.2 ≠ (misses c + 1)%Z
  ∧ last_missed res.2 = None
  ∧ last_missed res.2 ≠ Some true.
Proof. vm_compute. repeat split; (reflexivity || discriminate). Qed.

(** C8 (amended). Every call of [LRUShards.get_shard] adds exactly one to
    the access counter. A call on a shard that is in the pool returns,
    clears the last-miss flag and leaves the miss counter unchanged. A call
    on a shard that is absent and whose fetch and indexing succeed prints
    what they print, adds exactly one to the miss counter and sets the
    flag; in a pool of capacity at least 1 it returns the shard fetched,
    which is then in the pool. A call on a shard that is absent and whose
    fetch or indexing raises ends with that exception, and changes neither
    the miss counter nor the flag nor the pool. So the miss counter grows
    by one exactly on an absent shard that is fetched and indexed;
    [misses <= accesses] is preserved by every call, and holds after any
    sequence of calls on a fresh cache or after [reset_stats], the access
    counter being the number of calls. *)
Theorem get_shard_counters
    (download_and_open : string → string → result archive)
    (c : LRUShards) (u : string) :
  let res := LRUShards_get_shard download_and_open c u in
  let c' := res.2 in
  let present := LRUCache.contains (lru c) u in
  let fetched := fetch_shard download_and_open (localname c) u in
  accesses c' = (accesses c + 1)%Z
  ∧ (present = true →
       is_ok res.1.2 = true
       ∧ misses c' = misses c ∧ last_missed c' = Some false)
  ∧ (present = false → is_ok fetched.2 = true →
       res.1.1 = fetched.1
       ∧ misses c' = (misses c + 1)%Z ∧ last_missed c' = Some true
       ∧ ((1 ≤ LRUCache.capacity (lru c))%Z →
            res.1.2 = fetched.2
            ∧ LRUCache.contains (lru c') u = true))
  ∧ (present = false → is_ok fetched.2 = false →
       res.1 = fetched
       ∧ misses c' = misses c
       ∧ last_missed c' = last_missed c ∧ lru c' = lru c)
  ∧ (misses c' = (misses c + 1)%Z
     ↔ present = false ∧ is_ok fetched.2 = true)
  ∧ ((misses c ≤ accesses c)%Z → (misses c' ≤ accesses c')%Z)
  ∧ (∀ num_shards lname urls,
       let c1 := LRUShards_get_all download_and_open
                   (LRUShards_init num_shards lname) urls in
       (0 ≤ misses c1 ≤ accesses c1)%Z
       ∧ accesses c1 = Z.of_nat (length urls))
  ∧ (∀ urls,
       let c1 := LRUShards_get_all download_and_open (reset_stats c) urls in
       (0 ≤ misses c1 ≤ accesses c1)%Z
       ∧ accesses c1 = Z.of_nat (length urls)).
Proof.
  assert (∀ c u,
    let res := LRUShards_get_shard download_and_open c u in
    let c' := res.2 in
    let present := LRUCache.contains (lru c) u in
    let fetched := fetch_shard download_and_open (localname c) u in
    accesses c' = (accesses c + 1)%Z
    ∧ (present = true →
         is_ok res.1.2 = true
         ∧ misses c' = misses c ∧ last_missed c' = Some false)
    ∧ (present = false → is_ok fetched.2 = true →
         res.1 = fetched
         ∧ misses c' = (misses c + 1)%Z ∧ last_missed c' = Some true
         ∧ LRUCache.contains (lru c') u = true)
    ∧ (present = false → is_ok fetched.2 = false →
         res.1 = fetched
         ∧ misses c' = misses c
         ∧ last_missed c' = last_missed c ∧ lru c' = lru c)) as Hstep.
  { clear c u. intros c u res c' present fetched.
    destruct (LRUCache.find (lru c) u) as [itf|] eqn:Hfind.
    - assert (present = true) as Hp
        by (apply contains_find; by rewrite Hfind).
      subst res c'.
      rewrite (LRUShards_get_shard_hit download_and_open c u itf Hfind).
      cbn [fst snd accesses misses last_missed is_ok]. rewrite Hp.
      repeat split; done.
    - assert (present = false) as Hp by (by apply find_None_contains).
      rewrite Hp. destruct fetched as [out [itf|e]] eqn:Hfetch.
      + destruct (LRUShards_get_shard_miss download_and_open c u out itf
                    Hfind Hfetch) as (rest & Hres & _).
        subst res c'. rewrite Hres.
        cbn [fst snd accesses misses last_missed lru is_ok].
        split; [done|]. split; [done|]. split; [|done].
        intros _ _. split; [done|]. split; [done|]. split; [done|].
        apply contains_find. by rewrite find_head.
      + subst res c'.
        rewrite (LRUShards_get_shard_fail download_and_open c u out e
                   Hfind Hfetch).
        cbn [fst snd accesses misses last_missed lru is_ok].
        repeat split; done. }
  intros res c' present fetched.
  destruct (Hstep c u) as (Hacc & Hhit & Hmiss & Hraise).
  fold res c' present fetched in Hacc, Hhit, Hmiss, Hraise.
  split; [done|]. split; [done|].
  split.
  { intros Hp Hok. destruct (Hmiss Hp Hok) as (Hres & Hm & Hl & Hin).
    rewrite Hres. by repeat split. }
  split; [done|].
  split.
  { destruct present eqn:Hp.
    - destruct (Hhit eq_refl) as (_ & Hm & _). rewrite Hm.
      split; [lia|by intros [? _]].
    - destruct (is_ok fetched.2) eqn:Hok.
      + by destruct (Hmiss eq_refl eq_refl) as (_ & Hm & _).
      + destruct (Hraise eq_refl eq_refl) as (_ & Hm & _). rewrite Hm.
        split; [lia|by intros [_ ?]]. }
  assert (∀ c u,
    let c' := (LRUShards_get_shard download_and_open c u).2 in
    accesses c' = (accesses c + 1)%Z
    ∧ (misses c ≤ misses c' ≤ misses c + 1)%Z) as Hbound.
  { clear -Hstep. intros c u c'.
    destruct (Hstep c u) as (Hacc & Hhit & Hmiss & Hraise).
    split; [done|]. fold c'.
    destruct (LRUCache.contains (lru c) u).
    - destruct (Hhit eq_refl) as (_ & Hm & _). fold c' in Hm. lia.
    - destruct (is_ok (fetch_shard download_and_open (localname c) u).2).
      + destruct (Hmiss eq_refl eq_refl) as (_ & Hm & _). fold c' in Hm. lia.
      + destruct (Hraise eq_refl eq_refl) as (_ & Hm & _). fold c' in Hm.
        lia. }
  split.
  { intros Hle. destruct (Hbound c u) as [Ha Hm]. fold res c' in Ha, Hm. lia. }
  assert (∀ urls c0, (0 ≤ misses c0 ≤ accesses c0)%Z →
     let c1 := LRUShards_get_all download_and_open c0 urls in
     (0 ≤ misses c1 ≤ accesses c1)%Z
     ∧ accesses c1 = (accesses c0 + Z.of_nat (length urls))%Z) as Hall.
  { clear -Hbound. intros urls.
    induction urls as [|u' rest IH]; intros c0 Hc0.
    - cbn. split; [done|lia].
    - cbn [LRUShards_get_all length].
      destruct (Hbound c0 u') as [Ha Hm]. cbn zeta in Ha, Hm.
      set (r := LRUShards_get_shard download_and_open c0 u') in *.
      destruct (IH r.2) as [Hinv Hn]; [lia|].
      split; [done|]. lia. }
  split.
  - intros num_shards lname urls.
    destruct (Hall urls (LRUShards_init num_shards lname)) as [Hinv Hn];
      [cbn; lia|].
    split; [done|]. by rewrite Hn.
  - intros urls.
    destruct (Hall urls (reset_stats c)) as [Hinv Hn]; [cbn; lia|].
    split; [done|]. by rewrite Hn.
Qed.

Lemma get_shard_counters_witness :
  (accesses (LRUShards_get_shard rr_fetch
               (LRUShards_init 1 (default_localname "/tmp/_wids_cache"))
               "a.tar").2 = 1
   ∧ misses (LRUShards_get_shard rr_fetch
               (LRUShards_init 1 (default_localname "/tmp/_wids_cache"))
               "a.tar").2 = 1
   ∧ last_missed (LRUShards_get_shard rr_fetch
                    (LRUShards_init 1 (default_localname "/tmp/_wids_cache"))
                    "a.tar").2 = Some true)%Z
  ∧ (misses (LRUShards_get_shard rr_fetch
               (LRUShards_get_shard rr_fetch
                  (LRUShards_init 1 (default_localname "/tmp/_wids_cache"))
                  "a.tar").2 "a.tar").2 = 1
     ∧ last_missed (LRUShards_get_shard rr_fetch
                      (LRUShards_get_shard rr_fetch
                         (LRUShards_init 1
                            (default_localname "/tmp/_wids_cache"))
                         "a.tar").2 "a.tar").2 = Some false)%Z.
Proof.
  set (c0 := LRUShards_init 1 (default_localname "/tmp/_wids_cache")).
  set (c1 := (LRUShards_get_shard rr_fetch c0 "a.tar").2).
  pose proof (get_shard_counters rr_fetch c0 "a.tar")
    as (Ha1 & _ & Hmiss & _).
  destruct (Hmiss ltac:(vm_compute; reflexivity)
              ltac:(vm_compute; reflexivity)) as (_ & Hm1 & Hl1 & Hin).
  fold c1 in Ha1, Hm1, Hl1, Hin.
  pose proof (get_shard_counters rr_fetch c1 "a.tar") as (_ & Hhit & _).
  destruct (Hhit (proj2 (Hin ltac:(cbn; lia)))) as (_ & Hm2 & Hl2).
  split; [by repeat split|].
  rewrite Hm2, Hm1. by split.
Defined.

(** * The cache-health check *)

Section cache_health.

Variable download_and_open : string → string → result archive.

Local Abbreviation getitem := (ShardListDataset_getitem download_and_open).
Local Abbreviation trace := (access_trace download_and_open).
Local Abbreviation fetch := (fetch_sample download_and_open).
Local Abbreviation fires_at := (fires download_and_open).

Lemma count_miss_warnings_app o1 o2 :
  count_miss_warnings (o1 ++ o2)
  = (count_miss_warnings o1 + count_miss_warnings o2)%nat.
Proof. unfold count_miss_warnings. by rewrite filter_app, length_app. Qed.

Lemma group_loop_quiet names i g :
  count_miss_warnings (group_loop i names g).1 = 0%nat.
Proof.
  revert i g. induction names as [|fname rest IH]; intros i g; [done|].
  cbn [group_loop]. unfold group_step.
  destruct (has_dot fname); cbn [negb].
  - destruct (splitname fname) as [[key ext]|err];
      cbn [plift mbind result_bind pbind]; [|done].
    specialize (IH (S i)
      (Grouping
         (groups (if decide (Some key ≠ last_key g)
                  then Grouping (flush g) (Some key) [] else g))
         (last_key (if decide (Some key ≠ last_key g)
                    then Grouping (flush g) (Some key) [] else g))
         (current (if decide (Some key ≠ last_key g)
                   then Grouping (flush g) (Some key) [] else g) ++ [i]))).
    destruct (group_loop _ _ _) as [out r]. done.
  - cbn [pbind]. specialize (IH (S i) g).
    destruct (group_loop _ _ _) as [out r]. done.
Qed.

Lemma its_init_quiet tar p m n :
  count_miss_warnings (IndexedTarSamples_init tar p m n).1 = 0%nat.
Proof.
  unfold IndexedTarSamples_init, group_by_key.
  destruct (path_is_str p); cbn [py_assert plift pbind]; [|done].
  pose proof (group_loop_quiet (names tar) 0 (Grouping [] None [])) as H.
  destruct (group_loop _ _ _) as [out [g|e]]; cbn [pbind plift fst] in *;
    [|done].
  by rewrite ?app_nil_r.
Qed.

Lemma LRUShards_get_shard_quiet c u :
  count_miss_warnings (LRUShards_get_shard download_and_open c u).1.1 = 0%nat.
Proof.
  unfold LRUShards_get_shard.
  destruct (LRUCache.contains _ _).
  - by destruct (LRUCache.getitem _ _) as [[v l]|].
  - destruct (download_and_open _ _) as [stream|e]; cbn [plift pbind]; [|done].
    pose proof (its_init_quiet stream (Some (localname c u)) None None) as H.
    destruct (IndexedTarSamples_init stream _ None None) as [out [itf|e]];
      cbn [fst] in *; [|done].
    by destruct (LRUCache.getitem _ _) as [[v l]|].
Qed.

(** Reading the sample prints no cache-health warning and leaves the
    check as it was. *)
Lemma fetch_sample_quiet ds i :
  count_miss_warnings (fetch ds i).1.1 = 0%nat
  ∧ check_enabled (fetch ds i).2 = check_enabled ds.
Proof.
  unfold fetch_sample, get_shard.
  destruct (locate _ _) as [shard_idx inner_idx].
  destruct (shards ds !! shard_idx) as [desc|]; [|done].
  pose proof (LRUShards_get_shard_quiet (cache ds) (url desc)) as H.
  destruct (LRUShards_get_shard _ _ _) as [[out [shard|e]] c];
    cbn [fst snd] in *; [|done].
  by destruct (its_getitem shard inner_idx).
Qed.

(** One access: it prints the warning exactly when [fires] says so, and
    then the check is off. *)
Lemma getitem_fires ds i :
  count_miss_warnings (getitem ds i).1.1 = (if fires_at ds i then 1 else 0)%nat
  ∧ check_enabled (getitem ds i).2 = check_enabled ds && negb (fires_at ds i).
Proof.
  unfold fires, reaches_check, stats_after, ShardListDataset_getitem.
  destruct (fetch_sample_quiet ds i) as [Hq He].
  destruct (fetch ds i) as [[out [[[smp inner_idx] desc]|e]] ds1];
    cbn [fst snd is_ok] in *.
  - unfold check_cache_misses, get_stats. rewrite He.
    destruct (check_enabled ds); cbn [andb].
    + destruct (miss_rate_high _ _); cbn [fst snd negb].
      * rewrite count_miss_warnings_app, Hq. done.
      * rewrite count_miss_warnings_app, Hq. done.
    + cbn [fst snd]. rewrite count_miss_warnings_app, Hq. done.
  - rewrite andb_false_r, He, Hq. cbn. by rewrite andb_true_r.
Qed.

Lemma trace_at_most_once ds indexes :
  (total_miss_warnings (trace ds indexes)
   ≤ if check_enabled ds then 1 else 0)%nat.
Proof.
  revert ds. induction indexes as [|i rest IH]; intros ds.
  - cbn. destruct (check_enabled ds); lia.
  - cbn [access_trace]. unfold total_miss_warnings in *.
    cbn [fmap list_fmap sum_list sum_list_with]. cbn beta zeta.
    destruct (getitem_fires ds i) as [Hc He]. rewrite Hc.
    specialize (IH (getitem ds i).2). rewrite He in IH.
    destruct (fires_at ds i) eqn:Hf.
    + rewrite andb_false_r in IH.
      unfold fires in Hf. apply andb_true_iff in Hf as [[-> _]%andb_true_iff _].
      cbn in *. lia.
    + rewrite andb_true_r in IH. cbn in *. lia.
Qed.

Lemma disabled_stays ds indexes :
  check_enabled ds = false →
  check_enabled (final_state download_and_open ds indexes) = false
  ∧ total_miss_warnings (trace ds indexes) = 0%nat.
Proof.
  intros Hd. split.
  - revert ds Hd. induction indexes as [|i rest IH]; intros ds Hd; [done|].
    cbn [final_state]. apply IH.
    destruct (getitem_fires ds i) as [_ ->]. by rewrite Hd.
  - pose proof (trace_at_most_once ds indexes) as H. rewrite Hd in H. lia.
Qed.

(** The float test against the exact ratio. *)
Lemma miss_rate_high_exact a m :
  (0 ≤ m → a < 2 ^ 52 →
   miss_rate_high a m = true ↔ 100 < a ∧ 3 * a < 10 * m)%Z.
Proof.
  intros Hm Ha. unfold miss_rate_high, ratio_gt_03.
  rewrite andb_true_iff, !bool_decide_eq_true.
  change (2 ^ 52)%Z with 4503599627370496%Z in Ha.
  change (2 ^ 55)%Z with 36028797018963968%Z.
  lia.
Qed.

Lemma only_at_S k n :
  only_at (S <$> k) (S n) = 0%nat :: only_at k n.
Proof.
  unfold only_at. cbn [seq fmap list_fmap].
  f_equal; [destruct k; by rewrite bool_decide_eq_false_2|].
  rewrite <- fmap_S_seq, <- list_fmap_compose. apply list_fmap_ext.
  intros _ j _. cbn. destruct k as [k|]; cbn.
  - destruct (decide (k = j)) as [->|Hne].
    + by rewrite !bool_decide_eq_true_2.
    + rewrite !bool_decide_eq_false_2; congruence.
  - by rewrite !bool_decide_eq_false_2.
Qed.

Lemma only_at_0 n : only_at (Some 0%nat) (S n) = 1%nat :: replicate n 0%nat.
Proof.
  unfold only_at. cbn [seq fmap list_fmap]. f_equal.
  assert (∀ m, (0 < m)%nat →
    (λ j, if bool_decide (Some 0%nat = Some j) then 1%nat else 0%nat)
      <$> seq m n = replicate n 0%nat) as H; [|apply H; lia].
  induction n as [|n IH]; intros m Hm; [done|].
  cbn [seq fmap list_fmap replicate]. rewrite IH by lia. f_equal.
  rewrite bool_decide_eq_false_2; [done|]. intros [= <-]. lia.
Qed.

Lemma disabled_counts ds indexes :
  check_enabled ds = false →
  warning_counts (trace ds indexes) = replicate (length indexes) 0%nat.
Proof.
  revert ds. induction indexes as [|i rest IH]; intros ds Hd; [done|].
  cbn [access_trace]. unfold warning_counts in *.
  cbn [fmap list_fmap length replicate]. cbn beta zeta.
  destruct (getitem_fires ds i) as [Hc He].
  assert (fires_at ds i = false) as Hf by (unfold fires; by rewrite Hd).
  rewrite Hc, Hf, IH; [done|]. by rewrite He, Hd.
Qed.

(** With the check on, the warning is printed by the first access that
    gets as far as the check with the counters past the thresholds, and
    by no other. *)
Lemma enabled_counts ds indexes :
  check_enabled ds = true →
  warning_counts (trace ds indexes)
  = only_at (first_past download_and_open ds indexes) (length indexes).
Proof.
  revert ds. induction indexes as [|i rest IH]; intros ds Hen; [done|].
  cbn [access_trace first_past length].
  destruct (getitem_fires ds i) as [Hc He].
  assert (fires_at ds i = past_thresholds download_and_open ds i) as Hf.
  { unfold fires, past_thresholds. by rewrite Hen. }
  rewrite Hf in Hc, He. rewrite Hen in He.
  unfold warning_counts at 1. cbn [fmap list_fmap]. cbn beta zeta.
  fold (warning_counts (trace (getitem ds i).2 rest)).
  rewrite Hc. destruct (past_thresholds download_and_open ds i).
  - rewrite only_at_0, disabled_counts by done. done.
  - rewrite only_at_S, IH by done. done.
Qed.

Lemma first_past_disables ds indexes k :
  check_enabled ds = true →
  first_past download_and_open ds indexes = Some k →
  check_enabled (final_state download_and_open ds (take (S k) indexes)) = false.
Proof.
  revert ds k. induction indexes as [|i rest IH]; intros ds k Hen; [done|].
  cbn [first_past take final_state].
  destruct (getitem_fires ds i) as [_ He].
  assert (fires_at ds i = past_thresholds download_and_open ds i) as Hf.
  { unfold fires, past_thresholds. by rewrite Hen. }
  rewrite Hf, Hen in He.
  destruct (past_thresholds download_and_open ds i).
  - intros [= <-]. by rewrite take_0.
  - destruct (first_past _ _ rest) as [k'|] eqn:Hk; [|done].
    intros [= <-]. by apply IH.
Qed.

(** An access that does not get as far as the check raises and prints
    no warning. *)
Lemma unreached_check_silent ds i :
  reaches_check download_and_open ds i = false →
  fires_at ds i = false ∧ is_ok (getitem ds i).1.2 = false.
Proof.
  unfold fires, reaches_check, ShardListDataset_getitem. intros Hr.
  rewrite Hr, andb_false_r. split; [done|].
  by destruct (fetch ds i) as [[out [[[smp inner_idx] desc]|e]] ds1].
Qed.

End cache_health.

(** C7 (claim as stated). A capacity-1 dataset of three shards, the last
    of which is declared with two samples and holds one. After a hundred
    accesses in round-robin order the counters are at (100, 100). The next
    access, at index 3, misses on the third shard, which takes the
    counters to (101, 101): more than 100 accesses and a miss ratio of 1.
    But reading the sample raises [IndexError], the check is not reached
    and nothing is printed. The warning is printed by the access that
    follows. *)
Lemma warning_after_failed_access_counterexample :
  ShardListDataset_init (λ s, s) short_shards 1 None None
    (Some (default_localname "/tmp/_wids_cache")) [] None = Ok short_dataset
  ∧ get_stats (final_state rr_fetch short_dataset (take 100 short_indexes))
    = (100, 100)%Z
  ∧ miss_rate_high 100 100 = false
  ∧ short_indexes !! 100%nat = Some 3%Z
  ∧ (ShardListDataset_getitem rr_fetch
       (final_state rr_fetch short_dataset (take 100 short_indexes)) 3).1
    = ([], Raise IndexError)
  ∧ get_stats (final_state rr_fetch short_dataset (take 101 short_indexes))
    = (101, 101)%Z
  ∧ miss_rate_high 101 101 = true
  ∧ warning_counts (access_trace rr_fetch short_dataset short_indexes)
    = replicate 101 0%nat ++ [1%nat].
Proof.
  split; [reflexivity|].
  repeat split; vm_compute; reflexivity.
Qed.

(** C7 (amended). Over any sequence of accesses to a dataset instance the
    cache-health warning is printed at most once. In a dataset whose pool
    has a capacity of at least 1, an access prints it exactly when the
    check is still on, the access got as far as the check (the shard was
    found and the sample read), and the counters then have more than 100
    accesses and a miss ratio above the float 0.3 (which is the exact ratio
    3/10 below 2^52 accesses); it then turns the check off. So with the
    check on, the warning is printed by the first access that reaches the
    check with the counters past the thresholds and by no other access; an
    access that raises before the check prints nothing, wherever it has
    taken the counters. Once the check is off it stays off and nothing
    more is printed. *)
Theorem cache_warning_at_most_once
    (download_and_open : string → string → result archive)
    (ds : ShardListDataset) (indexes : list Z) :
  let tr := access_trace download_and_open ds indexes in
  (total_miss_warnings tr ≤ 1)%nat
  ∧ ((1 ≤ LRUCache.capacity (lru (cache ds)))%Z →
     check_enabled ds = true →
       warning_counts tr
       = only_at (first_past download_and_open ds indexes) (length indexes))
  ∧ ((1 ≤ LRUCache.capacity (lru (cache ds)))%Z →
     check_enabled ds = true →
       ∀ k, first_past download_and_open ds indexes = Some k →
         check_enabled
           (final_state download_and_open ds (take (S k) indexes)) = false)
  ∧ (check_enabled ds = false →
       warning_counts tr = replicate (length indexes) 0%nat
       ∧ check_enabled (final_state download_and_open ds indexes) = false)
  ∧ ((1 ≤ LRUCache.capacity (lru (cache ds)))%Z →
     ∀ i, let e := ShardListDataset_getitem download_and_open ds i in
       count_miss_warnings e.1.1
       = (if fires download_and_open ds i then 1 else 0)%nat
       ∧ check_enabled e.2
         = check_enabled ds && negb (fires download_and_open ds i)
       ∧ fires download_and_open ds i
         = check_enabled ds && past_thresholds download_and_open ds i
       ∧ (reaches_check download_and_open ds i = false →
            is_ok e.1.2 = false
            ∧ count_miss_warnings e.1.1 = 0%nat
            ∧ check_enabled e.2 = check_enabled ds))
  ∧ (∀ a m, 0 ≤ m → a < 2 ^ 52 →
       miss_rate_high a m = true ↔ 100 < a ∧ 3 * a < 10 * m)%Z.
Proof.
  intros tr.
  split.
  { pose proof (trace_at_most_once download_and_open ds indexes) as H.
    fold tr in H. destruct (check_enabled ds); lia. }
  split; [intros _; apply enabled_counts|].
  split; [intros _ Hen k; by apply first_past_disables|].
  split.
  { intros Hd. split; [by apply disabled_counts|].
    by apply disabled_stays. }
  split.
  { intros _ i e. destruct (getitem_fires download_and_open ds i) as [Hc He].
    split; [done|]. split; [done|].
    split; [unfold fires, past_thresholds; by rewrite andb_assoc|].
    intros Hreach. fold e in Hc, He.
    destruct (unreached_check_silent download_and_open ds i Hreach)
      as [Hf Hraise].
    rewrite Hf in Hc, He. split; [done|]. split; [done|].
    by rewrite andb_true_r in He. }
  intros a m. apply miss_rate_high_exact.
Qed.

Lemma cache_warning_at_most_once_witness :
  warning_counts (access_trace rr_fetch rr_dataset rr_indexes)
  = replicate 100 0%nat ++ [1%nat; 0%nat]
  ∧ check_enabled (final_state rr_fetch rr_dataset rr_indexes) = false.
Proof.
  pose proof (cache_warning_at_most_once rr_fetch rr_dataset rr_indexes)
    as (_ & Hcounts & Hoff & _).
  assert (1 ≤ LRUCache.capacity (lru (cache rr_dataset)))%Z as Hcap
    by (cbn; lia).
  split.
  - etransitivity; [exact (Hcounts Hcap eq_refl)|]. vm_compute. reflexivity.
  - etransitivity;
      [|exact (Hoff Hcap eq_refl 100%nat ltac:(vm_compute; reflexivity))].
    vm_compute. reflexivity.
Defined.

(** * Indices out of range *)

Section out_of_range.

Local Open Scope Z_scope.





End out_of_range.




(** * The sampler *)

Section sampler_facts.

Variable rng : Type.
Variable Random : Z → rng.
Variable randbelow : rng → Z → Z * rng.

(** The contract of [_randbelow]: a draw below [n] is in [[0, n)]. *)
Hypothesis randbelow_range :
  ∀ g n, (0 < n)%Z → (0 ≤ (randbelow g n).1 < n)%Z.

Local Open Scope Z_scope.

Lemma py_index_nat {A} (x : list A) (i : nat) a :
  x !! i = Some a → py_index x (Z.of_nat i) = Ok a.
Proof.
  intros Hi. unfold py_index. cbn zeta.
  destruct (decide (Z.of_nat i < 0)); [lia|].
  destruct (decide (0 ≤ Z.of_nat i)); [|lia].
  by rewrite Nat2Z.id, Hi.
Qed.

Lemma py_setitem_nat {A} (x : list A) (i : nat) a :
  (i < length x)%nat → py_setitem x (Z.of_nat i) a = Ok (<[i := a]> x).
Proof.
  intros Hi. unfold py_setitem. cbn zeta.
  destruct (decide (Z.of_nat i < 0)); [lia|].
  rewrite decide_True by lia. by rewrite Nat2Z.id.
Qed.

Lemma py_swap_perm {A} (x : list A) (i j : nat) :
  (i < length x)%nat → (j < length x)%nat →
  ∃ x', py_swap x (Z.of_nat i) (Z.of_nat j) = Ok x'
        ∧ x' ≡ₚ x ∧ length x' = length x.
Proof.
  intros Hi Hj. unfold py_swap.
  destruct (lookup_lt_is_Some_2 x i Hi) as [b Hb].
  destruct (lookup_lt_is_Some_2 x j Hj) as [a Ha].
  rewrite (py_index_nat _ _ _ Ha). cbn [mbind result_bind].
  rewrite (py_index_nat _ _ _ Hb). cbn [mbind result_bind].
  rewrite py_setitem_nat by done. cbn [mbind result_bind].
  rewrite py_setitem_nat by (by rewrite length_insert).
  eexists. split; [done|]. split.
  - by apply Permutation_insert_swap.
  - by rewrite !length_insert.
Qed.

Lemma shuffle_from_perm {A} (i : nat) g (x : list A) :
  (i < length x)%nat ∨ (i = 0%nat) →
  ∃ x' g', shuffle_from randbelow i g x = (Ok x', g') ∧ x' ≡ₚ x.
Proof using randbelow_range.
  revert g x. induction i as [|i IH]; intros g x Hi.
  - by exists x, g.
  - destruct Hi as [Hi|?]; [|done]. cbn [shuffle_from].
    pose proof (randbelow_range g (Z.of_nat (S i) + 1) ltac:(lia)) as Hj.
    destruct (randbelow g (Z.of_nat (S i) + 1)) as [j g'] eqn:Hr.
    cbn [fst] in Hj.
    destruct (py_swap_perm x (S i) (Z.to_nat j)) as (x' & Hsw & Hp & Hlen);
      [lia|lia|].
    rewrite Z2Nat.id in Hsw by lia. rewrite Hsw.
    destruct (IH g' x') as (x'' & g'' & Hsh & Hp'); [left; lia|].
    exists x'', g''. split; [done|]. by rewrite Hp'.
Qed.

Lemma shuffle_perm {A} g (x : list A) :
  ∃ x' g', shuffle randbelow g x = (Ok x', g') ∧ x' ≡ₚ x.
Proof using randbelow_range.
  unfold shuffle. apply shuffle_from_perm.
  destruct x; cbn [length]; [by right|left; lia].
Qed.

(** The index ranges of the shards, in shard order, make up [0, total). *)
Lemma make_ranges_concat start lens :
  Forall (λ l, 0 ≤ l) lens →
  concat ((λ r, py_range r.1 r.2) <$> make_ranges start lens)
  = seqZ start (sumZ lens).
Proof.
  intros Hl. revert start.
  induction Hl as [|l lens Hl0 Hl IH]; intros start; [done|].
  cbn [make_ranges fmap list_fmap concat fst snd sumZ foldr].
  fold (sumZ lens). pose proof (sumZ_nonneg lens Hl).
  rewrite IH, seqZ_app by lia. unfold py_range. do 2 f_equal. lia.
Qed.

Lemma make_ranges_length start lens :
  length (make_ranges start lens) = length lens.
Proof. revert start. induction lens; intros; cbn; auto. Qed.

Lemma concat_fmap_perm {A B} (f : A → list B) (l1 l2 : list A) :
  l1 ≡ₚ l2 → concat (f <$> l1) ≡ₚ concat (f <$> l2).
Proof.
  induction 1 as [|x l1 l2 _ IH|x y l|l1 l2 l3 _ IH1 _ IH2]; cbn.
  - done.
  - by rewrite IH.
  - by rewrite !app_assoc, (Permutation_app_comm (f y)).
  - by etransitivity.
Qed.

(** The loop over the shards yields one block per shard of [shardperm],
    each block a permutation of that shard's range. *)
Lemma yield_shards_blocks (rs : list (Z * Z)) (shardperm : list nat) g :
  Forall (λ sh, (sh < length rs)%nat) shardperm →
  ∃ out g' blocks,
    yield_shards randbelow rs (Z.of_nat <$> shardperm) g = (Ok out, g')
    ∧ out = concat blocks
    ∧ Forall2 (λ sh blk, ∃ r, rs !! sh = Some r ∧ blk ≡ₚ py_range r.1 r.2)
        shardperm blocks.
Proof using randbelow_range.
  intros Hall. revert g.
  induction Hall as [|sh rest Hsh Hrest IH]; intros g.
  - exists [], g, []. by repeat split.
  - cbn [fmap list_fmap yield_shards].
    destruct (lookup_lt_is_Some_2 rs sh Hsh) as [[a b] Hr].
    rewrite (py_index_nat _ _ _ Hr).
    destruct (shuffle_perm g (py_range a b)) as (blk & g1 & -> & Hblk).
    destruct (IH g1) as (out & g2 & blocks & -> & -> & Hf).
    exists (blk ++ concat blocks), g2, (blk :: blocks).
    split; [done|]. split; [done|].
    constructor; [|done]. by exists (a, b).
Qed.

Lemma blocks_perm (rs : list (Z * Z)) (shardperm : list nat) blocks :
  Forall2 (λ sh blk, ∃ r, rs !! sh = Some r ∧ blk ≡ₚ py_range r.1 r.2)
    shardperm blocks →
  concat blocks
  ≡ₚ concat ((λ sh, from_option (λ r, py_range r.1 r.2) [] (rs !! sh))
               <$> shardperm).
Proof.
  induction 1 as [|sh blk shardperm blocks (r & Hr & Hblk) _ IH]; [done|].
  cbn. by rewrite Hr, IH, Hblk.
Qed.

Lemma ranges_by_position (rs : list (Z * Z)) :
  (λ sh, from_option (λ r, py_range r.1 r.2) [] (rs !! sh))
    <$> seq 0 (length rs)
  = (λ r, py_range r.1 r.2) <$> rs.
Proof.
  induction rs as [|r rs IH] using rev_ind; [done|].
  rewrite length_app, Nat.add_1_r, seq_S, !fmap_app. cbn.
  rewrite lookup_app_r, Nat.sub_diag by done. cbn. f_equal.
  rewrite <- IH. apply list_fmap_ext. intros i sh Hsh.
  apply lookup_seq in Hsh as [-> Hlt]. cbn.
  by rewrite lookup_app_l by done.
Qed.

Lemma py_range_nat n :
  py_range 0 (Z.of_nat n) = Z.of_nat <$> seq 0 n.
Proof.
  unfold py_range, seqZ. rewrite Z.sub_0_r, Nat2Z.id.
  apply list_fmap_ext. intros _ i _. lia.
Qed.

Lemma perm_of_nat (l : list Z) n :
  l ≡ₚ Z.of_nat <$> seq 0 n →
  ∃ l', l = Z.of_nat <$> l' ∧ l' ≡ₚ seq 0 n.
Proof.
  intros Hp. exists (Z.to_nat <$> l). split.
  - rewrite <- list_fmap_compose. symmetry.
    rewrite <- (list_fmap_id l) at 2. apply list_fmap_ext.
    intros i z Hz. cbn.
    assert (z ∈ Z.of_nat <$> seq 0 n) as Hin.
    { rewrite <- Hp. by eapply list_elem_of_lookup_2. }
    apply list_elem_of_fmap in Hin as (k & Hk & _). rewrite Hk. lia.
  - rewrite Hp, <- list_fmap_compose.
    rewrite <- (list_fmap_id (seq 0 n)) at 2. apply Permutation_refl'.
    apply list_fmap_ext. intros _ k _. cbn. lia.
Qed.

End sampler_facts.

(** C5. Whatever the generator draws (within the bounds of its contract),
    for every list of non-negative lengths, every seed, every epoch and
    either value of [shufflefirst], one full traversal of the sampler
    completes and yields a permutation of [[0, total)]: every index exactly
    once. The output is a sequence of blocks, one per shard in the order of
    the (possibly shuffled) shard list, each block a permutation of its
    shard's range: the indices of a shard are contiguous in the output. The
    traversal increments the epoch counter. *)
Theorem sampler_iter_permutation (rng : Type) (Random : Z → rng)
    (randbelow : rng → Z → Z * rng) (lens : list Z)
    (s : ShardListSampler rng) :
  (∀ g n, (0 < n)%Z → (0 ≤ (randbelow g n).1 < n)%Z) →
  Forall (λ l, (0 ≤ l)%Z) lens →
  ranges s = make_ranges 0 lens →
  ∃ out s' shardperm blocks,
    sampler_iter Random randbelow s = (Ok out, s')
    ∧ out ≡ₚ seqZ 0 (sumZ lens)
    ∧ NoDup out
    ∧ out = concat blocks
    ∧ shardperm ≡ₚ seq 0 (length lens)
    ∧ Forall2 (λ sh blk, ∃ r, ranges s !! sh = Some r
                              ∧ blk ≡ₚ py_range r.1 r.2) shardperm blocks
    ∧ epoch s' = (epoch s + 1)%Z
    ∧ ranges s' = ranges s ∧ seed s' = seed s
    ∧ shufflefirst s' = shufflefirst s.
Proof.
  intros Hrb Hl Hr. unfold sampler_iter.
  set (g0 := Random _). set (n := length (ranges s)).
  assert (n = length lens) as Hn
    by (subst n; by rewrite Hr, make_ranges_length).
  assert (∃ sp g1,
    (if bool_decide (0 < epoch s)%Z || shufflefirst s
     then shuffle randbelow g0 (py_range 0 (Z.of_nat n))
     else (Ok (py_range 0 (Z.of_nat n)), g0)) = (Ok (Z.of_nat <$> sp), g1)
    ∧ sp ≡ₚ seq 0 n) as (sp & g1 & -> & Hsp).
  { destruct (bool_decide (0 < epoch s)%Z || shufflefirst s).
    - destruct (shuffle_perm rng randbelow Hrb g0 (py_range 0 (Z.of_nat n)))
        as (x & g1 & -> & Hx).
      rewrite py_range_nat in Hx.
      destruct (perm_of_nat _ _ Hx) as (sp & -> & Hsp). by exists sp, g1.
    - exists (seq 0 n), g0. by rewrite py_range_nat. }
  assert (Forall (λ sh, (sh < length (ranges s))%nat) sp) as Hin.
  { apply Forall_forall. intros sh Hsh. rewrite Hsp in Hsh.
    apply elem_of_seq in Hsh. subst n. lia. }
  destruct (yield_shards_blocks rng randbelow Hrb (ranges s) sp g1 Hin)
    as (out & g2 & blocks & -> & -> & Hf).
  assert (concat blocks ≡ₚ seqZ 0 (sumZ lens)) as Hperm.
  { rewrite (blocks_perm _ _ _ Hf), (concat_fmap_perm _ _ _ Hsp).
    subst n. rewrite ranges_by_position, Hr. by rewrite make_ranges_concat. }
  exists (concat blocks), (with_rng s g2 (epoch s + 1)), sp, blocks.
  split; [done|]. split; [done|].
  split; [rewrite Hperm; apply NoDup_seqZ|].
  split; [done|]. split; [by rewrite <- Hn|]. split; [done|].
  done.
Qed.

Lemma sampler_iter_permutation_witness :
  ∃ out s',
    sampler_iter lcg_seed lcg_randbelow
      (MkSampler (make_ranges 0 [5; 0; 3]%Z) 7 true 3 None) = (Ok out, s')
    ∧ out ≡ₚ seqZ 0 8.
Proof.
  destruct (sampler_iter_permutation Z lcg_seed lcg_randbelow [5; 0; 3]%Z
              (MkSampler (make_ranges 0 [5; 0; 3]%Z) 7 true 3 None))
    as (out & s' & _ & _ & Hit & Hperm & _).
  - intros g n Hn. cbn. apply Z.mod_pos_bound. lia.
  - repeat constructor; lia.
  - reflexivity.
  - exists out, s'. split; [exact Hit|exact Hperm].
Defined.

(** * Determinism of the sampler *)

Section sampler_determinism.

Variable rng : Type.
Variable Random : Z → rng.
Variable randbelow : rng → Z → Z * rng.

(** The first [next] of a generator replaces [self.rng]. *)
Lemma iter_next_start s1 s2 :
  same_settings s1 s2 →
  iter_next Random randbelow s1 NotStarted
  = iter_next Random randbelow s2 NotStarted.
Proof.
  intros (Hr & Hs & He & Hf). unfold iter_next, with_rng.
  by rewrite Hr, Hs, He, Hf.
Qed.

Lemma iter_take_fresh k s1 s2 :
  same_settings s1 s2 →
  (iter_take Random randbelow k s1 NotStarted).1.1
  = (iter_take Random randbelow k s2 NotStarted).1.1
  ∧ (iter_take Random randbelow k s1 NotStarted).2
    = (iter_take Random randbelow k s2 NotStarted).2
  ∧ same_settings (iter_take Random randbelow k s1 NotStarted).1.2
      (iter_take Random randbelow k s2 NotStarted).1.2
  ∧ ((0 < k)%nat →
       iter_take Random randbelow k s1 NotStarted
       = iter_take Random randbelow k s2 NotStarted).
Proof.
  intros Hsame. destruct k as [|k].
  - cbn [iter_take fst snd]. repeat split; try done; try apply Hsame. lia.
  - assert (iter_take Random randbelow (S k) s1 NotStarted
            = iter_take Random randbelow (S k) s2 NotStarted) as ->.
    { cbn [iter_take]. by rewrite (iter_next_start s1 s2). }
    by repeat split.
Qed.

Lemma traversals_fresh ks s1 s2 :
  same_settings s1 s2 →
  traversals Random randbelow ks s1 = traversals Random randbelow ks s2.
Proof.
  revert s1 s2. induction ks as [|k ks IH]; intros s1 s2 Hsame; [done|].
  cbn [traversals].
  destruct (iter_take_fresh k s1 s2 Hsame) as (Hout & _ & Hnext & _).
  destruct (iter_take Random randbelow k s1 NotStarted) as [[r1 t1] st1].
  destruct (iter_take Random randbelow k s2 NotStarted) as [[r2 t2] st2].
  cbn [fst snd] in *. subst r2. f_equal. by apply IH.
Qed.

End sampler_determinism.

(** C6 (claim as stated). Two traversals of one sampler object, both
    started at seed 7 and epoch 3 over the lengths 5, 0 and 3: the first
    yields one index, the second is started and yields four, then the
    first and the second are run to their end. They are built with the
    same seed, epoch and lengths, and their outputs differ: the second
    shuffles its last shard with the generator state the first has left in
    [self.rng]. *)
Lemma overlapping_traversals_counterexample :
  let o := overlapping lcg_seed lcg_randbelow 1 4 10 example_sampler in
  first_start_epoch o = 3%Z
  ∧ second_start_epoch o = 3%Z
  ∧ first_end o = Finished
  ∧ second_end o = Finished
  ∧ first_output o = [2; 4; 0; 1; 3; 5; 6; 7]%Z
  ∧ second_output o = [2; 4; 0; 1; 3; 5; 7; 6]%Z
  ∧ first_output o ≠ second_output o.
Proof. vm_compute. repeat split; try reflexivity. discriminate. Qed.

(** C6 (amended). A traversal that is not overlapped by another traversal
    of the same sampler object is determined by the ranges (that is, the
    lengths), the seed, the epoch and [shufflefirst]: two samplers that
    agree on these yield the same indices to a generator asked for [k] of
    them, whatever generator state an earlier traversal left in
    [self.rng], and are left in the same state; so successive traversals,
    each left alone once the next is started, yield the same sequences
    traversal after traversal, and so do two samplers built from the same
    lengths, seed and flag. *)
Theorem sampler_traversal_deterministic (rng : Type) (Random : Z → rng)
    (randbelow : rng → Z → Z * rng) (s1 s2 : ShardListSampler rng) :
  ranges s1 = ranges s2 →
  seed s1 = seed s2 →
  epoch s1 = epoch s2 →
  shufflefirst s1 = shufflefirst s2 →
  (∀ k, (iter_take Random randbelow k s1 NotStarted).1.1
        = (iter_take Random randbelow k s2 NotStarted).1.1)
  ∧ (∀ k, (0 < k)%nat →
          iter_take Random randbelow k s1 NotStarted
          = iter_take Random randbelow k s2 NotStarted)
  ∧ (∀ ks, traversals Random randbelow ks s1
           = traversals Random randbelow ks s2)
  ∧ (∀ lens a b g ks,
       traversals Random randbelow ks (ShardListSampler_init rng lens a b)
       = traversals Random randbelow ks
           (with_rng (ShardListSampler_init rng lens a b) g 0%Z)).
Proof.
  intros Hr Hs He Hf.
  assert (same_settings s1 s2) as Hsame by done.
  split; [intros k; by apply iter_take_fresh|].
  split; [intros k; by apply iter_take_fresh|].
  split; [intros ks; by apply traversals_fresh|].
  intros lens a b g ks. by apply traversals_fresh.
Qed.

Lemma sampler_traversal_deterministic_witness :
  iter_take lcg_seed lcg_randbelow 10 example_sampler NotStarted
  = iter_take lcg_seed lcg_randbelow 10
      (with_rng example_sampler 99%Z 3%Z) NotStarted.
Proof.
  apply (sampler_traversal_deterministic Z lcg_seed lcg_randbelow
           example_sampler (with_rng example_sampler 99%Z 3%Z));
    (reflexivity || lia).
Defined.

(** * More on [splitname] *)

Section splitname_soundness.

Local Open Scope string_scope.

Lemma no_newline_app p t :
  no_newline (p +:+ t) = no_newline p && no_newline t.
Proof.
  induction p as [|c p IH]; [done|]. rewrite append_cons. cbn [no_newline].
  by rewrite IH, andb_assoc.
Qed.

(** What a starred [.] consumes is a prefix without newlines. *)
Lemma star_greedy_sound s caps k res :
  Re.star_greedy Re.Any s caps k = Some res →
  ∃ p s', s = p +:+ s' ∧ no_newline p = true ∧ k s' caps = Some res.
Proof.
  induction s as [|c s IH]; cbn [Re.star_greedy].
  - intros Hk. by exists EmptyString, EmptyString.
  - destruct (Re.atom_ok Re.Any c) eqn:Hc.
    + destruct (Re.star_greedy Re.Any s caps k) as [x|] eqn:Hs;
        cbn [Re.orelse].
      * intros [= ->]. destruct (IH eq_refl) as (p & s' & -> & Hp & Hk).
        exists (String c p), s'. split; [done|]. split; [|done].
        cbn [no_newline]. cbn [Re.atom_ok] in Hc. by rewrite Hc, Hp.
      * intros Hk. by exists EmptyString, (String c s).
    + intros Hk. by exists EmptyString, (String c s).
Qed.

Lemma star_lazy_sound s caps k res :
  Re.star_lazy Re.Any s caps k = Some res →
  ∃ p s', s = p +:+ s' ∧ no_newline p = true ∧ k s' caps = Some res.
Proof.
  induction s as [|c s IH]; cbn [Re.star_lazy].
  - destruct (k EmptyString caps) as [x|] eqn:Hk; cbn [Re.orelse]; [|done].
    intros [= ->]. by exists EmptyString, EmptyString.
  - destruct (k (String c s) caps) as [x|] eqn:Hk; cbn [Re.orelse].
    + intros [= ->]. by exists EmptyString, (String c s).
    + destruct (Re.atom_ok Re.Any c) eqn:Hc; [|done].
      intros (p & s' & -> & Hp & Hk')%IH.
      exists (String c p), s'. split; [done|]. split; [|done].
      cbn [no_newline]. cbn [Re.atom_ok] in Hc. by rewrite Hc, Hp.
Qed.

Lemma at_eol_cases t :
  Re.at_eol t = true → t = EmptyString ∨ t = String Re.newline EmptyString.
Proof.
  destruct t as [|c [|d t]]; cbn [Re.at_eol]; [by left| |done].
  intros ->%Ascii.eqb_eq. by right.
Qed.

(** The second group and the end of the pattern. *)
Lemma extension_sound whole s2 c2 res :
  Re.run whole
    (Re.Seq (Re.Group 2 (Re.Seq (Re.Atom (Re.Lit ".")) (Re.StarG Re.Any)))
            Re.Eol) s2 c2 (λ _ caps, Some caps) = Some res →
  ∃ r t, s2 = String "." r +:+ t
         ∧ (t = EmptyString ∨ t = String Re.newline EmptyString)
         ∧ no_newline r = true
         ∧ res = <[2%nat := String "." r]> c2.
Proof.
  cbn [Re.run]. destruct s2 as [|c s2]; [done|]. cbn [Re.atom_ok].
  destruct (Ascii.eqb_spec c ".") as [->|]; [|done].
  intros (p & t & -> & Hp & Hk)%star_greedy_sound.
  destruct (Re.at_eol t) eqn:Ht; [|done]. injection Hk as <-.
  exists p, t. split; [done|]. split; [by apply at_eol_cases|].
  split; [done|].
  by rewrite <- (append_cons "." p t), consumed_append.
Qed.

(** The first group. *)
Lemma key_sound whole s caps k res :
  Re.run whole
    (Re.Group 1
       (Re.Seq (Re.OptG (Re.Seq (Re.StarG Re.Any) (Re.Atom (Re.Lit "/"))))
               (Re.StarL Re.Any))) s caps k = Some res →
  ∃ p s', s = p +:+ s' ∧ no_newline p = true
          ∧ k s' (<[1%nat := p]> caps) = Some res.
Proof.
  cbn [Re.run].
  set (K := λ s1 c1, Re.star_lazy Re.Any s1 c1
               (λ s' c', k s' (<[1%nat := Re.consumed s s']> c'))).
  assert (∀ p s1, s = p +:+ s1 → no_newline p = true →
            K s1 caps = Some res →
            ∃ p' s', s = p' +:+ s' ∧ no_newline p' = true
                     ∧ k s' (<[1%nat := p']> caps) = Some res) as HK.
  { intros p s1 -> Hp (q & s' & -> & Hq & Hk)%star_lazy_sound.
    exists (p +:+ q), s'.
    assert (p +:+ q +:+ s' = (p +:+ q) +:+ s') as Heq.
    { clear. induction p as [|c p IH]; [done|].
      rewrite !append_cons. by f_equal. }
    split; [done|]. split; [by rewrite no_newline_app, Hp, Hq|].
    by rewrite Heq, consumed_append in Hk. }
  destruct (Re.star_greedy Re.Any s caps _) as [x|] eqn:Hg; cbn [Re.orelse].
  - intros [= ->].
    apply star_greedy_sound in Hg as (p & s1 & Hs & Hp & Hk).
    destruct s1 as [|c s1]; [done|]. cbn [Re.atom_ok] in Hk.
    destruct (Ascii.eqb_spec c "/") as [->|]; [|done].
    apply (HK (p +:+ "/") s1); [by rewrite Hs, <- append_assoc_cons| |done].
    by rewrite no_newline_app, Hp.
  - intros Hk. by apply (HK EmptyString s).
Qed.

(** A match of the pattern of [splitname] cuts the name into the first
    group, the second group, which starts with the ['.'], and at most a
    final newline. *)
Lemma rmatch_splitname_sound s res :
  Re.rmatch splitname_re s = Some res →
  ∃ k r t, s = k +:+ String "." r +:+ t
           ∧ (t = EmptyString ∨ t = String Re.newline EmptyString)
           ∧ no_newline k = true ∧ no_newline r = true
           ∧ res !! 1%nat = Some k ∧ res !! 2%nat = Some (String "." r).
Proof.
  unfold Re.rmatch, splitname_re.
  cbn [Re.run]. rewrite Nat.eqb_refl.
  intros H.
  destruct (key_sound s s ∅
    (λ s1 c1, Re.run s
       (Re.Seq (Re.Group 2 (Re.Seq (Re.Atom (Re.Lit ".")) (Re.StarG Re.Any)))
               Re.Eol) s1 c1 (λ _ caps, Some caps)) res H)
    as (k & s1 & -> & Hk & (r & t & -> & Ht & Hr & ->)%extension_sound).
  exists k, r, t. split; [done|]. split; [done|]. split; [done|].
  split; [done|].
  rewrite lookup_insert_ne, lookup_insert_eq by done.
  by rewrite lookup_insert_eq.
Qed.

(** When [splitname] returns, the extension starts with the ['.'] and
    the two parts make up the name, up to one final newline. *)
Lemma splitname_sound fname k e :
  splitname fname = Ok (k, e) →
  has_dot fname = true
  ∧ (∃ r, e = String "." r)
  ∧ (fname = k +:+ e ∨ fname = k +:+ e +:+ String Re.newline EmptyString)
  ∧ no_newline k = true ∧ no_newline e = true.
Proof.
  unfold splitname. destruct (has_dot fname) eqn:Hd; [|done].
  destruct (Re.rmatch splitname_re fname) as [caps|] eqn:Hm; [|done].
  destruct (rmatch_splitname_sound _ _ Hm)
    as (k' & r & t & -> & Ht & Hk & Hr & -> & ->).
  intros [= <- <-].
  split; [done|]. split; [by eexists|]. split; [|done].
  destruct Ht as [-> | ->]; [left|right].
  - by rewrite append_nil_r.
  - clear. induction k' as [|c k IH]; [done|].
    rewrite !append_cons. by f_equal.
Qed.

Lemma splitname_raises fname x :
  splitname fname = Raise x →
  (x = AssertionError ∧ has_dot fname = false)
  ∨ (x = AttributeError ∧ has_dot fname = true).
Proof.
  unfold splitname. destruct (has_dot fname); [|intros [= <-]; by left].
  destruct (Re.rmatch splitname_re fname) as [caps|];
    [|intros [= <-]; by right].
  destruct (caps !! 1%nat), (caps !! 2%nat); try done;
    intros [= <-]; by right.
Qed.

End splitname_soundness.

(** X1. [splitname] cuts a name in two: when it returns, the extension starts
    with the ['.'], neither part has a newline, and the key followed by the
    extension is the name, up to one final newline (which the ['$'] of the
    pattern lets pass). It raises [AssertionError] on the names without a
    ['.'] and on no other, and [AttributeError] only on names that have a
    newline. *)
Theorem splitname_parts (fname : string) :
  match splitname fname with
  | Ok (k, e) =>
      has_dot fname = true
      ∧ (∃ r, e = String "." r)
      ∧ (fname = k +:+ e ∨ fname = k +:+ e +:+ String Re.newline EmptyString)
      ∧ no_newline k = true ∧ no_newline e = true
  | Raise x =>
      (x = AssertionError ∧ has_dot fname = false)
      ∨ (x = AttributeError ∧ has_dot fname = true
         ∧ no_newline fname = false)
  end.
Proof.
  destruct (splitname fname) as [[k e]|x] eqn:Hs.
  - split; [|split; [|exact (proj2 (proj2 (splitname_sound _ _ _ Hs)))]];
      apply (splitname_sound _ _ _ Hs).
  - destruct (splitname_raises _ _ Hs) as [?|[-> Hd]]; [by left|right].
    split; [done|]. split; [done|].
    destruct (no_newline fname) eqn:Hn; [|done].
    destruct (splitname_code_split fname Hn Hd) as (k & e & _ & Hok).
    congruence.
Qed.

(** * The grouping pass on any list of names *)

Section grouping_outcome.

Lemma group_loop_fails names j i g :
  first_unsplittable names = Some j →
  group_loop i names g = (warnings_of (take j names), Raise AttributeError).
Proof.
  revert j i g. induction names as [|fname rest IH]; intros j i g; [done|].
  cbn [first_unsplittable group_loop]. unfold group_step.
  destruct (has_dot fname) eqn:Hd; cbn [andb negb].
  - destruct (splitname fname) as [[key ext]|x] eqn:Hs; cbn [is_ok negb].
    + destruct (first_unsplittable rest) as [j'|] eqn:Hj; [|done].
      intros [= <-]. cbn [plift mbind result_bind pbind take].
      rewrite (IH j') by done. unfold warnings_of.
      rewrite filter_cons, decide_False by (by rewrite Hd). done.
    + intros [= <-].
      destruct (splitname_raises _ _ Hs) as [[_ ?]|[-> _]]; [congruence|].
      done.
  - destruct (first_unsplittable rest) as [j'|] eqn:Hj; [|done].
    intros [= <-]. cbn [pbind take]. rewrite (IH j') by done.
    unfold warnings_of. rewrite filter_cons, decide_True by done. done.
Qed.

Lemma first_unsplittable_None names :
  first_unsplittable names = None → Forall splits names.
Proof.
  induction names as [|fname rest IH]; [constructor|].
  cbn [first_unsplittable].
  destruct (has_dot fname && negb (is_ok (splitname fname))) eqn:Hb; [done|].
  destruct (first_unsplittable rest); [done|]. intros _.
  constructor; [|by apply IH]. intros Hd. rewrite Hd in Hb.
  by destruct (is_ok (splitname fname)).
Qed.

Lemma kept_dotted_positions i names :
  first_unsplittable names = None →
  (kept i names).*1 = dotted_positions i names.
Proof.
  revert i. induction names as [|fname rest IH]; intros i; [done|].
  cbn [first_unsplittable kept dotted_positions].
  destruct (has_dot fname) eqn:Hd; cbn [andb].
  - destruct (splitname fname) as [[k e]|x]; cbn [is_ok negb]; [|done].
    destruct (first_unsplittable rest) eqn:Hr; [done|]. intros _.
    cbn [fmap list_fmap fst]. f_equal. by apply IH.
  - destruct (first_unsplittable rest) eqn:Hr; [done|]. intros _.
    by apply IH.
Qed.

End grouping_outcome.

(** X2. [group_by_key] on any list of names. If every name with a ['.'] is split
    by [splitname], it returns the maximal runs of members with equal
    consecutive keys, having warned about each name without a ['.'].
    Otherwise it raises [AttributeError] (never [AssertionError]) at the
    first name that is not split, having warned about the names without a
    ['.'] that come before it. *)
Theorem group_by_key_outcome (names : list string) :
  match first_unsplittable names with
  | None =>
      group_by_key names = (warnings_of names, Ok (runs (kept 0 names)).*2)
      ∧ concat (runs (kept 0 names)).*2 = dotted_positions 0 names
      ∧ Forall (λ g, g ≠ []) (runs (kept 0 names)).*2
  | Some j =>
      group_by_key names = (warnings_of (take j names), Raise AttributeError)
      ∧ ∃ fname, names !! j = Some fname ∧ has_dot fname = true
                 ∧ no_newline fname = false
  end.
Proof.
  destruct (first_unsplittable names) as [j|] eqn:Hj.
  - split.
    + unfold group_by_key. by rewrite (group_loop_fails names j).
    + clear -Hj. revert j Hj.
      induction names as [|fname rest IH]; intros j; [done|].
      cbn [first_unsplittable].
      destruct (has_dot fname) eqn:Hd; cbn [andb].
      * destruct (splitname fname) as [[k e]|x] eqn:Hs; cbn [is_ok negb].
        -- destruct (first_unsplittable rest) as [j'|]; [|done].
           intros [= <-]. by apply IH.
        -- intros [= <-]. exists fname. split; [done|]. split; [done|].
           destruct (no_newline fname) eqn:Hn; [|done].
           destruct (splitname_code_split fname Hn Hd) as (k & e & _ & Hok).
           congruence.
      * destruct (first_unsplittable rest) as [j'|]; [|done].
        intros [= <-]. by apply IH.
  - split; [|split].
    + unfold group_by_key.
      destruct (group_loop_runs names 0 (Grouping [] None []))
        as (g' & -> & Hfl); [by apply first_unsplittable_None|].
      cbn [pbind plift]. rewrite app_nil_r, Hfl.
      cbn [groups last_key current app].
      by destruct (runs (kept 0 names)) as [|[k g] gs].
    + rewrite runs_concat. by apply kept_dotted_positions.
    + apply Forall_fmap. eapply Forall_impl; [apply runs_members|].
      by intros [k g] [? _].
Qed.

(** * The entries of a sample *)

Section sample_entries.

Local Open Scope string_scope.

(** The loop of [__getitem__] over a group whose members have the key
    [k]: every extension ends up with the bytes of the last member that
    has it. *)
Lemma getitem_loop_entries tar k g smp key :
  Forall (λ i, (i, k) ∈ kept 0 (names tar)) g →
  key = None ∨ key = Some k →
  ∃ smp', getitem_loop tar g smp key
          = Ok (smp', match g with [] => key | _ => Some k end)
          ∧ (∀ ext, smp' !! ext
                    = match last_with tar g ext with
                      | Some d => Some (VBytes d)
                      | None => smp !! ext
                      end)
          ∧ (size smp' ≤ size smp + length g)%nat.
Proof.
  intros Hall. revert smp key.
  induction Hall as [|i rest Hi Hrest IH]; intros smp key Hkey.
  - exists smp. split; [done|]. split; [done|]. simpl. lia.
  - apply kept_lookup in Hi as (j & fname & e & -> & Hj & Hd & Hsp).
    unfold names in Hj. rewrite list_lookup_fmap in Hj.
    destruct (members tar !! j) as [[fname' d]|] eqn:Hm; [|done].
    injection Hj as ->.
    cbn [getitem_loop]. unfold get_file. rewrite Nat.add_0_l, Hm.
    cbn [mbind result_bind]. rewrite Hsp. cbn [mbind result_bind].
    rewrite py_or_same by done. rewrite bool_decide_eq_true_2 by done.
    cbn [py_assert mbind result_bind].
    destruct (IH (<[e := VBytes d]> smp) (Some k))
      as (smp' & Hs & Hl & Hsz); [by right|].
    exists smp'. split; [rewrite Hs; by destruct rest|]. split.
    + intros ext. rewrite Hl. cbn [last_with]. rewrite ?Nat.add_0_l.
      unfold member_entry. rewrite Hm, Hsp.
      destruct (last_with tar rest ext) as [d'|]; [done|].
      destruct (decide (e = ext)) as [->|Hne].
      * by rewrite lookup_insert_eq.
      * by rewrite lookup_insert_ne.
    + cbn [length].
      pose proof (map_size_insert e (VBytes d) smp) as Hins.
      destruct (smp !! e); unfold id in Hins; lia.
Qed.

Lemma last_with_dot tar g ext d :
  last_with tar g ext = Some d → ∃ r, ext = String "." r.
Proof.
  revert d. induction g as [|i rest IH]; intros d; [done|].
  cbn [last_with].
  destruct (last_with tar rest ext) as [d'|]; [intros _; by apply (IH d')|].
  unfold member_entry.
  destruct (members tar !! i) as [[fname d']|]; [|done].
  destruct (splitname fname) as [[k e]|] eqn:Hs; [|done].
  destruct (decide (e = ext)) as [<-|]; [|done]. intros _.
  apply (splitname_sound _ _ _ Hs).
Qed.

Lemma py_index_elem {A} (l : list A) (i : Z) x :
  py_index l i = Ok x → x ∈ l.
Proof.
  unfold py_index. cbn zeta. destruct (decide (0 ≤ _)%Z); [|done].
  destruct (l !! _) as [y|] eqn:Hy; [|done]. intros [= <-].
  by eapply list_elem_of_lookup_2.
Qed.

(** The keys of a sample read from a constructed [IndexedTarSamples]:
    [__key__] and extensions, which start with a ['.']. *)
Lemma its_getitem_keys tar path md5sum expected_size out its idx smp :
  IndexedTarSamples_init tar path md5sum expected_size = (out, Ok its) →
  its_getitem its idx = Ok smp →
  is_Some (smp !! "__key__")
  ∧ ∀ key, is_Some (smp !! key) →
      key = "__key__" ∨ ∃ r, key = String "." r.
Proof.
  intros Hinit. destruct (init_samples _ _ _ _ _ _ Hinit) as [Hr Hs].
  unfold its_getitem.
  destruct (py_index (samples its) idx) as [g|] eqn:Hg; [|done].
  apply py_index_elem in Hg. rewrite Hs in Hg.
  apply list_elem_of_fmap in Hg as ([k g'] & -> & Hkg).
  pose proof (proj1 (Forall_forall _ _) (runs_members (kept 0 (names tar)))
                _ Hkg) as [Hne Hall].
  cbn [fst snd mbind result_bind] in *.
  destruct (getitem_loop_entries tar k g' ∅ None Hall)
    as (smp' & Hl & Hent & _); [by left|].
  rewrite Hr, Hl. cbn [mbind result_bind]. intros [= <-].
  split; [rewrite lookup_insert_eq; by eexists|].
  intros key [v Hv].
  destruct (decide (key = "__key__")) as [->|Hne']; [by left|right].
  rewrite lookup_insert_ne in Hv by done. rewrite Hent in Hv.
  destruct (last_with tar g' key) as [d|] eqn:Hd; [|done].
  by eapply last_with_dot.
Qed.

End sample_entries.

(** X3. The sample at position [n] of a constructed [IndexedTarSamples], whose
    group is [g]: the members of [g] have a common key, which the sample
    holds under [__key__]; under every other key the sample holds the bytes
    of the last member of [g] with that extension, so a member whose
    extension occurs again later in the group is dropped. The extensions
    start with a ['.'], so no member is stored under [__key__], and the
    sample has at most one entry per member besides the key. *)
Theorem its_getitem_entries (tar : archive) (path md5sum : option string)
    (expected_size : option Z) (out : list event) (its : IndexedTarSamples)
    (n : nat) (g : list nat) :
  IndexedTarSamples_init tar path md5sum expected_size = (out, Ok its) →
  samples its !! n = Some g →
  ∃ smp k,
    its_getitem its (Z.of_nat n) = Ok smp
    ∧ smp !! "__key__"%string = Some (VStr k)
    ∧ (∀ i, i ∈ g →
         ∃ fname d e, members tar !! i = Some (fname, d)
                      ∧ splitname fname = Ok (k, e))
    ∧ (∀ ext, ext ≠ "__key__"%string →
         smp !! ext = VBytes <$> last_with tar g ext)
    ∧ (∀ ext, ext ≠ "__key__"%string → is_Some (smp !! ext) →
         ∃ r, ext = String "." r)
    ∧ (2 ≤ size smp ≤ S (length g))%nat.
Proof.
  intros Hinit Hn. destruct (init_samples _ _ _ _ _ _ Hinit) as [Hr Hs].
  assert (g ∈ samples its) as Hg by (by eapply list_elem_of_lookup_2).
  rewrite Hs in Hg. apply list_elem_of_fmap in Hg as ([k g'] & -> & Hkg).
  pose proof (proj1 (Forall_forall _ _) (runs_members (kept 0 (names tar)))
                _ Hkg) as [Hne Hall].
  cbn [fst snd] in *.
  destruct (getitem_loop_entries tar k g' ∅ None Hall)
    as (smp' & Hl & Hent & Hsz); [by left|].
  assert (∀ ext, ext ≠ "__key__"%string →
            (<["__key__"%string := VStr k]> smp') !! ext
            = VBytes <$> last_with tar g' ext) as Hlook.
  { intros ext Hext. rewrite lookup_insert_ne by done. rewrite Hent.
    by destruct (last_with tar g' ext). }
  exists (<["__key__"%string := VStr k]> smp'), k.
  split.
  { unfold its_getitem. rewrite (py_index_nat _ _ _ Hn).
    cbn [mbind result_bind].
    rewrite Hr, Hl. cbn [mbind result_bind]. by destruct g'. }
  split; [by rewrite lookup_insert_eq|].
  split.
  { intros i Hi. pose proof (proj1 (Forall_forall _ _) Hall _ Hi) as Hk.
    apply kept_lookup in Hk as (j & fname & e & -> & Hj & _ & Hsp).
    unfold names in Hj. rewrite list_lookup_fmap in Hj.
    destruct (members tar !! j) as [[fname' d]|] eqn:Hm; [|done].
    injection Hj as ->. exists fname, d, e. by rewrite Nat.add_0_l. }
  split; [done|].
  split.
  { intros ext Hext [v Hv]. rewrite Hlook in Hv by done.
    destruct (last_with tar g' ext) as [d|] eqn:Hd; [|done].
    by eapply last_with_dot. }
  split.
  - destruct g' as [|i rest]; [done|].
    assert (∃ e d, member_entry tar i = Some (e, d)) as (e & d & He).
    { pose proof (Forall_inv Hall) as Hi. cbn beta in Hi.
      apply kept_lookup in Hi as (j & fname & e & -> & Hj & _ & Hsp).
      unfold names in Hj. rewrite list_lookup_fmap in Hj.
      destruct (members tar !! j) as [[fname' d]|] eqn:Hm; [|done].
      injection Hj as ->. exists e, d. unfold member_entry.
      by rewrite Nat.add_0_l, Hm, Hsp. }
    assert (is_Some (last_with tar (i :: rest) e)) as [d' Hd'].
    { cbn [last_with]. destruct (last_with tar rest e); [by eexists|].
      rewrite He. rewrite decide_True by done. by eexists. }
    destruct (last_with_dot _ _ _ _ Hd') as [r ->].
    assert (smp' !! String "." r = Some (VBytes d')) as Hin
      by (by rewrite Hent, Hd').
    rewrite map_size_insert_None.
    + assert (size smp' ≠ 0%nat); [|lia].
      intros H0%map_size_empty_inv. by rewrite H0, lookup_empty in Hin.
    + rewrite Hent.
      destruct (last_with tar (i :: rest) "__key__") as [d0|] eqn:Hk; [|done].
      by destruct (last_with_dot _ _ _ _ Hk).
  - pose proof (map_size_insert "__key__"%string (VStr k) smp') as Hins.
    rewrite map_size_empty in Hsz.
    destruct (smp' !! "__key__"%string); unfold id in Hins; lia.
Qed.

Lemma its_getitem_entries_witness :
  ∃ smp, its_getitem example_its 2 = Ok smp
         ∧ smp !! "__key__"%string = Some (VStr "c").
Proof.
  destruct (its_getitem_entries example_archive (Some "a.tar"%string) None None
              [] example_its 2 [3; 4]%nat)
    as (smp & k & Hget & Hkey & Hmem & _).
  - vm_compute. reflexivity.
  - reflexivity.
  - exists smp. split; [exact Hget|].
    destruct (Hmem 3%nat) as (fname & d & e & Hm & Hs).
    + by apply list_elem_of_here.
    + injection Hm as <- <-. vm_compute in Hs. injection Hs as <- <-.
      exact Hkey.
Defined.

(** * Steps of the dataset *)

Section dataset_steps.

Variable download_and_open : string → string → result archive.

Local Abbreviation getitem := (ShardListDataset_getitem download_and_open).
Local Abbreviation final := (final_state download_and_open).

Lemma same_tables_refl ds : same_tables ds ds.
Proof. by repeat split. Qed.

Lemma same_tables_trans ds1 ds2 ds3 :
  same_tables ds1 ds2 → same_tables ds2 ds3 → same_tables ds1 ds3.
Proof.
  intros (?&?&?&?&?&?&?&?) (?&?&?&?&?&?&?&?).
  repeat split; congruence.
Qed.

Lemma check_cache_misses_state ds :
  ∃ b, (check_cache_misses ds).2
       = MkDataset (shards ds) (lengths ds) (cum_lengths ds)
           (total_length ds) (cache_dir ds) (cache ds) (cleanup ds)
           (transformations ds) b.
Proof.
  unfold check_cache_misses, get_stats.
  destruct ds as [? ? ? ? ? ? ? ? en]. cbn.
  destruct en; [destruct (miss_rate_high _ _)|]; by eexists.
Qed.

(** An access whose index resolves to no descriptor. *)
Lemma getitem_no_shard ds i :
  shards ds !! (locate (cum_lengths ds) i).1 = None →
  getitem ds i = (([], Raise IndexError), ds).
Proof.
  intros Hn. unfold ShardListDataset_getitem, fetch_sample, get_shard.
  destruct (locate (cum_lengths ds) i) as [k inner]. cbn [fst] in Hn.
  by rewrite Hn.
Qed.

(** An access whose index resolves to the descriptor [desc]: its outcome
    and the state it leaves, in terms of the call to the cache. *)
Lemma getitem_step ds i k inner desc :
  locate (cum_lengths ds) i = (k, inner) →
  shards ds !! k = Some desc →
  let r := LRUShards_get_shard download_and_open (cache ds) (url desc) in
  let ds' := (getitem ds i).2 in
  (getitem ds i).1.2
  = (itf ← r.1.2; smp ← its_getitem itf inner;
     apply_transformations (transformations ds)
       (decorate smp desc i inner))
  ∧ cache ds' = r.2
  ∧ cleanup ds'
    = match r.1.2, last_missed r.2, cleanup ds with
      | Ok _, Some true, Some n => Some (S n)
      | _, _, cl => cl
      end
  ∧ shards ds' = shards ds
  ∧ lengths ds' = lengths ds
  ∧ cum_lengths ds' = cum_lengths ds
  ∧ total_length ds' = total_length ds
  ∧ cache_dir ds' = cache_dir ds
  ∧ transformations ds' = transformations ds.
Proof.
  intros Hloc Hdesc r ds'. subst r ds'.
  unfold ShardListDataset_getitem, fetch_sample, get_shard.
  rewrite Hloc, Hdesc.
  destruct (LRUShards_get_shard download_and_open (cache ds) (url desc))
    as [[out [itf|e]] c]; cbn [fst snd mbind result_bind].
  - destruct (its_getitem itf inner) as [smp|e];
      cbn [fst snd mbind result_bind].
    + match goal with
      | |- context [check_cache_misses ?d] =>
          destruct (check_cache_misses_state d) as [b Hb];
          destruct (check_cache_misses d) as [out2 ds2]
      end.
      cbn [snd] in Hb. subst ds2. cbn.
      repeat split; destruct (last_missed c) as [[]|], (cleanup ds); done.
    + cbn. repeat split;
        destruct (last_missed c) as [[]|], (cleanup ds); done.
  - cbn. repeat split; by destruct (last_missed c) as [[]|].
Qed.

Lemma LRUShards_get_shard_same d c u :
  localname (LRUShards_get_shard d c u).2 = localname c
  ∧ LRUCache.capacity (lru (LRUShards_get_shard d c u).2)
    = LRUCache.capacity (lru c).
Proof.
  destruct (LRUCache.find (lru c) u) as [itf|] eqn:Hf.
  - by rewrite (LRUShards_get_shard_hit d c u itf Hf).
  - destruct (fetch_shard d (localname c) u) as [out [itf|e]] eqn:Hfe.
    + destruct (LRUShards_get_shard_miss d c u out itf Hf Hfe)
        as (rest & -> & _). done.
    + by rewrite (LRUShards_get_shard_fail d c u out e Hf Hfe).
Qed.

Lemma getitem_same_tables ds i : same_tables ds (getitem ds i).2.
Proof.
  destruct (locate (cum_lengths ds) i) as [k inner] eqn:Hloc.
  destruct (shards ds !! k) as [desc|] eqn:Hdesc.
  - destruct (getitem_step ds i k inner desc Hloc Hdesc)
      as (_ & Hc & _ & ? & ? & ? & ? & ? & ?).
    repeat split; try done; rewrite Hc; apply LRUShards_get_shard_same.
  - rewrite getitem_no_shard by (rewrite Hloc; exact Hdesc). apply same_tables_refl.
Qed.

Lemma final_same_tables ds indexes : same_tables ds (final ds indexes).
Proof.
  revert ds. induction indexes as [|i rest IH]; intros ds;
    [apply same_tables_refl|].
  cbn [final_state].
  eapply same_tables_trans; [apply getitem_same_tables|apply IH].
Qed.


End dataset_steps.

(** * The shard cache: a shard stays after it was returned *)

(** X4. In a cache of capacity at least 1, a call of [LRUShards.get_shard]
    that returned a shard leaves it at the front of the pool: the next call for the same URL is a hit, whatever the
    fetch function would do; it returns the same shard, prints nothing,
    counts an access and no miss, clears the last-miss flag and leaves the
    pool as it is. *)
Theorem get_shard_again
    (download_and_open : string → string → result archive)
    (c : LRUShards) (u : string) (out : list event)
    (itf : IndexedTarSamples) (c' : LRUShards) :
  (1 ≤ LRUCache.capacity (lru c))%Z →
  LRUShards_get_shard download_and_open c u = ((out, Ok itf), c') →
  LRUCache.find (lru c') u = Some itf
  ∧ ∀ fetch,
      LRUShards_get_shard fetch c' u
      = (([], Ok itf),
         MkLRUShards (localname c') (lru c') (accesses c' + 1) (misses c')
           (Some false)).
Proof.
  intros _ Hget.
  assert (∃ cap rest, lru c' = LRUCache.Make cap ((u, itf) :: rest)
                      ∧ u ∉ rest.*1) as (cap & rest & Hl & Hnot).
  { destruct (LRUCache.find (lru c) u) as [itf0|] eqn:Hf.
    - rewrite (LRUShards_get_shard_hit _ c u itf0 Hf) in Hget.
      injection Hget as _ <- <-. cbn [lru]. eexists _, _. split; [done|].
      apply without_not_in.
    - destruct (fetch_shard download_and_open (localname c) u)
        as [o [itf0|e]] eqn:Hfe.
      + destruct (LRUShards_get_shard_miss _ c u o itf0 Hf Hfe)
          as (rest & Hm & _ & Hnot).
        rewrite Hm in Hget. injection Hget as _ <- <-. cbn [lru].
        by eexists _, _.
      + rewrite (LRUShards_get_shard_fail _ c u o e Hf Hfe) in Hget. done. }
  assert (LRUCache.find (lru c') u = Some itf) as Hfind
    by (rewrite Hl; apply find_head).
  split; [done|]. intros fetch.
  rewrite (LRUShards_get_shard_hit fetch c' u itf Hfind). do 2 f_equal.
  rewrite Hl. cbn [LRUCache.capacity LRUCache.entries]. f_equal.
  unfold LRUCache.without at 1.
  rewrite filter_cons, decide_False by (cbn; intros H; by apply H).
  fold (LRUCache.without u rest). by rewrite without_id.
Qed.

Lemma get_shard_again_witness :
  (LRUShards_get_shard no_fetch
     (LRUShards_get_shard rr_fetch
        (LRUShards_init 1 (default_localname "/tmp/_wids_cache")) "a.tar").2
     "a.tar").1.2
  = Ok (MkIndexedTarSamples (Archive [("x.jpg"%string, [])] EmptyString)
          [[0%nat]]).
Proof.
  pose proof (proj2 (get_shard_again rr_fetch
    (LRUShards_init 1 (default_localname "/tmp/_wids_cache")) "a.tar" []
    (MkIndexedTarSamples (Archive [("x.jpg"%string, [])] EmptyString)
       [[0%nat]])
    (LRUShards_get_shard rr_fetch
       (LRUShards_init 1 (default_localname "/tmp/_wids_cache")) "a.tar").2
    ltac:(cbn; lia) eq_refl) no_fetch) as H.
  rewrite H. reflexivity.
Defined.

(** * The dataset: cleanup, added transformations, close *)

Section cleanup_invariant.

Variable download_and_open : string → string → result archive.

(** The miss counter and the last-miss flag after a call to the cache. *)
Lemma LRUShards_get_shard_miss_flag c u :
  let r := LRUShards_get_shard download_and_open c u in
  match r.1.2, last_missed r.2 with
  | Ok _, Some true => misses r.2 = (misses c + 1)%Z
  | _, _ => misses r.2 = misses c
  end.
Proof.
  cbn zeta. destruct (LRUCache.find (lru c) u) as [itf|] eqn:Hf.
  - by rewrite (LRUShards_get_shard_hit _ c u itf Hf).
  - destruct (fetch_shard download_and_open (localname c) u)
      as [out [itf|e]] eqn:Hfe.
    + destruct (LRUShards_get_shard_miss _ c u out itf Hf Hfe)
        as (rest & -> & _). done.
    + by rewrite (LRUShards_get_shard_fail _ c u out e Hf Hfe).
Qed.

Lemma getitem_cleanup ds i :
  match cleanup ds with
  | Some n => Z.of_nat n = misses (cache ds)
  | None => True
  end →
  let ds' := (ShardListDataset_getitem download_and_open ds i).2 in
  match cleanup ds' with
  | Some n => Z.of_nat n = misses (cache ds') ∧ is_Some (cleanup ds)
  | None => cleanup ds = None
  end.
Proof.
  intros Hinv ds'. subst ds'.
  destruct (locate (cum_lengths ds) i) as [k inner] eqn:Hloc.
  destruct (shards ds !! k) as [desc|] eqn:Hdesc.
  - destruct (getitem_step download_and_open ds i k inner desc Hloc Hdesc)
      as (_ & Hc & Hcl & _).
    rewrite Hcl, Hc.
    pose proof (LRUShards_get_shard_miss_flag (cache ds) (url desc)) as Hm.
    cbn zeta in Hm.
    destruct (LRUShards_get_shard download_and_open (cache ds) (url desc))
      as [[out r] c']. cbn [fst snd] in *.
    destruct r as [itf|e], (last_missed c') as [[]|], (cleanup ds) as [n|];
      try done; split; try done; lia.
  - rewrite getitem_no_shard by (rewrite Hloc; exact Hdesc). cbn [snd].
    destruct (cleanup ds); [|done]. by split.
Qed.

End cleanup_invariant.

(** X5. In a dataset as the constructor builds it, the cleanup collaborator,
    when there is one, has been run exactly once for every miss the cache
    has counted, whatever the sequence of accesses (failed ones included);
    when there is none, none appears. *)
Theorem cleanup_once_per_miss
    (download_and_open : string → string → result archive)
    (urlparse_path : string → string)
    (descs : list ShardDesc) (cache_size : Z) (cdir : option string)
    (cache_cleanup : option Z) (lname : option (string → string))
    (ts : list (sample → result sample)) (wids_cache : option string)
    (ds : ShardListDataset) (indexes : list Z) :
  ShardListDataset_init urlparse_path descs cache_size cdir cache_cleanup
    lname ts wids_cache = Ok ds →
  let ds' := final_state download_and_open ds indexes in
  match cleanup ds' with
  | Some n =>
      Z.of_nat n = misses (cache ds')
      ∧ is_Some cache_cleanup ∧ is_Some (cache_dir ds)
  | None => cache_cleanup = None ∨ cache_dir ds = None
  end.
Proof.
  intros Hinit ds'. subst ds'.
  assert (match cleanup ds with
          | Some n => Z.of_nat n = misses (cache ds)
                      ∧ is_Some cache_cleanup ∧ is_Some (cache_dir ds)
          | None => cache_cleanup = None ∨ cache_dir ds = None
          end) as Hinv.
  { apply ShardListDataset_init_inv in Hinit
      as (cum & total & cd & ln & _ & _ & ->).
    destruct cache_cleanup, cd; cbn; auto. }
  clear Hinit. revert ds Hinv.
  induction indexes as [|i rest IH]; intros ds Hinv; [done|].
  cbn [final_state].
  pose proof (getitem_cleanup download_and_open ds i) as Hstep.
  pose proof (getitem_same_tables download_and_open ds i)
    as (_ & _ & _ & _ & Hdir & _).
  cbn zeta in Hstep.
  set (ds1 := (ShardListDataset_getitem download_and_open ds i).2) in *.
  assert (match cleanup ds1 with
          | Some n => Z.of_nat n = misses (cache ds1)
                      ∧ is_Some cache_cleanup ∧ is_Some (cache_dir ds1)
          | None => cache_cleanup = None ∨ cache_dir ds1 = None
          end) as Hinv1.
  { rewrite Hdir. destruct (cleanup ds) as [n|].
    - destruct Hinv as (Hn & ? & ?). specialize (Hstep Hn).
      destruct (cleanup ds1); [|done]. by destruct Hstep.
    - specialize (Hstep I). destruct (cleanup ds1); [|done].
      by destruct Hstep as [_ [? ?]]. }
  specialize (IH ds1 Hinv1).
  destruct (cleanup (final_state download_and_open ds1 rest)); [|by rewrite <- Hdir].
  by rewrite <- Hdir.
Qed.

Lemma cleanup_once_per_miss_witness :
  cleanup (final_state one_fetch one_dataset_cleanup [0; 2; 7; 1]%Z)
  = Some 1%nat.
Proof.
  pose proof (cleanup_once_per_miss one_fetch (λ s, s) one_shard 2 None
    (Some 10%Z) None [] None one_dataset_cleanup [0; 2; 7; 1]%Z eq_refl) as H.
  cbn zeta in H.
  destruct (cleanup (final_state one_fetch one_dataset_cleanup [0; 2; 7; 1]%Z))
    as [n|] eqn:Hn.
  - destruct H as [H _]. f_equal.
    assert (misses (cache (final_state one_fetch one_dataset_cleanup
                             [0; 2; 7; 1]%Z)) = 1%Z) as Hm
      by (vm_compute; reflexivity).
    rewrite Hm in H. lia.
  - destruct H as [H|H]; discriminate H.
Defined.

Section transformations.

Lemma apply_transformations_app ts1 ts2 smp :
  apply_transformations (ts1 ++ ts2) smp
  = (smp' ← apply_transformations ts1 smp; apply_transformations ts2 smp').
Proof.
  revert smp. induction ts1 as [|t ts1 IH]; intros smp; [done|].
  cbn [app apply_transformations].
  destruct (t smp) as [smp1|e]; cbn [mbind result_bind]; [apply IH|done].
Qed.

End transformations.

(** X6. [add_transform] composes: an access to the dataset with one more
    transformation prints what the access without it prints, leaves the
    same state (with the transformation added), and returns the sample of
    the access without it sent through the new transformation, which is not
    called when that access fails. *)
Theorem add_transform_composes
    (download_and_open : string → string → result archive)
    (ds : ShardListDataset) (transform : sample → result sample) (i : Z) :
  let r := ShardListDataset_getitem download_and_open ds i in
  ShardListDataset_getitem download_and_open (add_transform ds transform) i
  = ((r.1.1, smp ← r.1.2; transform smp), add_transform r.2 transform).
Proof.
  cbn zeta. unfold ShardListDataset_getitem, fetch_sample, get_shard.
  cbn [add_transform cum_lengths shards cache cleanup].
  destruct (locate (cum_lengths ds) i) as [k inner].
  destruct (shards ds !! k) as [desc|]; [|done].
  destruct (LRUShards_get_shard download_and_open (cache ds) (url desc))
    as [[out [itf|e]] c]; [|done].
  destruct (its_getitem itf inner) as [smp|e]; [|done].
  unfold check_cache_misses, get_stats, with_cache, add_transform, disable_check.
  cbn [check_enabled cache transformations shards lengths cum_lengths
       total_length cache_dir cleanup].
  destruct (check_enabled ds); [destruct (miss_rate_high _ _)|];
    cbn [fst snd transformations];
    rewrite apply_transformations_app; cbn [apply_transformations];
    (destruct (apply_transformations (transformations ds) _) as [s1|e1];
     cbn [mbind result_bind]; [destruct (transform s1)|]; done).
Qed.

(** X7. [close] hands every cached shard to the release handler and empties
    the pool, but keeps the statistics; the dataset stays usable. In a
    dataset whose pool has a capacity of at least 1, an access at an int64
    index after [close] fetches the shard anew, so it returns the sample
    read without a cache, and counts a miss when the fetch succeeds. *)
Theorem close_then_access
    (download_and_open : string → string → result archive)
    (ds : ShardListDataset) (i : Z) :
  (1 ≤ LRUCache.capacity (lru (cache ds)))%Z →
  (- 2 ^ 63 ≤ i < 2 ^ 63)%Z →
  let ds' := (ShardListDataset_close ds).1 in
  let r := ShardListDataset_getitem download_and_open ds' i in
  (ShardListDataset_close ds).2 = LRUCache.entries (lru (cache ds))
  ∧ LRUShards_len (cache ds') = 0%Z
  ∧ get_stats ds' = get_stats ds
  ∧ same_tables ds ds'
  ∧ r.1.2 = read_sample download_and_open ds i
  ∧ (∀ desc, shards ds !! (locate (cum_lengths ds) i).1 = Some desc →
       accesses (cache r.2) = (accesses (cache ds) + 1)%Z
       ∧ (is_ok (fetch_shard download_and_open (localname (cache ds))
                   (url desc)).2 = true →
            misses (cache r.2) = (misses (cache ds) + 1)%Z
            ∧ last_missed (cache r.2) = Some true)).
Proof.
  intros _ _.
  cbn zeta. split; [done|]. split; [done|]. split; [done|].
  split; [by repeat split|].
  set (ds' := (ShardListDataset_close ds).1).
  unfold read_sample.
  destruct (locate (cum_lengths ds) i) as [k inner] eqn:Hloc.
  cbn [fst].
  destruct (shards ds !! k) as [desc|] eqn:Hdesc.
  - destruct (getitem_step download_and_open ds' i k inner desc Hloc Hdesc)
      as (Hres & Hc & _).
    assert (LRUCache.find (lru (cache ds')) (url desc) = None) as Hf by done.
    rewrite Hres, Hc. clear Hres Hc.
    destruct (fetch_shard download_and_open (localname (cache ds)) (url desc))
      as [out [itf|e]] eqn:Hfe.
    + destruct (LRUShards_get_shard_miss download_and_open (cache ds')
                  (url desc) out itf Hf Hfe) as (rest & -> & Hsub & _).
      split; [done|]. intros ? [= <-]. split; [done|]. intros _.
      by split.
    + rewrite (LRUShards_get_shard_fail download_and_open (cache ds')
                 (url desc) out e Hf Hfe).
      split; [done|]. intros ? [= <-]. split; [done|]. by rewrite Hfe.
  - assert (locate (cum_lengths ds') i = (k, inner)) as Hloc' by exact Hloc.
    rewrite getitem_no_shard by (rewrite Hloc'; exact Hdesc). done.
Qed.

Lemma close_then_access_witness :
  (ShardListDataset_getitem one_fetch
     (ShardListDataset_close
        (final_state one_fetch one_dataset [0; 1]%Z)).1 2).1.2
  = read_sample one_fetch (final_state one_fetch one_dataset [0; 1]%Z) 2
  ∧ misses (cache (ShardListDataset_getitem one_fetch
                     (ShardListDataset_close
                        (final_state one_fetch one_dataset [0; 1]%Z)).1 2).2)
    = 2%Z.
Proof.
  destruct (close_then_access one_fetch
              (final_state one_fetch one_dataset [0; 1]%Z) 2
              ltac:(by vm_compute) ltac:(lia))
    as (_ & _ & _ & _ & Hres & Hcount).
  split; [exact Hres|].
  destruct (Hcount (MkShardDesc "shard0.tar" 3 None None) eq_refl)
    as [_ Hm].
  destruct (Hm eq_refl) as [Hm' _]. rewrite Hm'. reflexivity.
Defined.

(** * The dataset: the cache does not change what an access returns *)

Section cache_validity.

Variable download_and_open : string → string → result archive.

Local Abbreviation getitem := (ShardListDataset_getitem download_and_open).

Lemma get_shard_valid c u :
  cache_valid download_and_open c →
  let r := LRUShards_get_shard download_and_open c u in
  r.1.2 = (fetch_shard download_and_open (localname c) u).2
  ∧ cache_valid download_and_open r.2.
Proof.
  intros Hv. cbn zeta.
  destruct (LRUCache.find (lru c) u) as [itf|] eqn:Hf.
  - rewrite (LRUShards_get_shard_hit _ c u itf Hf). cbn [fst snd].
    destruct (Hv u itf (assoc_elem _ _ _ Hf)) as [out Hout].
    split; [by rewrite Hout|].
    intros u' itf' [[= -> ->]|Hin]%elem_of_cons; [by eexists|].
    apply (Hv u' itf'). by eapply without_subseteq.
  - destruct (fetch_shard download_and_open (localname c) u)
      as [out [itf|e]] eqn:Hfe.
    + destruct (LRUShards_get_shard_miss _ c u out itf Hf Hfe)
        as (rest & -> & Hsub & _). cbn [fst snd].
      split; [done|].
      intros u' itf' [[= -> ->]|Hin]%elem_of_cons; [by eexists|].
      apply (Hv u' itf'). by apply Hsub.
    + rewrite (LRUShards_get_shard_fail _ c u out e Hf Hfe). cbn [fst snd].
      split; [done|]. exact Hv.
Qed.

Lemma getitem_valid ds i :
  cache_valid download_and_open (cache ds) →
  (getitem ds i).1.2 = read_sample download_and_open ds i
  ∧ cache_valid download_and_open (cache (getitem ds i).2).
Proof.
  intros Hv. unfold read_sample.
  destruct (locate (cum_lengths ds) i) as [k inner] eqn:Hloc.
  destruct (shards ds !! k) as [desc|] eqn:Hdesc.
  - destruct (getitem_step download_and_open ds i k inner desc Hloc Hdesc)
      as (Hres & Hc & _).
    destruct (get_shard_valid (cache ds) (url desc) Hv) as [Hr Hv'].
    rewrite Hres, Hc, Hr. done.
  - rewrite getitem_no_shard by (rewrite Hloc; exact Hdesc). done.
Qed.

Lemma read_sample_same_tables ds ds' i :
  same_tables ds ds' →
  read_sample download_and_open ds' i = read_sample download_and_open ds i.
Proof.
  intros (Hs & _ & Hc & _ & _ & Ht & Hl & _). unfold read_sample.
  by rewrite Hs, Hc, Ht, Hl.
Qed.

Lemma final_valid ds indexes :
  cache_valid download_and_open (cache ds) →
  cache_valid download_and_open
    (cache (final_state download_and_open ds indexes)).
Proof.
  revert ds. induction indexes as [|i rest IH]; intros ds Hv; [done|].
  cbn [final_state]. apply IH. by apply getitem_valid.
Qed.

Lemma cache_valid_empty c :
  LRUCache.entries (lru c) = [] → cache_valid download_and_open c.
Proof. intros He u itf Hin. rewrite He in Hin. by apply elem_of_nil in Hin. Qed.

Lemma fetch_shard_init lname u out itf :
  fetch_shard download_and_open lname u = (out, Ok itf) →
  ∃ tar, IndexedTarSamples_init tar (Some (lname u)) None None
         = (out, Ok itf).
Proof.
  unfold fetch_shard. cbn zeta.
  destruct (download_and_open u (lname u)) as [tar|e]; [|done].
  cbn [plift pbind]. intros H. exists tar.
  by destruct (IndexedTarSamples_init tar _ None None) as [o r].
Qed.

End cache_validity.

(** X8. With a fetch function that gives the same archive for the same shard
    every time, in a dataset whose pool has a capacity of at least 1, what
    an access returns does not depend on the accesses made before it on
    the instance (which shards are cached, which were evicted, which
    accesses failed), all of them at int64 indices: starting from an empty
    cache, the
    access returns what the first access of a new instance returns, namely
    the sample read from the shard fetched anew. *)
Theorem getitem_independent_of_history
    (download_and_open : string → string → result archive)
    (ds : ShardListDataset) (before : list Z) (i : Z) :
  (1 ≤ LRUCache.capacity (lru (cache ds)))%Z →
  Forall (λ j, - 2 ^ 63 ≤ j < 2 ^ 63)%Z (i :: before) →
  LRUCache.entries (lru (cache ds)) = [] →
  let ds' := final_state download_and_open ds before in
  (ShardListDataset_getitem download_and_open ds' i).1.2
  = (ShardListDataset_getitem download_and_open ds i).1.2
  ∧ (ShardListDataset_getitem download_and_open ds' i).1.2
    = read_sample download_and_open ds i.
Proof.
  intros _ _ He ds'.
  pose proof (cache_valid_empty download_and_open _ He) as Hv.
  destruct (getitem_valid download_and_open ds i Hv) as [H0 _].
  destruct (getitem_valid download_and_open ds' i
              (final_valid download_and_open ds before Hv)) as [H1 _].
  rewrite H1, H0.
  by rewrite (read_sample_same_tables download_and_open ds ds' i
                (final_same_tables download_and_open ds before)).
Qed.

Lemma getitem_independent_of_history_witness :
  (ShardListDataset_getitem one_fetch
     (final_state one_fetch one_dataset [0; 5; 1]%Z) 2).1.2
  = (ShardListDataset_getitem one_fetch one_dataset 2).1.2.
Proof.
  exact (proj1 (getitem_independent_of_history one_fetch one_dataset
                  [0; 5; 1]%Z 2 ltac:(cbn; lia)
                  ltac:(repeat constructor; lia) eq_refl)).
Defined.

(** X9. The four entries that [__getitem__] adds to a sample ([__dataset__],
    [__index__], [__shard__], [__shardindex__]) replace nothing: in a
    dataset without transformations, a returned sample holds every entry
    of the sample read from the shard (its [__key__] and its members, whose
    keys start with a ['.']) and exactly four more, among them the index
    asked for, the URL of the shard and the position within the shard. *)
Theorem getitem_adds_four_entries
    (download_and_open : string → string → result archive)
    (ds : ShardListDataset) (before : list Z) (i : Z) (smp : sample) :
  LRUCache.entries (lru (cache ds)) = [] →
  transformations ds = [] →
  (ShardListDataset_getitem download_and_open
     (final_state download_and_open ds before) i).1.2 = Ok smp →
  ∃ desc inner itf shard_smp,
    shards ds !! (locate (cum_lengths ds) i).1 = Some desc
    ∧ inner = (locate (cum_lengths ds) i).2
    ∧ (fetch_shard download_and_open (localname (cache ds)) (url desc)).2
      = Ok itf
    ∧ its_getitem itf inner = Ok shard_smp
    ∧ shard_smp ⊆ smp
    ∧ size smp = (size shard_smp + 4)%nat
    ∧ is_Some (smp !! "__key__"%string)
    ∧ smp !! "__dataset__"%string = Some (value_of_key (dataset desc))
    ∧ smp !! "__index__"%string = Some (VInt i)
    ∧ smp !! "__shard__"%string = Some (VStr (url desc))
    ∧ smp !! "__shardindex__"%string = Some (VInt inner).
Proof.
  intros He Hts Hget.
  pose proof (cache_valid_empty download_and_open _ He) as Hv.
  destruct (getitem_valid download_and_open _ i
              (final_valid download_and_open ds before Hv)) as [H1 _].
  rewrite H1 in Hget.
  rewrite (read_sample_same_tables download_and_open ds _ i
             (final_same_tables download_and_open ds before)) in Hget.
  unfold read_sample in Hget.
  destruct (locate (cum_lengths ds) i) as [k inner]. cbn [fst snd].
  destruct (shards ds !! k) as [desc|]; [|done].
  destruct (fetch_shard download_and_open (localname (cache ds)) (url desc))
    as [out [itf|e]] eqn:Hfe; [|done].
  cbn [snd mbind result_bind] in Hget.
  destruct (its_getitem itf inner) as [shard_smp|e] eqn:Hit; [|done].
  cbn [mbind result_bind] in Hget. rewrite Hts in Hget.
  cbn [apply_transformations] in Hget. injection Hget as <-.
  destruct (fetch_shard_init _ _ _ _ _ Hfe) as [tar Hinit].
  destruct (its_getitem_keys _ _ _ _ _ _ _ _ Hinit Hit) as [Hkey Hkeys].
  assert (∀ key, (∀ r, key ≠ String "." r) → key ≠ "__key__"%string →
            shard_smp !! key = None) as Hfresh.
  { intros key Hdot Hk. destruct (shard_smp !! key) as [v|] eqn:Hl; [|done].
    destruct (Hkeys key) as [?|[r ?]]; [by eexists|done|].
    by destruct (Hdot r). }
  exists desc, inner, itf, shard_smp.
  split; [done|]. split; [done|]. split; [by rewrite Hfe|]. split; [done|].
  unfold decorate.
  split.
  { repeat (apply insert_subseteq_r; [by apply Hfresh|]). done. }
  split.
  { rewrite !map_size_insert_None; [lia|..];
      rewrite ?lookup_insert_ne by done; by apply Hfresh. }
  split.
  { by rewrite !lookup_insert_ne by done. }
  split.
  { by rewrite !lookup_insert_ne, lookup_insert_eq by done. }
  split.
  { by rewrite !lookup_insert_ne, lookup_insert_eq by done. }
  split.
  { by rewrite lookup_insert_ne, lookup_insert_eq by done. }
  by rewrite lookup_insert_eq.
Qed.

Lemma getitem_adds_four_entries_witness :
  ∃ smp, (ShardListDataset_getitem one_fetch one_dataset 1).1.2 = Ok smp
         ∧ smp !! "__index__"%string = Some (VInt 1)
         ∧ is_Some (smp !! "__key__"%string).
Proof.
  assert (is_ok (ShardListDataset_getitem one_fetch one_dataset 1).1.2 = true)
    as Hok by (vm_compute; reflexivity).
  destruct (ShardListDataset_getitem one_fetch one_dataset 1).1.2
    as [smp|e] eqn:Hget; [|discriminate Hok].
  destruct (getitem_adds_four_entries one_fetch one_dataset [] 1 smp
              eq_refl eq_refl Hget)
    as (desc & inner & itf & shard_smp & _ & _ & _ & _ & _ & _ & Hkey
        & _ & Hidx & _).
  exists smp. split; [reflexivity|]. split; [exact Hidx|exact Hkey].
Defined.

(** * The sampler and the cache *)

Section sampler_blocks.

Variable rng : Type.
Variable Random : Z → rng.
Variable randbelow : rng → Z → Z * rng.

Hypothesis randbelow_range :
  ∀ g n, (0 < n)%Z → (0 ≤ (randbelow g n).1 < n)%Z.

(** One traversal, as blocks: the shard order, and one block per shard
    that is a permutation of the shard's range; the shards are in their
    own order when neither the epoch nor the flag asks for a shuffle. *)
Lemma sampler_iter_blocks (s : ShardListSampler rng) :
  ∃ out s' shardperm blocks,
    sampler_iter Random randbelow s = (Ok out, s')
    ∧ out = concat blocks
    ∧ shardperm ≡ₚ seq 0 (length (ranges s))
    ∧ (bool_decide (0 < epoch s)%Z || shufflefirst s = false →
         shardperm = seq 0 (length (ranges s)))
    ∧ Forall2 (λ sh blk, ∃ r, ranges s !! sh = Some r
                              ∧ blk ≡ₚ py_range r.1 r.2) shardperm blocks
    ∧ epoch s' = (epoch s + 1)%Z
    ∧ ranges s' = ranges s ∧ seed s' = seed s
    ∧ shufflefirst s' = shufflefirst s.
Proof using randbelow_range.
  unfold sampler_iter.
  set (g0 := Random _). set (n := length (ranges s)).
  assert (∃ sp g1,
    (if bool_decide (0 < epoch s)%Z || shufflefirst s
     then shuffle randbelow g0 (py_range 0 (Z.of_nat n))
     else (Ok (py_range 0 (Z.of_nat n)), g0)) = (Ok (Z.of_nat <$> sp), g1)
    ∧ sp ≡ₚ seq 0 n
    ∧ (bool_decide (0 < epoch s)%Z || shufflefirst s = false →
         sp = seq 0 n)) as (sp & g1 & -> & Hsp & Hid).
  { destruct (bool_decide (0 < epoch s)%Z || shufflefirst s).
    - destruct (shuffle_perm rng randbelow randbelow_range g0
                  (py_range 0 (Z.of_nat n))) as (x & g1 & -> & Hx).
      rewrite py_range_nat in Hx.
      destruct (perm_of_nat _ _ Hx) as (sp & -> & Hsp). by exists sp, g1.
    - exists (seq 0 n), g0. by rewrite py_range_nat. }
  assert (Forall (λ sh, (sh < length (ranges s))%nat) sp) as Hin.
  { apply Forall_forall. intros sh Hsh. rewrite Hsp in Hsh.
    apply elem_of_seq in Hsh. subst n. lia. }
  destruct (yield_shards_blocks rng randbelow randbelow_range (ranges s)
              sp g1 Hin) as (out & g2 & blocks & -> & -> & Hf).
  exists (concat blocks), (with_rng s g2 (epoch s + 1)), sp, blocks.
  by repeat split.
Qed.

Lemma Forall2_by_position {A B} (P : A → B → Prop) (l : list A)
    (bs : list B) :
  Forall2 (λ sh b, ∃ r, l !! sh = Some r ∧ P r b) (seq 0 (length l)) bs →
  Forall2 P l bs.
Proof.
  intros Hf. apply Forall2_same_length_lookup. split.
  - apply Forall2_length in Hf. by rewrite length_seq in Hf.
  - intros i r b Hr Hb.
    assert (seq 0 (length l) !! i = Some i) as Hi.
    { apply lookup_seq. split; [done|]. by eapply lookup_lt_Some. }
    destruct (Forall2_lookup_lr _ _ _ _ _ _ Hf Hi Hb) as (r' & Hr' & HP).
    congruence.
Qed.

End sampler_blocks.

(** X10. In the first epoch of a sampler that is not asked to shuffle the shards
    ([shufflefirst] unset, epoch 0), the shards are visited in their own
    order: the traversal yields one block per shard, in the order of the
    ranges, each block a permutation of its range. *)
Theorem first_epoch_keeps_shard_order (rng : Type) (Random : Z → rng)
    (randbelow : rng → Z → Z * rng) (s : ShardListSampler rng) :
  (∀ g n, (0 < n)%Z → (0 ≤ (randbelow g n).1 < n)%Z) →
  (epoch s ≤ 0)%Z →
  shufflefirst s = false →
  ∃ out s' blocks,
    sampler_iter Random randbelow s = (Ok out, s')
    ∧ out = concat blocks
    ∧ Forall2 (λ r blk, blk ≡ₚ py_range r.1 r.2) (ranges s) blocks.
Proof.
  intros Hrb He Hf.
  destruct (sampler_iter_blocks rng Random randbelow Hrb s)
    as (out & s' & sp & blocks & Hit & Hout & _ & Hid & Hblocks & _).
  rewrite Hid in Hblocks
    by (rewrite Hf, bool_decide_eq_false_2 by lia; done).
  exists out, s', blocks. split; [done|]. split; [done|].
  by apply Forall2_by_position.
Qed.

Lemma first_epoch_keeps_shard_order_witness :
  ∃ out s' blocks,
    sampler_iter lcg_seed lcg_randbelow
      (MkSampler (make_ranges 0 [5; 0; 3]%Z) 7 false 0 None) = (Ok out, s')
    ∧ out = concat blocks
    ∧ Forall2 (λ r blk, blk ≡ₚ py_range r.1 r.2)
        (make_ranges 0 [5; 0; 3]%Z) blocks.
Proof.
  apply (first_epoch_keeps_shard_order Z lcg_seed lcg_randbelow
           (MkSampler (make_ranges 0 [5; 0; 3]%Z) 7 false 0 None)).
  - intros g n Hn. cbn. apply Z.mod_pos_bound. lia.
  - cbn. lia.
  - reflexivity.
Defined.

(** * Reading in the order of the sampler *)

Section locality.

Variable download_and_open : string → string → result archive.

Local Open Scope Z_scope.

Local Abbreviation final := (final_state download_and_open).






End locality.



(** * The generator of the sampler *)

Section generator_steps.

Variable rng : Type.
Variable Random : Z → rng.
Variable randbelow : rng → Z → Z * rng.

(** The loop run up to its next [yield], against the loop run to its
    end. *)
Lemma next_yield_yield_shards rs sp g out g2 :
  yield_shards randbelow rs sp g = (Ok out, g2) →
  match next_yield randbelow rs sp g with
  | (Ok None, g') => out = [] ∧ g' = g2
  | (Ok (Some (x, pending, rest)), g') =>
      ∃ out', yield_shards randbelow rs rest g' = (Ok out', g2)
              ∧ out = x :: pending ++ out'
  | (Raise _, _) => False
  end.
Proof.
  revert g out. induction sp as [|shard rest IH]; intros g out.
  - cbn. by intros [= <- <-].
  - cbn [yield_shards next_yield].
    destruct (py_index rs shard) as [[start stop]|e]; [|done].
    destruct (shuffle randbelow g (py_range start stop))
      as [[indexes|e] g']; [|done].
    destruct (yield_shards randbelow rs rest g') as [[more|e] g''] eqn:Hy;
      [|done].
    intros [= <- <-]. destruct indexes as [|x pending].
    + by apply IH.
    + by exists more.
Qed.

Lemma with_rng_with_rng (s : ShardListSampler rng) g e g' e' :
  with_rng (with_rng s g e) g' e' = with_rng s g' e'.
Proof. done. Qed.

(** Draining a suspended generator to its end. *)
Lemma iter_take_all (s : ShardListSampler rng) g pending rest out g2 k :
  sampler_rng s = Some g →
  yield_shards randbelow (ranges s) rest g = (Ok out, g2) →
  (length (pending ++ out) < k)%nat →
  iter_take Random randbelow k s (Yielding pending rest)
  = (Ok (pending ++ out), with_rng s g2 (epoch s + 1), Finished).
Proof.
  revert s g pending rest out.
  induction k as [|k IH]; intros s g pending rest out Hg Hy Hk; [lia|].
  cbn [iter_take]. destruct pending as [|x pending]; cbn [iter_next].
  - unfold resume_loop. rewrite Hg.
    pose proof (next_yield_yield_shards _ _ _ _ _ Hy) as Hn.
    destruct (next_yield randbelow (ranges s) rest g)
      as [[[[[x pending'] rest']|]|e] g']; [| |done].
    + destruct Hn as (out' & Hy' & ->).
      rewrite (IH (with_rng s g' (epoch s)) g' pending' rest' out');
        [done|done|done|].
      cbn [app length] in Hk. lia.
    + by destruct Hn as [-> ->].
  - rewrite (IH s g pending rest out); [done|done|done|].
    cbn [app length] in Hk. lia.
Qed.

(** Taking no more than what is left: the epoch counter is not
    touched. *)
Lemma iter_take_some (s : ShardListSampler rng) g pending rest out g2 k :
  sampler_rng s = Some g →
  yield_shards randbelow (ranges s) rest g = (Ok out, g2) →
  (k ≤ length (pending ++ out))%nat →
  ∃ s' st',
    iter_take Random randbelow k s (Yielding pending rest)
    = (Ok (take k (pending ++ out)), s', st')
    ∧ st' ≠ Finished
    ∧ ranges s' = ranges s ∧ seed s' = seed s
    ∧ shufflefirst s' = shufflefirst s ∧ epoch s' = epoch s.
Proof.
  revert s g pending rest out.
  induction k as [|k IH]; intros s g pending rest out Hg Hy Hk.
  - by eexists _, _.
  - cbn [iter_take]. destruct pending as [|x pending]; cbn [iter_next].
    + unfold resume_loop. rewrite Hg.
      pose proof (next_yield_yield_shards _ _ _ _ _ Hy) as Hn.
      destruct (next_yield randbelow (ranges s) rest g)
        as [[[[[x pending'] rest']|]|e] g']; [| |done].
      * destruct Hn as (out' & Hy' & ->).
        destruct (IH (with_rng s g' (epoch s)) g' pending' rest' out')
          as (s' & st' & -> & ? & ? & ? & ? & ?);
          [done|done|cbn [app length] in Hk; lia|].
        by eexists _, _.
      * destruct Hn as [-> ->]. cbn in Hk. lia.
    + destruct (IH s g pending rest out)
        as (s' & st' & -> & ? & ? & ? & ? & ?);
        [done|done|cbn [app length] in Hk; lia|].
      by eexists _, _.
Qed.

Lemma sampler_iter_start (s : ShardListSampler rng) out s' :
  sampler_iter Random randbelow s = (Ok out, s') →
  ∃ sp g1 g2,
    (if bool_decide (0 < epoch s)%Z || shufflefirst s
     then shuffle randbelow (Random (seed s + 1289738273 * epoch s))
            (py_range 0 (Z.of_nat (length (ranges s))))
     else (Ok (py_range 0 (Z.of_nat (length (ranges s)))),
           Random (seed s + 1289738273 * epoch s))) = (Ok sp, g1)
    ∧ yield_shards randbelow (ranges s) sp g1 = (Ok out, g2)
    ∧ s' = with_rng s g2 (epoch s + 1).
Proof.
  unfold sampler_iter. cbn zeta.
  destruct (if bool_decide (0 < epoch s)%Z || shufflefirst s then _ else _)
    as [[sp|e] g1]; [|done].
  destruct (yield_shards randbelow (ranges s) sp g1) as [[o|e] g2] eqn:Hy;
    [|done].
  intros [= <- <-]. by exists sp, g1, g2.
Qed.

Lemma iter_take_start (s : ShardListSampler rng) sp g1 k :
  (if bool_decide (0 < epoch s)%Z || shufflefirst s
   then shuffle randbelow (Random (seed s + 1289738273 * epoch s))
          (py_range 0 (Z.of_nat (length (ranges s))))
   else (Ok (py_range 0 (Z.of_nat (length (ranges s)))),
         Random (seed s + 1289738273 * epoch s))) = (Ok sp, g1) →
  iter_take Random randbelow (S k) s NotStarted
  = iter_take Random randbelow (S k) (with_rng s g1 (epoch s))
      (Yielding [] sp).
Proof. intros Hs. cbn [iter_take iter_next]. by rewrite Hs. Qed.

End generator_steps.

(** X12. The generator of [__iter__], resumed until it stops, yields the
    sequence of the full traversal and leaves the sampler as the full
    traversal does, with the epoch counter incremented: running it with
    more calls of [next] than there are indices reaches [StopIteration]
    after the last index. *)
Theorem iter_take_exhausts (rng : Type) (Random : Z → rng)
    (randbelow : rng → Z → Z * rng) (s s' : ShardListSampler rng)
    (out : list Z) (k : nat) :
  sampler_iter Random randbelow s = (Ok out, s') →
  (length out < k)%nat →
  iter_take Random randbelow k s NotStarted = (Ok out, s', Finished)
  ∧ epoch s' = (epoch s + 1)%Z.
Proof.
  intros (sp & g1 & g2 & Hs & Hy & ->)%sampler_iter_start Hk.
  split; [|done].
  destruct k as [|k]; [lia|].
  rewrite (iter_take_start rng Random randbelow s sp g1 k Hs).
  rewrite (iter_take_all rng Random randbelow (with_rng s g1 (epoch s)) g1 []
             sp out g2); done.
Qed.

Lemma iter_take_exhausts_witness :
  ∃ out s',
    iter_take lcg_seed lcg_randbelow 9
      (MkSampler (make_ranges 0 [5; 0; 3]%Z) 7 true 3 None) NotStarted
    = (Ok out, s', Finished)
    ∧ epoch s' = 4%Z.
Proof.
  destruct (sampler_iter lcg_seed lcg_randbelow
              (MkSampler (make_ranges 0 [5; 0; 3]%Z) 7 true 3 None))
    as [r s'] eqn:Hit.
  assert (is_ok r = true ∧ (∀ out, r = Ok out → length out = 8%nat))
    as [Hok Hlen].
  { assert (r = (sampler_iter lcg_seed lcg_randbelow
              (MkSampler (make_ranges 0 [5; 0; 3]%Z) 7 true 3 None)).1) as ->
      by (by rewrite Hit).
    vm_compute. split; [reflexivity|]. intros out [= <-]. reflexivity. }
  destruct r as [out|e]; [|discriminate Hok].
  destruct (iter_take_exhausts Z lcg_seed lcg_randbelow _ s' out 9 Hit)
    as [Htake He].
  - rewrite (Hlen out eq_refl). lia.
  - exists out, s'. split; [exact Htake|exact He].
Defined.

(** X13. A traversal that is abandoned, however late, does not count as an
    epoch: after [k] indices were taken from the generator, [k] being at
    most the number of indices (and even all of them, as long as the
    generator was not resumed once more), the generator has not finished,
    the epoch counter is unchanged, and a new traversal yields the same
    sequence again, of which the indices taken were the first [k]. *)
Theorem iter_take_keeps_epoch (rng : Type) (Random : Z → rng)
    (randbelow : rng → Z → Z * rng) (s s' : ShardListSampler rng)
    (out : list Z) (k : nat) :
  sampler_iter Random randbelow s = (Ok out, s') →
  (k ≤ length out)%nat →
  ∃ s1 st1,
    iter_take Random randbelow k s NotStarted = (Ok (take k out), s1, st1)
    ∧ st1 ≠ Finished
    ∧ epoch s1 = epoch s
    ∧ (sampler_iter Random randbelow s1).1 = Ok out.
Proof.
  intros Hit Hk.
  destruct (sampler_iter_start rng Random randbelow s out s' Hit)
    as (sp & g1 & g2 & Hs & Hy & ->).
  assert (∀ s1 : ShardListSampler rng,
            ranges s1 = ranges s → seed s1 = seed s →
            shufflefirst s1 = shufflefirst s → epoch s1 = epoch s →
            (sampler_iter Random randbelow s1).1 = Ok out) as Hsame.
  { intros s1 Hr Hse Hf He. unfold sampler_iter in *. cbn zeta in *.
    rewrite Hr, Hse, Hf, He, Hs, Hy. done. }
  destruct k as [|k].
  - exists s, NotStarted. split; [done|]. split; [done|]. split; [done|].
    by apply Hsame.
  - rewrite (iter_take_start rng Random randbelow s sp g1 k Hs).
    destruct (iter_take_some rng Random randbelow (with_rng s g1 (epoch s))
                g1 [] sp out g2 (S k))
      as (s1 & st1 & Htake & Hst & Hr & Hse & Hf & He); [done|done|done|].
    exists s1, st1. split; [done|]. split; [done|]. split; [done|].
    by apply Hsame.
Qed.

Lemma iter_take_keeps_epoch_witness :
  ∃ s1 st1 out,
    iter_take lcg_seed lcg_randbelow 8
      (MkSampler (make_ranges 0 [5; 0; 3]%Z) 7 true 3 None) NotStarted
    = (Ok out, s1, st1)
    ∧ length out = 8%nat
    ∧ epoch s1 = 3%Z.
Proof.
  destruct (sampler_iter lcg_seed lcg_randbelow
              (MkSampler (make_ranges 0 [5; 0; 3]%Z) 7 true 3 None))
    as [r s'] eqn:Hit.
  assert (is_ok r = true ∧ (∀ out, r = Ok out → length out = 8%nat))
    as [Hok Hlen].
  { assert (r = (sampler_iter lcg_seed lcg_randbelow
              (MkSampler (make_ranges 0 [5; 0; 3]%Z) 7 true 3 None)).1) as ->
      by (by rewrite Hit).
    vm_compute. split; [reflexivity|]. intros out [= <-]. reflexivity. }
  destruct r as [out|e]; [|discriminate Hok].
  destruct (iter_take_keeps_epoch Z lcg_seed lcg_randbelow _ s' out 8 Hit)
    as (s1 & st1 & Htake & _ & He & _).
  - rewrite (Hlen out eq_refl). lia.
  - exists s1, st1, (take 8 out). split; [exact Htake|].
    split; [|exact He].
    rewrite length_take, (Hlen out eq_refl). reflexivity.
Defined.

(** * Construction of the dataset *)

(** X14. [ShardListDataset.__init__] on a list of descriptors. An empty list is
    refused with [IndexError] (the last entry of the cumulative table is
    read) before any directory is made. On a list that is not empty, with
    non-negative sample counts whose total fits the int64 table: when the
    cache directory to be made is the empty path (given as [cache_dir], or
    through WIDS_CACHE when neither [cache_dir] nor [localname] is given),
    the construction fails with [FileNotFoundError]; when a local-name
    function is given and no cache directory, no directory is made and the
    construction succeeds; and whenever the construction succeeds, nothing
    has been fetched: the length of the dataset is the sum of the sample
    counts, the pool is empty, both counters are 0 and the cache-health
    check is on. *)
Theorem ShardListDataset_init_outcome
    (urlparse_path : string → string)
    (descs : list ShardDesc) (cache_size : Z) (cdir : option string)
    (cache_cleanup : option Z) (lname : option (string → string))
    (ts : list (sample → result sample)) (wids_cache : option string) :
  ShardListDataset_init urlparse_path [] cache_size cdir cache_cleanup
    lname ts wids_cache = Raise IndexError
  ∧ (descs ≠ [] →
     Forall (λ d, 0 ≤ nsamples d)%Z descs →
     (sumZ (nsamples <$> descs) < 2 ^ 63)%Z →
     (cdir = Some EmptyString
      ∨ (cdir = None ∧ lname = None ∧ wids_cache = Some EmptyString) →
      ShardListDataset_init urlparse_path descs cache_size cdir
        cache_cleanup lname ts wids_cache = Raise FileNotFoundError)
     ∧ (cdir = None → ∀ f, lname = Some f →
        ∃ ds,
          ShardListDataset_init urlparse_path descs cache_size cdir
            cache_cleanup lname ts wids_cache = Ok ds
          ∧ cache_dir ds = None
          ∧ localname (cache ds) = f
          ∧ cleanup ds = None)
     ∧ (∀ ds,
          ShardListDataset_init urlparse_path descs cache_size cdir
            cache_cleanup lname ts wids_cache = Ok ds →
          ShardListDataset_len ds = sumZ (nsamples <$> descs)
          ∧ shards ds = descs
          ∧ transformations ds = ts
          ∧ LRUCache.capacity (lru (cache ds)) = cache_size
          ∧ LRUShards_len (cache ds) = 0%Z
          ∧ get_stats ds = (0%Z, 0%Z)
          ∧ check_enabled ds = true)).
Proof.
  split; [done|]. intros Hne Hnn Hsum.
  set (lens := nsamples <$> descs).
  assert (Forall (λ x, 0 ≤ x)%Z lens) as Hl by (by apply Forall_fmap).
  assert (Np.cumsum lens = Ok (prefix_sums 0 lens)) as Hcum.
  { unfold Np.cumsum. rewrite asarray_ok by done. cbn [mbind result_bind].
    by rewrite cumsum_from_exact by (done || lia). }
  assert (py_index (prefix_sums 0 lens) (-1) = Ok (sumZ lens)) as Hpy.
  { apply py_index_last. rewrite last_lookup, prefix_sums_length.
    assert (length lens ≠ 0%nat)
      by (subst lens; rewrite length_fmap; destruct descs; simpl; [done|lia]).
    rewrite prefix_sums_lookup by lia.
    f_equal. rewrite take_ge by lia. lia. }
  split; [|split].
  - unfold ShardListDataset_init. fold lens. rewrite Hcum.
    cbn [mbind result_bind]. rewrite Hpy. cbn [mbind result_bind].
    by intros [->|(-> & -> & ->)].
  - intros -> f ->. unfold ShardListDataset_init. fold lens. rewrite Hcum.
    cbn [mbind result_bind]. rewrite Hpy. cbn [mbind result_bind].
    eexists. split; [done|]. cbn. by destruct cache_cleanup.
  - intros ds Hinit.
    apply ShardListDataset_init_inv in Hinit
      as (cum & total & cd & ln & Hcum' & Hpy' & ->).
    fold lens in Hcum'. rewrite Hcum in Hcum'. injection Hcum' as <-.
    rewrite Hpy in Hpy'. injection Hpy' as <-.
    by repeat split.
Qed.

Lemma ShardListDataset_init_outcome_witness :
  (∃ ds, ShardListDataset_init (λ s, s) example_shards 2 None (Some 10%Z)
           (Some (default_localname "/tmp/_wids_cache")) [] None = Ok ds
         ∧ cache_dir ds = None ∧ cleanup ds = None)
  ∧ ShardListDataset_init (λ s, s) example_shards 2 (Some EmptyString)
      (Some 10%Z) (Some (default_localname "/tmp/_wids_cache")) [] None
    = Raise FileNotFoundError.
Proof.
  split.
  - destruct (proj2 (ShardListDataset_init_outcome (λ s, s) example_shards 2
                       None (Some 10%Z)
                       (Some (default_localname "/tmp/_wids_cache")) [] None))
      as (_ & Hok & _).
    + discriminate.
    + repeat constructor; simpl; lia.
    + vm_compute. reflexivity.
    + destruct (Hok eq_refl _ eq_refl) as (ds & Hinit & Hdir & _ & Hcl).
      exists ds. split; [exact Hinit|]. split; [exact Hdir|exact Hcl].
  - destruct (proj2 (ShardListDataset_init_outcome (λ s, s) example_shards 2
                       (Some EmptyString) (Some 10%Z)
                       (Some (default_localname "/tmp/_wids_cache")) [] None))
      as (Hfail & _).
    + discriminate.
    + repeat constructor; simpl; lia.
    + vm_compute. reflexivity.
    + apply Hfail. by left.
Defined.

(** * The flat local names *)

Section flat_names.

Local Open Scope string_scope.

Lemma basename_no_slash p : Urllib.mem "/" (basename p) = false.
Proof.
  induction p as [|c r IH]; [done|]. cbn [basename].
  destruct (Urllib.mem "/" r) eqn:Hr; [done|].
  destruct (Ascii.eqb_spec c "/") as [->|Hne]; [done|].
  cbn [Urllib.mem]. rewrite Hr, orb_false_r.
  apply Ascii.eqb_neq. congruence.
Qed.

Lemma basename_suffix p :
  ∃ dir, p = dir +:+ basename p
         ∧ (dir = EmptyString ∨ ends_with_slash dir = true).
Proof.
  induction p as [|c r IH]; [exists EmptyString; by split; [|left]|].
  cbn [basename]. destruct (Urllib.mem "/" r) eqn:Hr.
  - destruct IH as (dir & Hdir & Hs). exists (String c dir).
    split; [rewrite append_cons; by f_equal|]. right.
    destruct Hs as [->|Hs].
    + (* the rest has a separator, so its directory part is not empty *)
      exfalso. assert (r = basename r) as Hr' by exact Hdir.
      rewrite Hr', basename_no_slash in Hr. done.
    + cbn [ends_with_slash]. by destruct dir.
  - destruct (Ascii.eqb_spec c "/") as [->|Hne].
    + exists "/". split; [done|by right].
    + exists EmptyString. split; [done|by left].
Qed.

End flat_names.

(** X15. The local name that [cache_localname] gives a shard is the file name
    part of its URL path, placed directly in the cache directory: it keeps
    nothing of the directories of the URL, so two shards whose paths end
    with the same file name get the same local name (and a path that ends
    with a separator gets the directory itself). *)
Theorem cache_localname_flat (urlparse_path : string → string)
    (cachedir shard : string) :
  let fname := basename (urlparse_path shard) in
  cache_localname urlparse_path cachedir shard
  = localname_base cachedir +:+ fname
  ∧ Urllib.mem "/" fname = false
  ∧ (∃ dir, urlparse_path shard = dir +:+ fname
            ∧ (dir = EmptyString ∨ ends_with_slash dir = true))
  ∧ (∀ shard', basename (urlparse_path shard') = fname →
       cache_localname urlparse_path cachedir shard'
       = cache_localname urlparse_path cachedir shard).
Proof.
  cbn zeta. split.
  { unfold cache_localname. apply path_join_relative, basename_no_slash. }
  split; [apply basename_no_slash|]. split; [apply basename_suffix|].
  intros shard' Hb. unfold cache_localname. by rewrite Hb.
Qed.

Lemma cache_localname_flat_witness :
  cache_localname (λ u, u) "/cache" "/data/train/shard-0.tar"
  = cache_localname (λ u, u) "/cache" "/data/val/shard-0.tar".
Proof.
  apply (cache_localname_flat (λ u, u) "/cache" "/data/val/shard-0.tar").
  reflexivity.
Defined.

(** * compute_file_md5sum *)

Section md5sum_chunks.

Variable md5_state : Type.
Variable md5_new : md5_state.
Variable md5_update : md5_state → data → md5_state.
Variable md5_hexdigest : md5_state → string.
Variable open_rb : string → result data.

(** [update] with nothing changes nothing, and two updates are the update
    with the concatenation. *)
Hypothesis update_nil : ∀ h, md5_update h [] = h.
Hypothesis update_app :
  ∀ h a b, md5_update (md5_update h a) b = md5_update h (a ++ b).

(** The loop feeds the hash object with what is left of the file, whatever
    the size of the chunks, and leaves the file at its end. *)
Lemma md5_loop_rest chunksize h f :
  chunksize ≠ 0%Z →
  (pos f ≤ length (content f))%nat →
  md5_loop md5_state md5_update chunksize h f
  = (md5_update h (drop (pos f) (content f)),
     Stream (content f) (length (content f))).
Proof using update_nil update_app.
  intros Hc. funelim (md5_loop md5_state md5_update chunksize h f);
    intros Hpos.
  - clear Heqcall.
    match goal with H : _ = [] |- _ => rename H into He end.
    assert (drop (pos f) (content f) = []) as Hd.
    { destruct (decide (chunksize < 0)%Z); [done|].
      destruct (drop (pos f) (content f)) as [|x l]; [done|].
      destruct (Z.to_nat chunksize) eqn:Hn; [lia|done]. }
    rewrite He, Hd, update_nil. cbn [length].
    apply (f_equal length) in Hd. rewrite length_drop in Hd.
    cbn [length] in Hd. do 2 f_equal. lia.
  - clear Heqcall.
    match goal with H : _ = b :: chunk |- _ => rename H into He end.
    match goal with H : _ → _ → md5_loop _ _ _ _ _ = _ |- _ =>
      rename H into IH end.
    set (rest := drop (pos f) (content f)) in *.
    assert (rest = (b :: chunk)
                   ++ drop (pos f + length (b :: chunk)) (content f))
      as Hrest.
    { rewrite <- drop_drop. fold rest. rewrite <- He.
      destruct (decide (chunksize < 0)%Z).
      - by rewrite drop_all, app_nil_r.
      - rewrite length_take.
        destruct (decide (Z.to_nat chunksize ≤ length rest)%nat).
        + by rewrite Nat.min_l, take_drop.
        + rewrite Nat.min_r, drop_all, take_ge, app_nil_r by lia. done. }
    rewrite He in IH |- *. cbn [content pos] in IH.
    rewrite IH.
    + by rewrite update_app, <- Hrest.
    + done.
    + apply (f_equal length) in Hrest.
      subst rest. rewrite length_drop, length_app in Hrest. lia.
Qed.

Lemma md5_loop_zero h f :
  md5_loop md5_state md5_update 0 h f = (h, f).
Proof.
  funelim (md5_loop md5_state md5_update 0 h f).
  - clear Heqcall.
    match goal with H : _ = [] |- _ => rewrite H end.
    cbn [length]. rewrite Nat.add_0_r. by destruct f.
  - exfalso.
    match goal with H : _ = b :: chunk |- _ => rename H into He end.
    rewrite decide_False in He by lia. by rewrite take_0 in He.
Qed.

End md5sum_chunks.

(** X16. The digest that [compute_file_md5sum] returns does not depend on the
    chunk size, as long as it is not 0: for a file object, whatever its
    position was, it is the digest of the whole content, read in chunks of
    [chunksize] bytes (in one piece when [chunksize] is negative), and the
    object is left at its end; for a file name it is the digest of the
    content of the file, and the error of [open] when the file cannot be
    opened. With a chunk size of 0 the first read is empty, and the digest
    is the one of the empty input, whatever the file holds. *)
Theorem compute_file_md5sum_chunks (md5_state : Type) (md5_new : md5_state)
    (md5_update : md5_state → data → md5_state)
    (md5_hexdigest : md5_state → string)
    (open_rb : string → result data)
    (f : stream) (name : string) (chunksize : Z) :
  (∀ h, md5_update h [] = h) →
  (∀ h a b, md5_update (md5_update h a) b = md5_update h (a ++ b)) →
  let sum := compute_file_md5sum md5_state md5_new md5_update md5_hexdigest
               open_rb in
  (chunksize ≠ 0%Z →
     sum (inr f) chunksize
     = Ok (md5_hexdigest (md5_update md5_new (content f)),
           Some (Stream (content f) (length (content f))))
     ∧ sum (inl name) chunksize
       = (c ← open_rb name;
          Ok (md5_hexdigest (md5_update md5_new c), None)))
  ∧ sum (inr f) 0%Z = Ok (md5_hexdigest md5_new, Some (stream_seek f 0))
  ∧ sum (inl name) 0%Z = (c ← open_rb name; Ok (md5_hexdigest md5_new, None)).
Proof.
  intros Hnil Happ sum. subst sum. unfold compute_file_md5sum.
  split; [intros Hc; split|split].
  - rewrite (md5_loop_rest md5_state md5_update Hnil Happ) by (cbn; lia || done).
    done.
  - destruct (open_rb name) as [c|e]; [|done]. cbn [mbind result_bind].
    rewrite (md5_loop_rest md5_state md5_update Hnil Happ) by (cbn; lia || done).
    done.
  - by rewrite md5_loop_zero.
  - destruct (open_rb name) as [c|e]; [|done]. cbn [mbind result_bind].
    by rewrite md5_loop_zero.
Qed.

Lemma compute_file_md5sum_chunks_witness :
  compute_file_md5sum data [] toy_update toy_hexdigest (λ _, Raise FetchError)
    (inr (Stream [Byte.x01; Byte.x02; Byte.x03; Byte.x04; Byte.x05] 3)) 2
  = Ok ("5"%string,
        Some (Stream [Byte.x01; Byte.x02; Byte.x03; Byte.x04; Byte.x05] 5)).
Proof.
  refine (proj1 (proj1 (compute_file_md5sum_chunks data [] toy_update
    toy_hexdigest (λ _, Raise FetchError)
    (Stream [Byte.x01; Byte.x02; Byte.x03; Byte.x04; Byte.x05] 3)
    EmptyString 2 _ _) _)).
  - intros h. unfold toy_update. apply app_nil_r.
  - intros h a b. unfold toy_update. symmetry. apply app_assoc.
  - lia.
Defined.

(** * Hashed names *)

Section hashed_names_facts.

Local Open Scope string_scope.

Lemma digit_urlsafe n : (n < 64)%N → urlsafe_char (Base64.digit n) = true.
Proof.
  intros Hn.
  assert (forallb (λ k, urlsafe_char (Base64.digit (N.of_nat k)))
            (seq 0 64) = true) as Hall by (vm_compute; reflexivity).
  rewrite forallb_forall in Hall.
  specialize (Hall (N.to_nat n)). rewrite N2Nat.id in Hall.
  apply Hall, in_seq. lia.
Qed.

(** The digits written for whole groups of three bytes. *)
Lemma encode_digits bs k :
  Forall (λ b, b < 256)%N bs →
  (3 * k ≤ length bs)%nat →
  str_forall urlsafe_char (str_take (4 * k) (Base64.encode bs)) = true
  ∧ String.length (str_take (4 * k) (Base64.encode bs)) = (4 * k)%nat.
Proof.
  revert bs. induction k as [|k IH]; intros bs Hb Hk; [done|].
  destruct bs as [|a [|b [|c rest]]]; cbn [length] in Hk; try lia.
  inversion Hb as [|? ? Ha Hb1]; subst.
  inversion Hb1 as [|? ? Hb' Hb2]; subst.
  inversion Hb2 as [|? ? Hc Hrest]; subst.
  replace (4 * S k)%nat with (S (S (S (S (4 * k))))) by lia.
  cbn [Base64.encode str_take str_forall String.length].
  destruct (IH rest Hrest ltac:(lia)) as [-> ->].
  rewrite !digit_urlsafe; [done|..].
  - apply N.mod_lt. lia.
  - pose proof (N.mod_lt b 16 ltac:(lia)).
    pose proof (N.Div0.div_lt_upper_bound c 64 4 ltac:(lia)). lia.
  - pose proof (N.mod_lt a 4 ltac:(lia)).
    pose proof (N.Div0.div_lt_upper_bound b 16 16 ltac:(lia)). lia.
  - apply N.Div0.div_lt_upper_bound. lia.
Qed.

Lemma urlsafe_no_slash s :
  str_forall urlsafe_char s = true → Urllib.mem "/" s = false.
Proof.
  induction s as [|c r IH]; [done|]. cbn [str_forall Urllib.mem].
  intros [Hc Hr]%andb_true_iff. rewrite (IH Hr), orb_false_r.
  destruct (Ascii.eqb_spec "/" c) as [<-|]; [|done].
  by vm_compute in Hc.
Qed.

Lemma mem_app c s t :
  Urllib.mem c (s +:+ t) = Urllib.mem c s || Urllib.mem c t.
Proof.
  induction s as [|d s IH]; [done|]. rewrite append_cons.
  cbn [Urllib.mem]. by rewrite IH, orb_assoc.
Qed.

End hashed_names_facts.

(** X17. With a digest of 32 bytes, the name that [hash_dataset_name] returns
    has 16 characters, all of them letters, digits, ['-'] or ['_']. The
    local name of [hash_localname] is a file directly in the download
    directory: [pipe__] and 32 such characters for a pipe URL, which is not
    recorded in the database, and otherwise [data__], 16 such characters
    for the directory of the URL, [__] and the file name of the URL path,
    which is recorded for the URL, replacing what the table had for it. *)
Theorem hashed_names_safe (sha256 : string → list N)
    (urldir urlparse_path : string → string)
    (dldir shard input_string : string)
    (db : gmap string (string * option string)) :
  (∀ s, length (sha256 s) = 32%nat ∧ Forall (λ b, b < 256)%N (sha256 s)) →
  (String.length (hash_dataset_name sha256 input_string) = 16%nat
   ∧ str_forall urlsafe_char (hash_dataset_name sha256 input_string) = true)
  ∧ ∃ file,
      (hash_localname sha256 urldir urlparse_path dldir shard db).1
      = localname_base dldir +:+ file
      ∧ Urllib.mem "/" file = false
      ∧ if String.prefix "pipe:" shard
        then (∃ hex32, file = ("pipe__" +:+ hex32)%string
                       ∧ String.length hex32 = 32%nat
                       ∧ str_forall urlsafe_char hex32 = true)
             ∧ (hash_localname sha256 urldir urlparse_path dldir shard db).2
               = db
        else (∃ hex16, file = ("data__" +:+ hex16 +:+ "__"
                               +:+ basename (urlparse_path shard))%string
                       ∧ String.length hex16 = 16%nat
                       ∧ str_forall urlsafe_char hex16 = true)
             ∧ (hash_localname sha256 urldir urlparse_path dldir shard db).2
               = <[shard := (file, None)]> db.
Proof.
  intros Hsha.
  assert (∀ s k, (k ≤ 10)%nat →
            str_forall urlsafe_char
              (str_take (4 * k) (Base64.encode (sha256 s))) = true
            ∧ String.length (str_take (4 * k) (Base64.encode (sha256 s)))
              = (4 * k)%nat) as Hdigits.
  { intros s k Hk. destruct (Hsha s) as [Hlen Hb].
    apply encode_digits; [done|]. rewrite Hlen. lia. }
  split.
  { unfold hash_dataset_name. destruct (Hdigits input_string 4%nat) as [? ?];
      [lia|]. done. }
  unfold hash_localname.
  destruct (String.prefix "pipe:" shard).
  - destruct (Hdigits shard 8%nat) as [Hs Hl]; [lia|].
    change (4 * 8)%nat with 32%nat in Hs, Hl.
    eexists. split; [|split; [|split; [by eexists|done]]].
    + cbn [fst]. apply path_join_relative.
      rewrite mem_app, (urlsafe_no_slash _ Hs). done.
    + rewrite mem_app, (urlsafe_no_slash _ Hs). done.
  - destruct (Hdigits (urldir shard) 4%nat) as [Hs Hl]; [lia|].
    change (4 * 4)%nat with 16%nat in Hs, Hl.
    assert (Urllib.mem "/"
              ("data__" +:+ str_take 16 (Base64.encode (sha256 (urldir shard)))
               +:+ "__" +:+ basename (urlparse_path shard))%string = false)
      as Hno.
    { rewrite !mem_app, (urlsafe_no_slash _ Hs), basename_no_slash. done. }
    eexists. split; [|split; [|split; [by eexists|done]]].
    + cbn [fst]. by apply path_join_relative.
    + done.
Qed.

Lemma hashed_names_safe_witness :
  String.length (hash_dataset_name toy_sha256 "shards") = 16%nat.
Proof.
  refine (proj1 (proj1 (hashed_names_safe toy_sha256 (λ u, u) (λ u, u)
                          "/tmp" "a.tar" "shards" ∅ _))).
  intros s. split.
  - apply length_replicate.
  - apply Forall_replicate. apply N.mod_lt. lia.
Defined.

(** * The characters of the escaped local names *)

Section escaped_names.

Local Open Scope string_scope.

Lemma str_forall_app P s t :
  str_forall P (s +:+ t) = str_forall P s && str_forall P t.
Proof.
  induction s as [|c s IH]; [done|]. rewrite append_cons.
  cbn [str_forall]. by rewrite IH, andb_assoc.
Qed.

Lemma quote_byte_chars_ok c : quote_byte_chars c = true.
Proof. apply all_bytes. vm_compute. reflexivity. Qed.

End escaped_names.

(** X18. The file name that [default_localname] gives a shard is made of
    letters, digits and the characters [_.-~+%] only; a shard identifier
    made of letters, digits and [_.-~+] is its own file name (so [".."] is
    kept as it is), and every other byte of the UTF-8 encoding of the
    identifier is written with three characters: the name has between one
    and three times as many characters as the encoded identifier has
    bytes (which is the length of the identifier when it is ASCII; a
    character outside ASCII is written with 6 to 12 characters). *)
Theorem default_localname_chars (dldir shard : string) :
  let name := Urllib.quote "+-" shard in
  default_localname dldir shard = localname_base dldir +:+ name
  ∧ str_forall escaped_char name = true
  ∧ (utf8_length shard ≤ String.length name ≤ 3 * utf8_length shard)%nat
  ∧ (str_forall plain_char shard = true ↔ name = shard).
Proof.
  cbn zeta. unfold utf8_length. split.
  { unfold default_localname. apply path_join_relative, quote_no_slash. }
  induction shard as [|c r (IH1 & IH2 & IH3)]; [done|].
  cbn [Urllib.quote str_forall String.length].
  pose proof (quote_byte_chars_ok c) as Hc. unfold quote_byte_chars in Hc.
  apply andb_true_iff in Hc as [Hc1 Hc2].
  rewrite str_forall_app, Hc1, IH1, length_append.
  split; [done|].
  destruct (plain_char c) eqn:Hp.
  - apply bool_decide_eq_true in Hc2. rewrite Hc2.
    cbn [String.length]. split; [lia|].
    change (String c EmptyString +:+ ?t) with (String c t).
    rewrite andb_true_l, IH3. split; [by intros ->|by intros [= ?]].
  - apply bool_decide_eq_true in Hc2. rewrite Hc2. split; [lia|].
    split; [done|]. intros Heq. apply (f_equal String.length) in Heq.
    rewrite length_append, Hc2 in Heq. cbn [String.length] in Heq. lia.
Qed.

(** * default_decoder *)

Section decoder_facts.

Import Decoder.

Variable obj : Type.
Variable gzip_decompress : data → option data.
Variable utf8_decode : data → option string.
Variable parse_int : string → option Z.
Variable pil_open : dvalue obj → option obj.
Variable json_loads : data → option obj.
Variable np_load : dvalue obj → option obj.
Variable import_msgpack : bool.
Variable msgpack_unpackb : data → option obj.
Variable torch_load : dvalue obj → option obj.
Variable pickle_load : dvalue obj → option obj.

Local Abbreviation entry :=
  (decode_entry obj gzip_decompress utf8_decode parse_int pil_open
     json_loads np_load import_msgpack msgpack_unpackb torch_load
     pickle_load).
Local Abbreviation entries :=
  (decode_entries obj gzip_decompress utf8_decode parse_int pil_open
     json_loads np_load import_msgpack msgpack_unpackb torch_load
     pickle_load).

(** An image entry is decoded with the format ["PIL"] only. *)
Lemma decode_entry_image format key v :
  is_image_key key = true →
  format ≠ Some "PIL"%string →
  match entry format key v with
  | Done _ => False
  | Fail e =>
      not_zipped key = true →
      e = if bool_decide (format = Some "numpy"%string)
          then UnboundLocalError else ValueError
  end.
Proof.
  unfold is_image_key, not_zipped, decode_entry, unzip_entry.
  intros [Hpre Himg]%andb_true_iff Hfmt.
  apply negb_true_iff in Hpre. cbn zeta in *.
  assert (∀ ext, is_in ext image_extensions = true →
            is_in ext ["txt"; "text"]%string = false
            ∧ is_in ext ["cls"; "cls2"]%string = false) as Hother.
  { intros ext Hext. unfold is_in, image_extensions in *.
    apply bool_decide_eq_true in Hext.
    split; apply bool_decide_eq_false; intros Hin;
      repeat (apply elem_of_cons in Hext as [->|Hext];
              [by repeat (apply elem_of_cons in Hin as [?|Hin]; [done|]);
                apply elem_of_nil in Hin|]);
      by apply elem_of_nil in Hext. }
  destruct (is_in (List.last (split_dots key) EmptyString) ["gz"%string]).
  - apply andb_true_iff in Himg as [Hlen Himg].
    apply negb_true_iff in Hlen. rewrite Hlen.
    destruct (read_all obj v) as [[d held]|e]; cbn [mbind outcome_bind];
      [|done].
    destruct (gzip_decompress d) as [dd|]; cbn [lib mbind outcome_bind];
      [|done].
    rewrite Hpre. destruct (Hother _ Himg) as [-> ->]. rewrite Himg.
    rewrite bool_decide_eq_false_2 by done.
    destruct (bool_decide (format = Some "numpy"%string)); done.
  - cbn [mbind outcome_bind]. rewrite Hpre.
    destruct (Hother _ Himg) as [-> ->]. rewrite Himg.
    rewrite bool_decide_eq_false_2 by done.
    destruct (bool_decide (format = Some "numpy"%string)); done.
Qed.

Lemma decode_entries_app format items1 items2 :
  entries format (items1 ++ items2)
  = (r1 ← entries format items1;
     r2 ← entries format items2;
     Done (r1 ++ r2)).
Proof.
  induction items1 as [|[k v] items1 IH]; cbn [app decode_entries].
  - cbn [mbind outcome_bind]. by destruct (entries format items2).
  - destruct (entry format k v) as [v'|e]; cbn [mbind outcome_bind]; [|done].
    rewrite IH. destruct (entries format items1) as [r1|e];
      cbn [mbind outcome_bind]; [|done].
    destruct (entries format items2) as [r2|e]; cbn [mbind outcome_bind];
      done.
Qed.

(** What an iteration keeps. *)
Lemma decode_entry_kept format key v v' :
  entry format key v = Done v' →
  not_zipped key = true →
  String.prefix "__" key = true →
  v' = v.
Proof.
  unfold decode_entry, unzip_entry, not_zipped. cbn zeta.
  intros Hd Hz%negb_true_iff Hp. rewrite Hz in Hd.
  cbn [mbind outcome_bind] in Hd. rewrite Hp in Hd. by injection Hd.
Qed.

Lemma decode_entries_keys format items res :
  entries format items = Done res →
  res.*1 = items.*1
  ∧ ∀ key v, (key, v) ∈ items → not_zipped key = true →
      String.prefix "__" key = true → (key, v) ∈ res.
Proof.
  revert res. induction items as [|[k v] items IH]; intros res.
  - intros [= <-]. split; [done|]. by intros ? ? ?%elem_of_nil.
  - cbn [decode_entries].
    destruct (entry format k v) as [v'|e] eqn:He; cbn [mbind outcome_bind];
      [|done].
    destruct (entries format items) as [r|e]; cbn [mbind outcome_bind];
      [|done].
    intros [= <-]. destruct (IH r eq_refl) as [Hk Hin].
    split; [cbn; by rewrite Hk|].
    intros key w [[= -> ->]|Hw]%elem_of_cons Hz Hp.
    + rewrite (decode_entry_kept _ _ _ _ He Hz Hp). by left.
    + right. by apply Hin.
Qed.

End decoder_facts.

(** X19. [default_decoder] decodes images with the format ["PIL"] only. On
    a sample that has an image entry (a key that does not start with two
    underscores and whose extension, or the one before a final [gz], is
    jpg, png, ppm, pgm, pbm or pnm) it never returns with any other format:
    when the entries before the image entry are decoded and the key does
    not end in [gz], it raises [UnboundLocalError] for the format ["numpy"]
    (the branch uses [PIL], which is a local name of the function without
    a value there) and [ValueError] for every other format, the default
    [True] included. *)
Theorem default_decoder_images (obj : Type)
    (gzip_decompress : data → option data)
    (utf8_decode : data → option string) (parse_int : string → option Z)
    (pil_open : Decoder.dvalue obj → option obj)
    (json_loads : data → option obj)
    (np_load : Decoder.dvalue obj → option obj) (import_msgpack : bool)
    (msgpack_unpackb : data → option obj)
    (torch_load pickle_load : Decoder.dvalue obj → option obj)
    (format : option string)
    (before after : list (string * Decoder.dvalue obj))
    (key : string) (v : Decoder.dvalue obj) :
  Decoder.is_image_key key = true →
  format ≠ Some "PIL"%string →
  let decoder := Decoder.default_decoder obj gzip_decompress utf8_decode
                   parse_int pil_open json_loads np_load import_msgpack
                   msgpack_unpackb torch_load pickle_load in
  (∀ res, decoder (before ++ (key, v) :: after) format ≠ Decoder.Done res)
  ∧ (∀ decoded, decoder before format = Decoder.Done decoded →
       Decoder.not_zipped key = true →
       decoder (before ++ (key, v) :: after) format
       = Decoder.Fail (if bool_decide (format = Some "numpy"%string)
                       then Decoder.UnboundLocalError
                       else Decoder.ValueError)).
Proof.
  intros Himg Hfmt decoder. subst decoder. unfold Decoder.default_decoder.
  pose proof (decode_entry_image obj gzip_decompress utf8_decode parse_int
                pil_open json_loads np_load import_msgpack msgpack_unpackb
                torch_load pickle_load format key v Himg Hfmt) as He.
  split.
  - intros res. rewrite decode_entries_app.
    destruct (Decoder.decode_entries _ _ _ _ _ _ _ _ _ _ _ format before)
      as [r1|e]; cbn [mbind Decoder.outcome_bind]; [|done].
    cbn [Decoder.decode_entries].
    destruct (Decoder.decode_entry _ _ _ _ _ _ _ _ _ _ _ format key v)
      as [v'|e]; [done|]. done.
  - intros decoded Hb Hz. rewrite decode_entries_app, Hb.
    cbn [mbind Decoder.outcome_bind Decoder.decode_entries].
    destruct (Decoder.decode_entry _ _ _ _ _ _ _ _ _ _ _ format key v)
      as [v'|e]; [done|]. cbn [mbind Decoder.outcome_bind].
    by rewrite (He Hz).
Qed.

Lemma default_decoder_images_witness :
  Decoder.default_decoder unit (λ d, Some d) (λ _, Some "x"%string)
    (λ _, Some 0%Z) (λ _, Some ()) (λ _, Some ()) (λ _, Some ()) true
    (λ _, Some ()) (λ _, Some ()) (λ _, Some ())
    ([("__key__"%string, Decoder.DStr unit "a")]
     ++ (".jpg"%string, Decoder.DStream unit (Stream [] 0))
     :: [(".txt"%string, Decoder.DStream unit (Stream [] 0))])
    (Some "numpy"%string)
  = Decoder.Fail Decoder.UnboundLocalError.
Proof.
  refine (proj2 (default_decoder_images unit (λ d, Some d)
    (λ _, Some "x"%string) (λ _, Some 0%Z) (λ _, Some ()) (λ _, Some ())
    (λ _, Some ()) true (λ _, Some ()) (λ _, Some ()) (λ _, Some ())
    (Some "numpy"%string) [("__key__"%string, Decoder.DStr unit "a")]
    [(".txt"%string, Decoder.DStream unit (Stream [] 0))]
    ".jpg"%string (Decoder.DStream unit (Stream [] 0)) _ _)
    [("__key__"%string, Decoder.DStr unit "a")] _ _).
  - vm_compute. reflexivity.
  - discriminate.
  - vm_compute. reflexivity.
  - vm_compute. reflexivity.
Defined.

(** X20. When [default_decoder] returns, the sample it returns has the keys
    of the sample it was given, in the same order, and every entry whose
    key starts with two underscores (the metadata: [__key__], [__index__],
    ...) is as it was, unless its key ends in [gz]. *)
Theorem default_decoder_keys (obj : Type)
    (gzip_decompress : data → option data)
    (utf8_decode : data → option string) (parse_int : string → option Z)
    (pil_open : Decoder.dvalue obj → option obj)
    (json_loads : data → option obj)
    (np_load : Decoder.dvalue obj → option obj) (import_msgpack : bool)
    (msgpack_unpackb : data → option obj)
    (torch_load pickle_load : Decoder.dvalue obj → option obj)
    (format : option string)
    (sample res : list (string * Decoder.dvalue obj)) :
  Decoder.default_decoder obj gzip_decompress utf8_decode parse_int pil_open
    json_loads np_load import_msgpack msgpack_unpackb torch_load pickle_load
    sample format = Decoder.Done res →
  res.*1 = sample.*1
  ∧ ∀ key v, (key, v) ∈ sample → Decoder.not_zipped key = true →
      String.prefix "__" key = true → (key, v) ∈ res.
Proof. apply decode_entries_keys. Qed.

Lemma default_decoder_keys_witness :
  (["__key__"; ".txt"]%string : list string)
  = ([("__key__"%string, Decoder.DStr unit "a");
      (".txt"%string, Decoder.DStream unit (Stream [] 0))]).*1.
Proof.
  symmetry.
  refine (proj1 (default_decoder_keys unit (λ d, Some d)
    (λ _, Some "x"%string) (λ _, Some 0%Z) (λ _, Some ()) (λ _, Some ())
    (λ _, Some ()) true (λ _, Some ()) (λ _, Some ()) (λ _, Some ())
    None
    [("__key__"%string, Decoder.DStr unit "a");
     (".txt"%string, Decoder.DStream unit (Stream [] 0))]
    [("__key__"%string, Decoder.DStr unit "a");
     (".txt"%string, Decoder.DStr unit "x")] _)).
  vm_compute. reflexivity.
Defined.

